(** * enaml-web: change records of the Tag tree (web/components/html.py)

    A shallow embedding of [Tag] and [Html]: the observer [_update_proxy],
    the relay [_notify_modified], the structural hooks [child_added],
    [child_moved] and [child_removed], and [prepare] / [render].

    Python objects live in a heap indexed by object identity; a method is a
    function of a small state-and-exception monad over that heap.  Every
    call that leaves the model (a call on the proxy, the firing of the
    [modified] event of an [Html] root) is appended to a trace, in program
    order. *)

From Stdlib Require HexadecimalString HexadecimalN HexadecimalPos.
From stdpp Require Import gmap strings list fin_maps.

Open Scope string_scope.
Open Scope list_scope.
Open Scope nat_scope.

(** ** Values and dicts *)

(** Object identity, Python's [id(obj)].  The objects of a heap are alive
    at the same time, so their identities differ.  CPython may give the
    identity of an object that has died to a new object; the heaps below
    never lose an object, so that reuse does not show in them. *)
Definition ref := nat.

(** The Python values that attributes and change dicts hold. *)
Inductive value :=
| VNone
| VBool (b : bool)
| VStr (s : string)
| VList (l : list string)
| VDict (d : gmap string string)
| VRef (r : ref).

#[global] Instance value_eq_dec : EqDecision value.
Proof. solve_decision. Defined.

(** A Python dict with string keys: the change dicts of atom and the
    change records handed to [_notify_modified]. *)
Abbreviation dict := (gmap string value).

(** ** Classes and objects *)

(** The value members of html.py by the validator that atom runs when one
    is assigned. *)
Inductive member :=
| Str                        (* Str(): a str is kept, anything else is a TypeError *)
| Coerced_bool               (* Coerced(bool): a bool is kept, anything else goes through bool() *)
| Dict                       (* Dict(): a dict is kept, anything else is a TypeError *)
| Instance_object            (* Instance((list, object)), Instance((dict, object)): every object passes *)
| Value                      (* Value(): no validation *)
| Enum (items : list string).
                             (* Enum(...): one of the items, or a ValueError *)

(** The classes an object of the tree can have.  [Tag declares observes]
    stands for [Tag] itself ([Tag [] []]) and for each of its subclasses
    other than [Html]: [declares] lists the value members the subclass
    adds, and [observes] the member names it adds with its own
    [@observe(...)] override, which only calls [super()._update_proxy].
    [Object] is a child that is no [Tag], a pattern node ([Looper],
    [Conditional]) for one.  The methods of [Tag] pass such a child over,
    and that is all the model keeps of it: what enaml does with it is left
    out. *)
Inductive pyclass :=
| Html
| Tag (declares : list (string * member)) (observes : list string)
| Object.

(** [isinstance(o, Tag)]; [Html] derives from [Tag]. *)
Definition isinstance_Tag (k : pyclass) : bool :=
  match k with Html | Tag _ _ => true | Object => false end.

(** [isinstance(o, Html)]. *)
Definition isinstance_Html (k : pyclass) : bool :=
  match k with Html => true | _ => false end.

(** [isinstance(o, ToolkitObject)]: in this tree exactly the tags. *)
Definition isinstance_ToolkitObject (k : pyclass) : bool := isinstance_Tag k.

(** The names of [@observe(...)] on [Tag._update_proxy], html.py:91-93. *)
Definition Tag_observed : list string :=
  ["id"; "tag"; "cls"; "style"; "text"; "tail"; "alt"; "attrs";
   "onclick"; "clickable"; "ondragstart"; "ondragover"; "ondrop";
   "draggable"].

Definition observed (k : pyclass) (name : string) : bool :=
  match k with
  | Html => bool_decide (name ∈ Tag_observed)
  | Tag _ extra => bool_decide (name ∈ Tag_observed ++ extra)
  | Object => false
  end.

(** The value members that [Tag] declares, html.py:40-83, and [name],
    which it has from enaml's [Object].  The events ([clicked], [dropped],
    and [modified] of [Html]) are no attributes: an assignment to one fires
    it.  What else enaml hands down (the proxy, the flags, its events) is
    not listed: the model has no assignment to them. *)
Definition Tag_members : list (string * member) :=
  [("id", Str); ("tag", Str); ("cls", Instance_object);
   ("style", Instance_object); ("text", Str); ("tail", Str); ("alt", Str);
   ("attrs", Dict); ("onclick", Str); ("clickable", Coerced_bool);
   ("draggable", Coerced_bool); ("ondragstart", Str); ("ondragover", Str);
   ("ondrop", Str); ("name", Str)].

(** The member that a class has under a name; what a subclass declares
    comes before what it inherits. *)
Definition member_of (k : pyclass) (name : string) : option member :=
  match k with
  | Html => (list_to_map Tag_members : gmap string member) !! name
  | Tag declares _ =>
      (list_to_map (declares ++ Tag_members) : gmap string member) !! name
  | Object => None
  end.

(** [bool(v)]. *)
Definition truth (v : value) : bool :=
  match v with
  | VNone => false
  | VBool b => b
  | VStr s => negb (bool_decide (s = ""))
  | VList l => negb (bool_decide (l = []))
  | VDict d => negb (bool_decide (d = ∅))
  | VRef _ => true
  end.

(** An object: its class, the atom members that hold a value ([slots]; a
    member never read nor assigned has none), the tree links and the two
    flags of [ToolkitObject]. *)
Record obj := Obj {
  class_of : pyclass;
  slots : gmap string value;
  parent : option ref;
  children : list ref;
  is_initialized : bool;
  proxy_is_active : bool
}.

Definition set_slot (name : string) (v : value) (o : obj) : obj :=
  Obj (class_of o) (<[name := v]> (slots o)) (parent o) (children o)
      (is_initialized o) (proxy_is_active o).

Definition set_parent_field (p : option ref) (o : obj) : obj :=
  Obj (class_of o) (slots o) p (children o)
      (is_initialized o) (proxy_is_active o).

Definition set_children (cs : list ref) (o : obj) : obj :=
  Obj (class_of o) (slots o) (parent o) cs
      (is_initialized o) (proxy_is_active o).

Definition set_is_initialized (b : bool) (o : obj) : obj :=
  Obj (class_of o) (slots o) (parent o) (children o) b (proxy_is_active o).

Definition set_proxy_is_active (b : bool) (o : obj) : obj :=
  Obj (class_of o) (slots o) (parent o) (children o) (is_initialized o) b.

(** ** Effects *)

(** What leaves the model, in program order. *)
Inductive effect :=
| Initialize (r : ref)                               (* r.initialize() *)
| ActivateProxy (r : ref)                            (* r.activate_proxy() *)
| ProxyChildAdded (p c : ref)                        (* p.proxy.child_added(c.proxy) *)
| ProxyChildRemoved (p c : ref)                      (* p.proxy.child_removed(c.proxy) *)
| ProxyChildMoved (p c : ref) (ok : bool)            (* p.proxy.child_moved(c.proxy) *)
| ProxySet (r : ref) (name : string) (v : value)     (* r.proxy.set_<name>(v) *)
| ProxySetAttribute (r : ref) (name : string) (v : value)
                                                     (* r.proxy.set_attribute(name, v) *)
| ProxyRender (r : ref) (markup : string)            (* r.proxy.render() *)
| Modified (root : ref) (change : dict).             (* root.modified(change) *)

#[global] Instance effect_eq_dec : EqDecision effect.
Proof. solve_decision. Defined.

(** The change records delivered to [Html] roots, oldest first. *)
Definition delivered (tr : list effect) : list (ref * dict) :=
  omap (λ e, match e with Modified r c => Some (r, c) | _ => None end) tr.

(** ** The renderer *)

(** The proxy of html.py:23-32 as an interface.  Its implementation is not
    part of the modelled file; what it answers may depend on everything it
    was asked before, so each answer is a function of the trace so far.
    [proxy_render] is [None] where [render] is not overridden and raises
    [NotImplementedError] (html.py:30-32).  A proxy brings [set_attribute]
    and [child_moved] with it, which the hooks call and [ProxyTag] itself
    does not define. *)
Class ProxyTag := {
  has_setter : ref → string → bool;
    (* getattr(proxy, 'set_' + name, None) is not None *)
  proxy_render : list effect → ref → option string;
  proxy_child_moved : list effect → ref → ref → bool
}.

(** ** The monad *)

Record world := World {
  heap : gmap ref obj;
  trace : list effect
}.

Inductive exn :=
| KeyError
| ValueError
| TypeError
| AttributeError
| NotImplementedError
| ReferenceError     (* an identity that names no object: no Python run has one *)
| Hang.              (* a loop that does not end *)

Inductive result (A : Type) :=
| Ok (a : A) (w : world)
| Raise (e : exn) (w : world).
Arguments Ok {A} a w.
Arguments Raise {A} e w.

Definition M (A : Type) : Type := world → result A.

Definition ret {A} (a : A) : M A := λ w, Ok a w.

Definition bind {A B} (m : M A) (k : A → M B) : M B :=
  λ w, match m w with
       | Ok a w' => k a w'
       | Raise e w' => Raise e w'
       end.

Definition raise {A} (e : exn) : M A := λ w, Raise e w.

Notation "'do' x <- m ; k" := (bind m (λ x, k))
  (at level 10, x name, m at level 100, k at level 200,
   format "'[v' 'do'  x  <-  m ; '/' k ']'").

Definition when (b : bool) (m : M unit) : M unit :=
  if b then m else ret tt.

Definition emit (e : effect) : M unit :=
  λ w, Ok tt (World (heap w) (trace w ++ [e])).

Definition get_trace : M (list effect) := λ w, Ok (trace w) w.

Definition lookup_obj (r : ref) : M obj :=
  λ w, match heap w !! r with
       | Some o => Ok o w
       | None => Raise ReferenceError w
       end.

Definition modify_obj (r : ref) (f : obj → obj) : M unit :=
  λ w, match heap w !! r with
       | Some _ => Ok tt (World (alter f r (heap w)) (trace w))
       | None => Raise ReferenceError w
       end.

(** [d[key]]. *)
Definition getitem (d : dict) (key : string) : M value :=
  match d !! key with
  | Some v => ret v
  | None => raise KeyError
  end.

(** [for x in l: body(x)]. *)
Fixpoint for_each {A} (l : list A) (body : A → M unit) : M unit :=
  match l with
  | [] => ret tt
  | x :: l' => do _ <- body x; for_each l' body
  end.

(** ** The framework underneath

    [Tag] derives from enaml's [ToolkitObject]; the members below are
    inherited from enaml and atom (html.py:14-20), whose code is not part
    of the modelled file.  They are written out as far as the methods of
    [Tag] call them. *)

(** [obj.root_object()]: follow the parent links up to the object that has
    none.  [fuel] bounds the walk; the heap's size is enough for every chain
    that ends (see [root_object_loop_complete]). *)
Fixpoint root_object_loop (fuel : nat) (h : gmap ref obj) (o : ref)
  : exn + ref :=
  match h !! o with
  | None => inl ReferenceError
  | Some d =>
      match parent d with
      | None => inr o
      | Some p =>
          match fuel with
          | 0 => inl Hang
          | S fuel' => root_object_loop fuel' h p
          end
      end
  end.

Definition root_object (self : ref) : M ref :=
  λ w, match root_object_loop (size (heap w)) (heap w) self with
       | inr r => Ok r w
       | inl e => Raise e w
       end.

(** What the validator of a member makes of a value: the value that is
    stored, or the exception of the assignment. *)
Definition validate (m : member) (v : value) : exn + value :=
  match m with
  | Str => match v with VStr _ => inr v | _ => inl TypeError end
  | Coerced_bool => inr (VBool (truth v))
  | Dict => match v with VDict _ => inr v | _ => inl TypeError end
  | Instance_object => inr v
  | Value => inr v
  | Enum items =>
      match v with
      | VStr s => if bool_decide (s ∈ items) then inr v else inl ValueError
      | _ => inl ValueError
      end
  end.

Definition is_tag (h : gmap ref obj) (r : ref) : bool :=
  match h !! r with
  | Some o => isinstance_Tag (class_of o)
  | None => false
  end.

(** The objects that [r.initialize()] and [r.activate_proxy()] visit: [r]
    and, over the children lists, the tags below it.  Both methods walk the
    tree that hangs on [r]; [fuel] bounds the depth of the walk, and the
    size of the heap is enough to reach every tag below [r] (see
    [tree_complete]). *)
Fixpoint tree_loop (fuel : nat) (h : gmap ref obj) (r : ref) : list ref :=
  r :: match fuel with
       | 0 => []
       | S fuel' =>
           match h !! r with
           | Some o =>
               c ← children o;
               if is_tag h c then tree_loop fuel' h c else []
           | None => []
           end
       end.

Definition tree (h : gmap ref obj) (r : ref) : list ref :=
  tree_loop (size h) h r.

(** [for x in l: x.<flag> = True]. *)
Definition mark (f : obj → obj) (l : list ref) (h : gmap ref obj)
  : gmap ref obj :=
  foldr (alter f) h l.

Definition modify_heap (f : gmap ref obj → gmap ref obj) : M unit :=
  λ w, Ok tt (World (f (heap w)) (trace w)).

(** [obj.initialize()] and [obj.activate_proxy()]: enaml's
    [Declarative.initialize] initializes the children and then the object,
    [ToolkitObject.activate_proxy] activates the proxy of the object and of
    the toolkit children below it.  One event stands for the call and all
    that it does to the tree. *)
Definition initialize (r : ref) : M unit :=
  do _ <- lookup_obj r;
  do _ <- modify_heap (λ h, mark (set_is_initialized true) (tree h r) h);
  emit (Initialize r).

Definition activate_proxy (r : ref) : M unit :=
  do _ <- lookup_obj r;
  do _ <- modify_heap (λ h, mark (set_proxy_is_active true) (tree h r) h);
  emit (ActivateProxy r).

(** [ToolkitObject.child_added], reached by [super(Tag, self).child_added].
    A toolkit child of an active parent is initialized and activated as
    needed and handed to the parent's proxy.  Under a parent that is
    initialized but not active, [Declarative.child_added] still initializes
    the child; nothing else happens then.  (An active parent has been
    initialized: its proxy is made by [initialize].) *)
Definition ToolkitObject_child_added (self child : ref) : M unit :=
  do c <- lookup_obj child;
  if isinstance_ToolkitObject (class_of c) then
    do s <- lookup_obj self;
    if proxy_is_active s then
      do _ <- when (negb (is_initialized c)) (initialize child);
      do c <- lookup_obj child;
      do _ <- when (negb (proxy_is_active c)) (activate_proxy child);
      emit (ProxyChildAdded self child)
    else when (is_initialized s && negb (is_initialized c)) (initialize child)
  else ret tt.

(** [Object.child_moved], reached by [super(Tag, self).child_moved]: a hook
    that does nothing. *)
Definition Object_child_moved (self child : ref) : M unit := ret tt.

(** [ToolkitObject.child_removed], reached by
    [super(Tag, self).child_removed]. *)
Definition ToolkitObject_child_removed (self child : ref) : M unit :=
  do c <- lookup_obj child;
  if isinstance_ToolkitObject (class_of c) then
    do s <- lookup_obj self;
    if proxy_is_active s then emit (ProxyChildRemoved self child)
    else ret tt
  else ret tt.

(** ** Tag (html.py:35-239) *)

(** [_default_id], html.py:88-89: ['%0x' % id(self)]. *)
Definition _default_id (self : ref) : string :=
  HexadecimalString.NilZero.string_of_uint (N.to_hex_uint (N.of_nat self)).

(** Reading [o.id].  A first read of a member without a value computes the
    default and keeps it in the slot.  Should atom report that to the
    observers, it does so with a change of type ['create'], which
    [_update_proxy] leaves at its guard ([update_proxy_guard] below); the
    slot is therefore filled without the call. *)
Definition getattr_id (o : ref) : M value :=
  do d <- lookup_obj o;
  match slots d !! "id" with
  | Some v => ret v
  | None =>
      let v := VStr (_default_id o) in
      do _ <- modify_obj o (set_slot "id" v);
      ret v
  end.

(** [l.index(x)]: the position of the first element equal to [x]. *)
Fixpoint list_index (l : list ref) (x : ref) : option nat :=
  match l with
  | [] => None
  | y :: l' => if decide (y = x) then Some 0 else S <$> list_index l' x
  end.

Definition index (l : list ref) (x : ref) : M nat :=
  match list_index l x with
  | Some i => ret i
  | None => raise ValueError
  end.

Section Tag.
Context {proxy : ProxyTag}.

(** [self.proxy.render()]. *)
Definition call_proxy_render (self : ref) : M string :=
  do tr <- get_trace;
  match proxy_render tr self with
  | Some markup => do _ <- emit (ProxyRender self markup); ret markup
  | None => raise NotImplementedError
  end.

(** [self.proxy.child_moved(child.proxy)]. *)
Definition call_proxy_child_moved (self child : ref) : M bool :=
  do tr <- get_trace;
  let ok := proxy_child_moved tr self child in
  do _ <- emit (ProxyChildMoved self child ok);
  ret ok.

(** [_notify_modified], html.py:117-128. *)
Definition _notify_modified (self : ref) (change : dict) : M unit :=
  do root <- root_object self;
  do r <- lookup_obj root;
  if isinstance_Html (class_of r) then emit (Modified root change)
  else ret tt.

(** [_update_proxy], html.py:94-115. *)
Definition _update_proxy (self : ref) (change : dict) : M unit :=
  do t <- getitem change "type";
  if bool_decide (t = VStr "update") then
    do s <- lookup_obj self;
    if proxy_is_active s then
      do name <- getitem change "name";
      do value <- getitem change "value";
      match name with
      | VStr n =>
          do _ <- (if has_setter self n
                   then emit (ProxySet self n value)
                   else emit (ProxySetAttribute self n value));
          do i <- getattr_id self;
          _notify_modified self
            {[ "id" := i; "type" := t; "name" := name; "value" := value ]}
      | _ => raise TypeError      (* 'set_' + name *)
      end
    else ret tt
  else ret tt.

(** The assignment of atom once the member has validated the value: [v]
    is what the validator returned ([Atom_setattr] below puts the
    validation in front).  The value is stored; the observers of an
    observed member are called with a change of type ['create'] when the
    member had no value and of type ['update'] when it had another one; a
    value equal to the present one calls nobody. *)
Definition setattr (self : ref) (name : string) (v : value) : M unit :=
  do s <- lookup_obj self;
  match slots s !! name with
  | Some old =>
      if bool_decide (old = v) then ret tt
      else
        do _ <- modify_obj self (set_slot name v);
        when (observed (class_of s) name)
          (_update_proxy self
             {[ "type" := VStr "update"; "object" := VRef self;
                "name" := VStr name; "oldvalue" := old; "value" := v ]})
  | None =>
      do _ <- modify_obj self (set_slot name v);
      when (observed (class_of s) name)
        (_update_proxy self
           {[ "type" := VStr "create"; "object" := VRef self;
              "name" := VStr name; "value" := v ]})
  end.

(** [setattr(self, name, v)] and [self.<name> = v] on a value member, as
    atom runs them.  Atom returns at once when the value is the very object
    the member holds; a value equal to the one held passes the validator as
    that one did and is reported to nobody, so the model returns at once
    for it as well.  Otherwise a member validates the value first: a value
    it refuses raises and nothing is stored; what it returns (the value
    itself, or the coerced one) is assigned.  A name that [member_of] does
    not know raises [AttributeError], as the code does for a name that is
    no attribute of the class. *)
Definition Atom_setattr (self : ref) (name : string) (v : value) : M unit :=
  do s <- lookup_obj self;
  if bool_decide (slots s !! name = Some v) then ret tt
  else
    match member_of (class_of s) name with
    | None => raise AttributeError
    | Some m =>
        match validate m v with
        | inl e => raise e
        | inr v' => setattr self name v'
        end
    end.

(** [prepare], html.py:215-227. *)
Definition prepare (self : ref) (kwargs : list (string * value)) : M unit :=
  do _ <- for_each kwargs (λ kv, Atom_setattr self kv.1 kv.2);
  do s <- lookup_obj self;
  do _ <- when (negb (is_initialized s)) (initialize self);
  do s <- lookup_obj self;
  when (negb (proxy_is_active s)) (activate_proxy self).

(** [render], html.py:229-239. *)
Definition render (self : ref) (kwargs : list (string * value)) : M string :=
  do _ <- prepare self kwargs;
  call_proxy_render self.

(** The loop of html.py:146-152 and 170-176 over [children[i:]]: the first
    [Tag] met gives ['before'] and ends the loop. *)
Fixpoint while_before (rest : list ref) (change : dict) : M dict :=
  match rest with
  | [] => ret change
  | c :: rest' =>
      do d <- lookup_obj c;
      if isinstance_Tag (class_of d) then
        do i <- getattr_id c;
        ret (<["before" := i]> change)
      else while_before rest' change
  end.

(** [child_added], html.py:133-154. *)
Definition child_added (self child : ref) : M unit :=
  do _ <- ToolkitObject_child_added self child;
  do c <- lookup_obj child;
  if isinstance_Tag (class_of c) then
    do s <- lookup_obj self;
    if proxy_is_active s then
      do i <- getattr_id self;
      do markup <- render child [];
      let change : dict :=
        {[ "id" := i; "type" := VStr "added"; "name" := VStr "children";
           "value" := VStr markup ]} in
      do s <- lookup_obj self;
      let children := children s in
      do i <- index children child;
      do change <- while_before (drop (i + 1) children) change;
      _notify_modified self change
    else ret tt
  else ret tt.

(** [child_moved], html.py:156-178. *)
Definition child_moved (self child : ref) : M unit :=
  do _ <- Object_child_moved self child;
  do c <- lookup_obj child;
  if isinstance_Tag (class_of c) then
    do s <- lookup_obj self;
    if proxy_is_active s then
      do ok <- call_proxy_child_moved self child;
      if ok then
        do i <- getattr_id self;
        do v <- getattr_id child;
        let change : dict :=
          {[ "id" := i; "type" := VStr "moved"; "name" := VStr "children";
             "value" := v ]} in
        do s <- lookup_obj self;
        let children := children s in
        do i <- index children child;
        do change <- while_before (drop (i + 1) children) change;
        _notify_modified self change
      else ret tt
    else ret tt
  else ret tt.

(** [child_removed], html.py:180-193. *)
Definition child_removed (self child : ref) : M unit :=
  do _ <- ToolkitObject_child_removed self child;
  do c <- lookup_obj child;
  if isinstance_Tag (class_of c) then
    do s <- lookup_obj self;
    if proxy_is_active s then
      do i <- getattr_id self;
      do v <- getattr_id child;
      _notify_modified self
        {[ "id" := i; "type" := VStr "removed"; "name" := VStr "children";
           "value" := v ]}
    else ret tt
  else ret tt.

End Tag.

(** ** The operations that run the hooks

    The tree is changed through enaml's [Object.insert_children] and
    [Object.set_parent], which rebuild the children list first and call the
    hooks afterwards. *)

Section Operations.
Context {proxy : ProxyTag}.

(** The hooks as [parent.child_added(child)] resolves them: those of [Tag]
    on a tag, the empty ones of [Object] on any other parent. *)
Definition call_child_added (parent child : ref) : M unit :=
  do p <- lookup_obj parent;
  if isinstance_Tag (class_of p) then child_added parent child else ret tt.

Definition call_child_moved (parent child : ref) : M unit :=
  do p <- lookup_obj parent;
  if isinstance_Tag (class_of p) then child_moved parent child else ret tt.

Definition call_child_removed (parent child : ref) : M unit :=
  do p <- lookup_obj parent;
  if isinstance_Tag (class_of p) then child_removed parent child else ret tt.

(** The children list that [insert_children(before, insert)] builds: the
    old children without those of [insert], with [insert] put in front of
    [before], or at the end when [before] is not met. *)
Fixpoint place (before : option ref) (insert old : list ref)
  : list ref * bool :=
  match old with
  | [] => ([], false)
  | c :: old' =>
      let '(new, added) := place before insert old' in
      if bool_decide (c ∈ insert) then (new, added)
      else if bool_decide (before = Some c) then (insert ++ c :: new, true)
      else (c :: new, added)
  end.

Definition new_children (before : option ref) (insert old : list ref)
  : list ref :=
  let '(new, added) := place before insert old in
  if added then new else new ++ insert.

(** [l.remove(x)]: drops the first element equal to [x]. *)
Fixpoint list_remove (x : ref) (l : list ref) : option (list ref) :=
  match l with
  | [] => None
  | y :: l' => if decide (y = x) then Some l'
               else cons y <$> list_remove x l'
  end.

Definition detach (p child : ref) : M unit :=
  do po <- lookup_obj p;
  match list_remove child (children po) with
  | Some cs => modify_obj p (set_children cs)
  | None => raise ValueError
  end.

(** [self.insert_children(before, [child])].  A child that comes from
    another parent gets its new parent and is reported to the old one by
    [child_removed]; the list of the old parent is left as it is. *)
Definition insert_child (self : ref) (before : option ref) (child : ref)
  : M unit :=
  if bool_decide (child = self) then raise ValueError
  else
    do s <- lookup_obj self;
    do c <- lookup_obj child;
    let old := children s in
    do _ <- (if bool_decide (parent c = Some self) then ret tt
             else
               do _ <- modify_obj child (set_parent_field (Some self));
               match parent c with
               | Some p => call_child_removed p child
               | None => ret tt
               end);
    do _ <- modify_obj self (set_children (new_children before [child] old));
    if bool_decide (child ∈ old) then call_child_moved self child
    else call_child_added self child.

(** [child.set_parent(None)]. *)
Definition remove_child (child : ref) : M unit :=
  do c <- lookup_obj child;
  match parent c with
  | None => ret tt
  | Some p =>
      do _ <- modify_obj child (set_parent_field None);
      do _ <- detach p child;
      call_child_removed p child
  end.

End Operations.

(** ** Sequences of operations on the children of one tag *)

Inductive op :=
| Insert (before : option ref) (child : ref)   (* insert_children(before, [child]) *)
| Remove (child : ref).                        (* child.set_parent(None) *)

Definition affected (o : op) : ref :=
  match o with Insert _ c | Remove c => c end.

Section Sequences.
Context {proxy : ProxyTag}.

Definition apply_op (self : ref) (o : op) : M unit :=
  match o with
  | Insert before child => insert_child self before child
  | Remove child => remove_child child
  end.

Definition run_ops (self : ref) (ops : list op) : M unit :=
  for_each ops (apply_op self).

End Sequences.

(** ** Notions used to state the properties *)

(** The chain of parents from an object up to the root of its tree: the
    objects below the root, nearest first, and the root. *)
Inductive parent_chain (h : gmap ref obj) : ref → list ref → ref → Prop :=
| chain_root r o :
    h !! r = Some o → parent o = None → parent_chain h r [] r
| chain_step r o p l root :
    h !! r = Some o → parent o = Some p → parent_chain h p l root →
    parent_chain h r (r :: l) root.

(** A way down from an object to one below it, over the children lists and
    through tags only: the objects passed after the first, in order. *)
Inductive tree_path (h : gmap ref obj) : ref → list ref → ref → Prop :=
| path_end r : tree_path h r [] r
| path_step r o c l x :
    h !! r = Some o → c ∈ children o → is_tag h c = true →
    tree_path h c l x → tree_path h r (c :: l) x.

(** The value of [o.id]: the slot, or the default where the slot is empty. *)
Definition id_value (r : ref) (o : obj) : value :=
  default (VStr (_default_id r)) (slots o !! "id").

Definition id_of (h : gmap ref obj) (r : ref) : value :=
  match h !! r with
  | Some o => id_value r o
  | None => VNone
  end.

(** The heap after a read of [r.id]. *)
Definition fill_id_obj (r : ref) (o : obj) : obj :=
  match slots o !! "id" with
  | Some _ => o
  | None => set_slot "id" (VStr (_default_id r)) o
  end.

Definition fill_id (r : ref) (h : gmap ref obj) : gmap ref obj :=
  alter (fill_id_obj r) r h.

Definition fill_anchor (a : option ref) (h : gmap ref obj) : gmap ref obj :=
  match a with
  | Some x => fill_id x h
  | None => h
  end.

(** An object after it was initialized and activated. *)
Definition activate_obj (o : obj) : obj :=
  set_proxy_is_active true (set_is_initialized true o).

(** The heap after [r.initialize()] and after [r.activate_proxy()]. *)
Definition initialize_tree (r : ref) (h : gmap ref obj) : gmap ref obj :=
  mark (set_is_initialized true) (tree h r) h.

Definition activate_tree (r : ref) (h : gmap ref obj) : gmap ref obj :=
  mark (set_proxy_is_active true) (tree h r) h.

(** The heap after the child [c] was initialized and activated as needed
    under an active parent. *)
Definition added_heap (c : obj) (child : ref) (h : gmap ref obj)
  : gmap ref obj :=
  let h1 := if is_initialized c then h else initialize_tree child h in
  if proxy_is_active c then h1 else activate_tree child h1.

(** The siblings that follow the first occurrence of [child]. *)
Fixpoint following (child : ref) (cs : list ref) : list ref :=
  match cs with
  | [] => []
  | x :: cs' => if decide (x = child) then cs' else following child cs'
  end.

(** The first [Tag] of a list of objects. *)
Fixpoint first_tag (h : gmap ref obj) (l : list ref) : option ref :=
  match l with
  | [] => None
  | x :: l' => if is_tag h x then Some x else first_tag h l'
  end.

(** The anchor of [child] among [cs]: the nearest following [Tag]. *)
Definition anchor (h : gmap ref obj) (cs : list ref) (child : ref)
  : option ref :=
  first_tag h (following child cs).

(** The sibling right after [child]. *)
Definition next_sibling (cs : list ref) (child : ref) : option ref :=
  head (following child cs).

(** A change record with its optional ['before']. *)
Definition with_before (b : option value) (change : dict) : dict :=
  match b with
  | Some v => <["before" := v]> change
  | None => change
  end.

Definition record (id : value) (type : string) (v : value)
  (before : option value) : dict :=
  with_before before
    {[ "id" := id; "type" := VStr type; "name" := VStr "children";
       "value" := v ]}.

(** What [ToolkitObject.child_added] does before the hook of [Tag] goes on. *)
Definition added_prelude (c : obj) (self child : ref) : list effect :=
  (if is_initialized c then [] else [Initialize child]) ++
  (if proxy_is_active c then [] else [ActivateProxy child]) ++
  [ProxyChildAdded self child].

(** The delivery of a record at a root. *)
Definition delivery (r : obj) (root : ref) (change : dict) : list effect :=
  if isinstance_Html (class_of r) then [Modified root change] else [].

(** Two heaps with the same objects, classes, tree links and ids; between
    them a flag may have been raised, and no active proxy has become
    inactive. *)
Definition steady (h h' : gmap ref obj) : Prop :=
  ∀ r, match h !! r, h' !! r with
       | Some o, Some o' =>
           class_of o' = class_of o ∧ parent o' = parent o ∧
           children o' = children o ∧ id_value r o' = id_value r o ∧
           (proxy_is_active o = true → proxy_is_active o' = true)
       | None, None => True
       | _, _ => False
       end.

(** The world a run ends in, returned or raised. *)
Definition world_of {A} (r : result A) : world :=
  match r with Ok _ w => w | Raise _ w => w end.

(** The records delivered between two worlds of one run. *)
Definition new_records (w w' : world) : list (ref * dict) :=
  drop (length (delivered (trace w))) (delivered (trace w')).

(** A parent whose children are all tags, with the tags that the
    operations may insert or remove: [self] is an active tag, its children
    are distinct members of [pool], and every member of [pool] is a tag
    other than [self] whose parent is [self] when it is among the children
    and which has no parent otherwise. *)
Definition pool_member (h : gmap ref obj) (self : ref) (cs : list ref)
  (x : ref) : bool :=
  match h !! x with
  | Some o =>
      isinstance_Tag (class_of o) &&
      bool_decide (parent o = if bool_decide (x ∈ cs) then Some self else None)
  | None => false
  end.

Definition tags_only (pool : list ref) (self : ref) (h : gmap ref obj)
  : bool :=
  match h !! self with
  | Some s =>
      isinstance_Tag (class_of s) && proxy_is_active s &&
      bool_decide (NoDup (children s)) && bool_decide (self ∉ pool) &&
      forallb (λ c, bool_decide (c ∈ pool)) (children s) &&
      forallb (pool_member h self (children s)) pool
  | None => false
  end.

(** [tags_only] as a proposition. *)
Definition pool_inv (pool : list ref) (self : ref) (h : gmap ref obj)
  : Prop :=
  ∃ s, h !! self = Some s ∧
       isinstance_Tag (class_of s) = true ∧ proxy_is_active s = true ∧
       NoDup (children s) ∧ (self ∉ pool) ∧
       (∀ c, c ∈ children s → c ∈ pool) ∧
       ∀ x, x ∈ pool →
            ∃ o, h !! x = Some o ∧ isinstance_Tag (class_of o) = true ∧
                 parent o = if bool_decide (x ∈ children s)
                            then Some self else None.

(** What the claim on anchors asks of the records delivered between [w]
    and [w'] for the child [child] of [self]. *)
Definition anchored (self child : ref) (w w' : world) : Prop :=
  ∃ s', heap w' !! self = Some s' ∧
        delivered (trace w') = delivered (trace w) ++ new_records w w' ∧
        ∀ rc, rc ∈ new_records w w' →
              rc.2 !! "before"
                = id_of (heap w') <$> next_sibling (children s') child
              ∧ (rc.2 !! "before" = None ↔
                 next_sibling (children s') child = None).

(** ** A small document for the examples *)

(** A renderer with a setter for [text] only; it prints an object as its
    identity in angle brackets and refuses to move object 4. *)
Definition example_proxy : ProxyTag := {|
  has_setter := λ _ n, bool_decide (n = "text");
  proxy_render := λ _ r, Some ("<" +:+ _default_id r +:+ ">");
  proxy_child_moved := λ _ _ c, bool_decide (c ≠ 4)
|}.

(** A proxy that leaves [render] as html.py:30-32 has it.  It adds what
    the hooks cannot do without and [ProxyTag] itself lacks: a
    [set_attribute], and a [child_moved], which moves nothing. *)
Definition base_proxy : ProxyTag := {|
  has_setter := λ _ _, false;
  proxy_render := λ _ _, None;
  proxy_child_moved := λ _ _ _, false
|}.

(** The class [Blockquote], html.py:420-428. *)
Definition Blockquote : pyclass := Tag [("cite", Str)] ["cite"].

Definition example_obj (k : pyclass) (id : string) (p : option ref)
  (cs : list ref) (active : bool) : obj :=
  Obj k {[ "id" := VStr id; "text" := VStr "" ]} p cs active active.

(** An active document [D] (object 1) with the children [A] (2), a pattern
    node (3) and [B] (4); a fresh tag [C] (5) without a parent; and a tag
    [E] (6) with the child [F] (7), active but under no document. *)
Definition example_heap : gmap ref obj :=
  <[1 := example_obj Html "D" None [2; 3; 4] true]>
  (<[2 := example_obj (Tag [] []) "A" (Some 1) [] true]>
  (<[3 := Obj Object ∅ (Some 1) [] false false]>
  (<[4 := example_obj Blockquote "B" (Some 1) [] true]>
  (<[5 := example_obj (Tag [] []) "C" None [] false]>
  (<[6 := example_obj (Tag [] []) "E" None [7] true]>
  (<[7 := example_obj (Tag [] []) "F" (Some 6) [] true]> ∅)))))).

Definition example_world : world := World example_heap [].

(** The same document before [prepare]: nothing is active. *)
Definition inactive_heap : gmap ref obj :=
  <[1 := example_obj Html "D" None [2; 4] false]>
  (<[2 := example_obj (Tag [] []) "A" (Some 1) [] false]>
  (<[4 := example_obj (Tag [] []) "B" (Some 1) [] false]>
  (<[5 := example_obj (Tag [] []) "C" None [] false]> ∅))).

Definition inactive_world : world := World inactive_heap [].

(** The same document initialized, its proxies not yet active; [C] is
    fresh. *)
Definition initialized_heap : gmap ref obj :=
  <[1 := Obj Html {[ "id" := VStr "D" ]} None [2; 4] true false]>
  (<[2 := Obj (Tag [] []) {[ "id" := VStr "A" ]} (Some 1) [] true false]>
  (<[4 := Obj (Tag [] []) {[ "id" := VStr "B" ]} (Some 1) [] true false]>
  (<[5 := example_obj (Tag [] []) "C" None [] false]> ∅))).

Definition initialized_world : world := World initialized_heap [].

(** An active document with one tag that holds a value of [clickable]. *)
Definition switch_heap : gmap ref obj :=
  <[1 := example_obj Html "D" None [2] true]>
  (<[2 := Obj (Tag [] []) {[ "id" := VStr "S"; "clickable" := VBool false ]}
            (Some 1) [] true true]> ∅).

Definition switch_world : world := World switch_heap [].

(** The document [D] with the tags [A] and [B] only, all active, and the
    fresh tag [C]. *)
Definition tags_heap : gmap ref obj :=
  <[1 := example_obj Html "D" None [2; 4] true]>
  (<[2 := example_obj (Tag [] []) "A" (Some 1) [] true]>
  (<[4 := example_obj (Tag [] []) "B" (Some 1) [] true]>
  (<[5 := example_obj (Tag [] []) "C" None [] false]> ∅))).

Definition tags_world : world := World tags_heap [].

(** ** The rest of the modelled files *)

(** [clip], tests/bench_apps.py:283-286.  [n] is a Python int, so it may be
    negative, and [s[:n]] then drops the last [-n] elements. *)
Definition py_slice_to {A} (s : list A) (n : Z) : list A :=
  if (0 <=? n)%Z then take (Z.to_nat n) s
  else take (length s - Z.to_nat (- n)) s.

Definition clip {A} (s : list A) (n : Z) : list A :=
  if (Z.of_nat (length s) <=? n)%Z then s else py_slice_to s n.

(** Python's [int(s, 16)] on the strings that ['%0x'] prints. *)
Definition int16 (s : string) : option nat :=
  (λ d, N.to_nat (N.of_hex_uint d))
    <$> HexadecimalString.NilZero.uint_of_string s.

(** The subclasses of [Tag] that give [name] a default (html.py:720-807),
    with the members they declare and the names their [@observe] adds.  [Button] observes [type] only,
    although it declares [name] and [value] too. *)
Definition Select : pyclass :=
  Tag [("name", Str); ("value", Str)] ["name"; "value"].
Definition Textarea : pyclass :=
  Tag [("name", Str); ("rows", Str); ("cols", Str)] ["name"; "rows"; "cols"].



(** The object after the keyword arguments of [prepare] were stored. *)
Definition apply_kwargs (kwargs : list (string * value)) (o : obj) : obj :=
  foldl (λ o kv, set_slot kv.1 kv.2 o) o kwargs.

(** A keyword argument whose value the attribute holds, as it was given or
    as the member's validator returns it. *)
Definition settled (o : obj) (kv : string * value) : Prop :=
  slots o !! kv.1 = Some kv.2 ∨
  ∃ m v', member_of (class_of o) kv.1 = Some m ∧
          validate m kv.2 = inr v' ∧ slots o !! kv.1 = Some v'.


(** A record of a change among the children of the tag whose id is [i]. *)
Definition children_record (i : value) (change : dict) : Prop :=
  change !! "id" = Some i ∧ change !! "name" = Some (VStr "children") ∧
  ∃ t, change !! "type" = Some (VStr t) ∧ t ∈ ["added"; "moved"; "removed"].

(** The example document once [C] has been linked as the last child of [D]
    and before the hook of [D] has run for it. *)
Definition adopted_heap : gmap ref obj :=
  <[1 := example_obj Html "D" None [2; 3; 4; 5] true]>
  (<[5 := example_obj (Tag [] []) "C" (Some 1) [] false]> example_heap).

Definition adopted_world : world := World adopted_heap [].



(** * Lemmas *)

Set Warnings "-clear-no-such-hyp".

Section RootObject.
Context {proxy : ProxyTag}.

Lemma update_proxy_guard self change t w :
  change !! "type" = Some t → t ≠ VStr "update" →
  _update_proxy self change w = Ok tt w.
Proof.
  intros Ht Hne. unfold _update_proxy, getitem, bind. rewrite Ht. cbn.
  rewrite bool_decide_eq_false_2 by done. done.
Qed.

Lemma parent_chain_fuel h r l root fuel :
  parent_chain h r l root → length l ≤ fuel →
  root_object_loop fuel h r = inr root.
Proof.
  intros Hc. revert fuel. induction Hc as [r o Ho Hp|r o p l root Ho Hp Hc IH]; intros fuel Hf.
  - destruct fuel; simpl; rewrite Ho, Hp; done.
  - destruct fuel as [|fuel]; simpl in Hf; [lia|].
    simpl. rewrite Ho, Hp. apply IH. lia.
Qed.

Lemma parent_chain_det h r l1 l2 root1 root2 :
  parent_chain h r l1 root1 → parent_chain h r l2 root2 → l1 = l2 ∧ root1 = root2.
Proof.
  intros H1. revert l2 root2. induction H1; intros l2 root2 H2; inversion H2; simplify_eq; try done.
  destruct (IHparent_chain _ _ H5) as [-> ->]. done.
Qed.

Lemma parent_chain_suffix h r l1 x l2 root :
  parent_chain h r (l1 ++ x :: l2) root → parent_chain h x (x :: l2) root.
Proof.
  revert r. induction l1 as [|y l1 IH]; intros r H; simpl in H.
  - inversion H; simplify_eq. econstructor; eauto.
  - inversion H; simplify_eq. eauto.
Qed.

Lemma parent_chain_NoDup h r l root : parent_chain h r l root → NoDup l.
Proof.
  induction 1 as [|r o p l root Ho Hp Hc IH]; [constructor|].
  constructor; [|done].
  intros Hin. apply list_elem_of_split in Hin as (l1 & l2 & ->).
  pose proof (parent_chain_suffix _ _ _ _ _ _ Hc) as Hs.
  assert (Hfull : parent_chain h r (r :: l1 ++ r :: l2) root) by (econstructor; eauto).
  destruct (parent_chain_det _ _ _ _ _ _ Hs Hfull) as [Heq _].
  apply (f_equal length) in Heq. simpl in Heq. rewrite length_app in Heq. simpl in Heq. lia.
Qed.

Lemma parent_chain_dom h r l root x : parent_chain h r l root → x ∈ l → x ∈ dom h.
Proof.
  induction 1 as [|r o p l root Ho Hp Hc IH]; intros Hin.
  - by apply elem_of_nil in Hin.
  - apply elem_of_cons in Hin as [->|Hin]; [|auto].
    apply elem_of_dom. eauto.
Qed.

Lemma parent_chain_length h r l root : parent_chain h r l root → length l ≤ size h.
Proof.
  intros Hc. rewrite <- size_dom.
  rewrite <- (size_list_to_set (C:=gset ref) l) by (eapply parent_chain_NoDup; eauto).
  apply subseteq_size. intros x Hx. apply elem_of_list_to_set in Hx.
  eapply parent_chain_dom; eauto.
Qed.

Lemma root_object_loop_complete h r l root :
  parent_chain h r l root → root_object_loop (size h) h r = inr root.
Proof. intros Hc. eapply parent_chain_fuel; eauto. eapply parent_chain_length; eauto. Qed.

End RootObject.

Section Evaluation.
Context {proxy : ProxyTag}.

Lemma bind_ret {A B} (a : A) (k : A → M B) w : bind (ret a) k w = k a w.
Proof. done. Qed.

Lemma bind_assoc {A B C} (m : M A) (k1 : A → M B) (k2 : B → M C) w :
  bind (bind m k1) k2 w = bind m (λ a, bind (k1 a) k2) w.
Proof. unfold bind. by destruct (m w). Qed.

Lemma bind_lookup_obj {B} r (k : obj → M B) h tr o :
  h !! r = Some o → bind (lookup_obj r) k (World h tr) = k o (World h tr).
Proof. intros H. unfold bind, lookup_obj. simpl. by rewrite H. Qed.

Lemma bind_modify_obj {B} r f (k : unit → M B) h tr o :
  h !! r = Some o →
  bind (modify_obj r f) k (World h tr) = k tt (World (alter f r h) tr).
Proof. intros H. unfold bind, modify_obj. simpl. by rewrite H. Qed.

Lemma bind_emit {B} e (k : unit → M B) h tr :
  bind (emit e) k (World h tr) = k tt (World h (tr ++ [e])).
Proof. done. Qed.

Lemma bind_get_trace {B} (k : list effect → M B) h tr :
  bind get_trace k (World h tr) = k tr (World h tr).
Proof. done. Qed.

Lemma fill_id_obj_id_value r o : id_value r (fill_id_obj r o) = id_value r o.
Proof.
  unfold id_value, fill_id_obj. destruct (slots o !! "id") eqn:E; simpl; [by rewrite E|].
  by rewrite lookup_insert_eq.
Qed.

Lemma bind_getattr_id {B} r (k : value → M B) h tr o :
  h !! r = Some o →
  bind (getattr_id r) k (World h tr) = k (id_value r o) (World (fill_id r h) tr).
Proof.
  intros H. unfold getattr_id. rewrite bind_assoc, (bind_lookup_obj _ _ _ _ _ H).
  unfold id_value, fill_id. destruct (slots o !! "id") eqn:E; simpl.
  - rewrite bind_ret. f_equal. f_equal. symmetry. apply alter_id.
    intros x Hx. simplify_eq. unfold fill_id_obj. by rewrite E.
  - rewrite bind_assoc, (bind_modify_obj _ _ _ _ _ _ H), bind_ret.
    f_equal. f_equal. apply alter_ext. intros x Hx. simplify_eq.
    unfold fill_id_obj. by rewrite E.
Qed.

(** *** Heaps that differ by raised flags and filled ids only *)

Lemma steady_refl h : steady h h.
Proof. intros r. destruct (h !! r); naive_solver. Qed.

Lemma steady_trans h1 h2 h3 : steady h1 h2 → steady h2 h3 → steady h1 h3.
Proof.
  intros H12 H23 r. specialize (H12 r). specialize (H23 r).
  destruct (h1 !! r), (h2 !! r), (h3 !! r); try done.
  destruct H12 as (?&?&?&?&Ha), H23 as (?&?&?&?&Hb).
  repeat split; try congruence. auto.
Qed.

Lemma steady_alter x f h :
  (∀ o, class_of (f o) = class_of o ∧ parent (f o) = parent o ∧
        children (f o) = children o ∧ id_value x (f o) = id_value x o ∧
        (proxy_is_active o = true → proxy_is_active (f o) = true)) →
  steady h (alter f x h).
Proof.
  intros Hf r. destruct (decide (x = r)) as [->|Hne].
  - rewrite lookup_alter_eq. destruct (h !! r) as [o|]; simpl; [|done].
    destruct (Hf o) as (?&?&?&?&?). done.
  - rewrite lookup_alter_ne by done. destruct (h !! r); naive_solver.
Qed.

Lemma steady_fill_id x h : steady h (fill_id x h).
Proof.
  apply steady_alter. intros o. rewrite fill_id_obj_id_value.
  unfold fill_id_obj. destruct (slots o !! "id"); done.
Qed.

Lemma steady_fill_anchor a h : steady h (fill_anchor a h).
Proof. destruct a; [apply steady_fill_id|apply steady_refl]. Qed.

Lemma steady_mark f l h :
  (∀ o, class_of (f o) = class_of o ∧ parent (f o) = parent o ∧
        children (f o) = children o ∧ slots (f o) = slots o ∧
        (proxy_is_active o = true → proxy_is_active (f o) = true)) →
  steady h (mark f l h).
Proof.
  intros Hf. induction l as [|x l IH]; simpl; [apply steady_refl|].
  eapply steady_trans; [exact IH|]. apply steady_alter. intros o.
  destruct (Hf o) as (?&?&?&Hsl&?). unfold id_value. rewrite Hsl. done.
Qed.

Lemma steady_initialize_tree r h : steady h (initialize_tree r h).
Proof. apply steady_mark. intros o. repeat split; done. Qed.

Lemma steady_activate_tree r h : steady h (activate_tree r h).
Proof. apply steady_mark. intros o. repeat split; done. Qed.

Lemma steady_added_heap c child h : steady h (added_heap c child h).
Proof.
  unfold added_heap. destruct (is_initialized c), (proxy_is_active c);
    first [ apply steady_refl | apply steady_initialize_tree
          | apply steady_activate_tree
          | eapply steady_trans;
              [apply steady_initialize_tree|apply steady_activate_tree] ].
Qed.

(** An object of the marked list is changed by [f] and by nothing else. *)
Lemma lookup_mark f l h x o :
  (∀ o, f (f o) = f o) → h !! x = Some o →
  mark f l h !! x = Some (if bool_decide (x ∈ l) then f o else o).
Proof.
  intros Hf Ho. induction l as [|y l IH]; simpl; [done|].
  destruct (decide (y = x)) as [->|Hne].
  - rewrite lookup_alter_eq, IH. simpl.
    rewrite (bool_decide_eq_true_2 (x ∈ x :: l)) by set_solver.
    by destruct (bool_decide (x ∈ l)); rewrite ?Hf.
  - rewrite lookup_alter_ne by done. rewrite IH.
    destruct (bool_decide (x ∈ l)) eqn:E.
    + apply bool_decide_eq_true in E.
      by rewrite bool_decide_eq_true_2 by set_solver.
    + apply bool_decide_eq_false in E.
      by rewrite bool_decide_eq_false_2 by set_solver.
Qed.

Lemma elem_of_tree h r : r ∈ tree h r.
Proof. unfold tree. destruct (size h); simpl; set_solver. Qed.

Lemma lookup_initialize_tree r h o :
  h !! r = Some o →
  initialize_tree r h !! r = Some (set_is_initialized true o).
Proof.
  intros Ho. unfold initialize_tree.
  rewrite (lookup_mark _ _ _ _ o) by (done || by intros []).
  by rewrite bool_decide_eq_true_2 by apply elem_of_tree.
Qed.

Lemma lookup_activate_tree r h o :
  h !! r = Some o →
  activate_tree r h !! r = Some (set_proxy_is_active true o).
Proof.
  intros Ho. unfold activate_tree.
  rewrite (lookup_mark _ _ _ _ o) by (done || by intros []).
  by rewrite bool_decide_eq_true_2 by apply elem_of_tree.
Qed.

(** The object that was added, after the walks over its tree. *)
Lemma lookup_added_heap c child h :
  h !! child = Some c → added_heap c child h !! child = Some (activate_obj c).
Proof.
  intros Hc. unfold added_heap.
  destruct (is_initialized c) eqn:Hi, (proxy_is_active c) eqn:Ha.
  - rewrite Hc. f_equal. destruct c; simpl in *; by subst.
  - rewrite (lookup_activate_tree _ _ _ Hc). f_equal.
    destruct c; simpl in *; by subst.
  - rewrite (lookup_initialize_tree _ _ _ Hc). f_equal.
    destruct c; simpl in *; by subst.
  - rewrite (lookup_activate_tree _ _ _ (lookup_initialize_tree _ _ _ Hc)).
    done.
Qed.

Lemma steady_lookup h h' r o :
  steady h h' → h !! r = Some o →
  ∃ o', h' !! r = Some o' ∧ class_of o' = class_of o ∧ parent o' = parent o ∧
        children o' = children o ∧ id_value r o' = id_value r o ∧
        (proxy_is_active o = true → proxy_is_active o' = true).
Proof.
  intros Hs Hr. specialize (Hs r). rewrite Hr in Hs.
  destruct (h' !! r) as [o'|]; [|done]. eauto.
Qed.

Lemma steady_is_Some h h' r : steady h h' → is_Some (h !! r) → is_Some (h' !! r).
Proof. intros Hs [o Ho]. destruct (steady_lookup _ _ _ _ Hs Ho) as (o'&?&_). eauto. Qed.

Lemma steady_is_tag h h' r : steady h h' → is_tag h' r = is_tag h r.
Proof.
  intros Hs. specialize (Hs r). unfold is_tag.
  destruct (h !! r), (h' !! r); try done. by destruct Hs as (->&_).
Qed.

Lemma steady_id_of h h' r : steady h h' → id_of h' r = id_of h r.
Proof.
  intros Hs. specialize (Hs r). unfold id_of.
  destruct (h !! r), (h' !! r); try done. by destruct Hs as (_&_&_&->&_).
Qed.

Lemma steady_first_tag h h' l : steady h h' → first_tag h' l = first_tag h l.
Proof.
  intros Hs. induction l as [|x l IH]; simpl; [done|].
  by rewrite (steady_is_tag _ _ _ Hs), IH.
Qed.

Lemma steady_size h h' : steady h h' → size h' = size h.
Proof.
  intros Hs. rewrite <- !size_dom. f_equal. apply set_eq. intros r.
  rewrite !elem_of_dom. specialize (Hs r).
  destruct (h !! r), (h' !! r); try done; split; intros [? ?]; done.
Qed.

Lemma steady_parent_chain h h' r l root :
  steady h h' → parent_chain h r l root → parent_chain h' r l root.
Proof.
  intros Hs. induction 1 as [r o Ho Hp|r o p l root Ho Hp Hc IH].
  - destruct (steady_lookup _ _ _ _ Hs Ho) as (o'&Ho'&_&Hp'&_).
    eapply chain_root; eauto. congruence.
  - destruct (steady_lookup _ _ _ _ Hs Ho) as (o'&Ho'&_&Hp'&_).
    eapply chain_step; eauto. congruence.
Qed.

(** *** The relay *)

Lemma notify_modified_eq self change h tr l root r :
  parent_chain h self l root → h !! root = Some r →
  _notify_modified self change (World h tr) =
  Ok tt (World h (tr ++ delivery r root change)).
Proof.
  intros Hc Hr. unfold _notify_modified, delivery.
  unfold bind at 1. unfold root_object. simpl.
  rewrite (root_object_loop_complete _ _ _ _ Hc).
  rewrite (bind_lookup_obj _ _ _ _ _ Hr).
  destruct (isinstance_Html (class_of r)); [done|].
  by rewrite app_nil_r.
Qed.

(** Whatever the tree, the relay leaves the heap alone and adds at most
    the one record it was given. *)
Lemma notify_modified_outcome self change h tr :
  ∃ tr', world_of (_notify_modified self change (World h tr)) = World h tr' ∧
         (tr' = tr ∨ ∃ root, tr' = tr ++ [Modified root change]).
Proof.
  unfold _notify_modified, bind, root_object, lookup_obj, emit. simpl.
  destruct (root_object_loop _ _ _) as [e|root]; simpl; [eauto|].
  destruct (h !! root) as [r|]; simpl; [|eauto].
  destruct (isinstance_Html _); simpl; eauto.
Qed.

(** *** The loop that looks for the anchor *)

Lemma while_before_eq rest change h tr :
  Forall (λ x, is_Some (h !! x)) rest →
  while_before rest change (World h tr) =
  Ok (with_before (id_of h <$> first_tag h rest) change)
     (World (fill_anchor (first_tag h rest) h) tr).
Proof.
  induction 1 as [|x rest [o Ho] Hall IH]; simpl; [done|].
  rewrite (bind_lookup_obj _ _ _ _ _ Ho). unfold is_tag. rewrite Ho.
  destruct (isinstance_Tag (class_of o)); [|done].
  rewrite (bind_getattr_id _ _ _ _ _ Ho). simpl. unfold id_of. by rewrite Ho.
Qed.

Lemma list_index_following cs child :
  child ∈ cs → ∃ i, list_index cs child = Some i ∧ drop (i + 1) cs = following child cs.
Proof.
  induction cs as [|x cs IH]; intros Hin; [by apply elem_of_nil in Hin|].
  simpl. destruct (decide (x = child)) as [->|Hne].
  - exists 0. done.
  - apply elem_of_cons in Hin as [->|Hin]; [done|].
    destruct (IH Hin) as (i & -> & Hd). exists (S i). done.
Qed.

End Evaluation.

Section Tree.

Lemma tree_loop_path fuel h r l x :
  tree_path h r l x → length l ≤ fuel → x ∈ tree_loop fuel h r.
Proof.
  intros Hp. revert fuel.
  induction Hp as [r|r o c l x Ho Hc Htag Hp IH]; intros fuel Hlen.
  - destruct fuel; simpl; set_solver.
  - destruct fuel as [|fuel]; simpl in *; [lia|].
    rewrite Ho. apply elem_of_cons. right.
    apply list_elem_of_bind. exists c. split; [|done].
    rewrite Htag. apply IH. lia.
Qed.

Lemma tree_path_dom h r l x y : tree_path h r l x → y ∈ l → y ∈ dom h.
Proof.
  induction 1 as [r|r o c l x Ho Hc Htag Hp IH]; intros Hin.
  - by apply elem_of_nil in Hin.
  - apply elem_of_cons in Hin as [->|Hin]; [|auto].
    apply elem_of_dom. unfold is_tag in Htag.
    destruct (h !! c); [done|discriminate].
Qed.

(** The heap's size is fuel enough: an object below [r] is visited when no
    tag lies twice on the way to it. *)
Lemma tree_complete h r l x :
  tree_path h r l x → NoDup (r :: l) → x ∈ tree h r.
Proof.
  intros Hp Hnd. unfold tree. apply (tree_loop_path _ _ _ l); [done|].
  destruct Hp as [r|r o c l x Ho Hc Htag Hp]; [simpl; lia|].
  assert (Hlen : length (r :: c :: l) ≤ size h); [|simpl in *; lia].
  rewrite <- size_dom.
  rewrite <- (size_list_to_set (C:=gset ref) (r :: c :: l)) by done.
  apply subseteq_size. intros y Hy. apply elem_of_list_to_set in Hy.
  apply elem_of_cons in Hy as [->|Hy].
  - apply elem_of_dom. eauto.
  - eapply (tree_path_dom h r (c :: l) x); [|done]. econstructor; eauto.
Qed.

(** After [activate_proxy] every object that was visited is active. *)
Lemma activate_tree_active h r x o :
  x ∈ tree h r → h !! x = Some o →
  activate_tree r h !! x = Some (set_proxy_is_active true o).
Proof.
  intros Hx Ho. unfold activate_tree.
  rewrite (lookup_mark _ _ _ _ o) by (done || by intros []).
  by rewrite bool_decide_eq_true_2.
Qed.

End Tree.

Ltac mnorm :=
  repeat first
    [ rewrite bind_assoc | rewrite bind_ret | rewrite bind_emit
    | rewrite bind_get_trace | progress cbv beta ].

Section ChildAdded.
Context {proxy : ProxyTag}.

Lemma bind_initialize {B} r (k : unit → M B) h tr o :
  h !! r = Some o →
  bind (initialize r) k (World h tr)
  = k tt (World (initialize_tree r h) (tr ++ [Initialize r])).
Proof.
  intros Ho. unfold initialize.
  rewrite !bind_assoc, (bind_lookup_obj _ _ _ _ _ Ho). done.
Qed.

Lemma bind_activate_proxy {B} r (k : unit → M B) h tr o :
  h !! r = Some o →
  bind (activate_proxy r) k (World h tr)
  = k tt (World (activate_tree r h) (tr ++ [ActivateProxy r])).
Proof.
  intros Ho. unfold activate_proxy.
  rewrite !bind_assoc, (bind_lookup_obj _ _ _ _ _ Ho). done.
Qed.

Lemma ToolkitObject_child_added_eq {B} self child (k : unit → M B) h tr s c :
  h !! self = Some s → proxy_is_active s = true →
  h !! child = Some c → isinstance_Tag (class_of c) = true →
  bind (ToolkitObject_child_added self child) k (World h tr) =
  k tt (World (added_heap c child h) (tr ++ added_prelude c self child)).
Proof.
  intros Hs Hact Hc Htag.
  unfold ToolkitObject_child_added, isinstance_ToolkitObject.
  rewrite bind_assoc, (bind_lookup_obj _ _ _ _ _ Hc), Htag.
  rewrite bind_assoc, (bind_lookup_obj _ _ _ _ _ Hs), Hact.
  unfold added_prelude, added_heap, when.
  destruct (is_initialized c) eqn:Hi; simpl.
  - rewrite !bind_assoc, bind_ret, bind_assoc.
    rewrite (bind_lookup_obj _ _ _ _ _ Hc).
    destruct (proxy_is_active c) eqn:Ha; simpl.
    + by rewrite bind_assoc, bind_ret, bind_emit.
    + rewrite bind_assoc, (bind_activate_proxy _ _ _ _ _ Hc), bind_emit.
      by rewrite <- app_assoc.
  - rewrite !bind_assoc, (bind_initialize _ _ _ _ _ Hc), bind_assoc.
    rewrite (bind_lookup_obj _ _ _ _ _ (lookup_initialize_tree _ _ _ Hc)).
    simpl. destruct (proxy_is_active c) eqn:Ha; simpl.
    + rewrite bind_assoc, bind_ret, bind_emit. by rewrite <- app_assoc.
    + rewrite bind_assoc.
      rewrite (bind_activate_proxy _ _ _ _ _
                 (lookup_initialize_tree _ _ _ Hc)), bind_emit.
      by rewrite <- !app_assoc.
Qed.

(** Under a parent that is not active the child is initialized when the
    parent is, and nothing else happens. *)
Lemma ToolkitObject_child_added_inactive self child h tr s c :
  h !! self = Some s → proxy_is_active s = false →
  h !! child = Some c → isinstance_Tag (class_of c) = true →
  ToolkitObject_child_added self child (World h tr) =
  if is_initialized s && negb (is_initialized c)
  then Ok tt (World (initialize_tree child h) (tr ++ [Initialize child]))
  else Ok tt (World h tr).
Proof.
  intros Hs Hact Hc Htag.
  unfold ToolkitObject_child_added, isinstance_ToolkitObject.
  rewrite (bind_lookup_obj _ _ _ _ _ Hc), Htag.
  rewrite (bind_lookup_obj _ _ _ _ _ Hs), Hact.
  destruct (is_initialized s && negb (is_initialized c)); simpl; [|done].
  pose proof (bind_initialize child ret h tr c Hc) as H.
  unfold bind in H at 1. unfold ret in H.
  by destruct (initialize child (World h tr)).
Qed.

Lemma prepare_noop_eq {B} self (k : unit → M B) h tr s :
  h !! self = Some s → is_initialized s = true → proxy_is_active s = true →
  bind (prepare self []) k (World h tr) = k tt (World h tr).
Proof.
  intros Hs Hi Ha. unfold prepare, for_each.
  mnorm. rewrite (bind_lookup_obj _ _ _ _ _ Hs), Hi.
  unfold when, negb. mnorm.
  rewrite (bind_lookup_obj _ _ _ _ _ Hs), Ha. done.
Qed.

Lemma lookup_fill_id_ne x r h : x ≠ r → fill_id x h !! r = h !! r.
Proof. intros. unfold fill_id. by rewrite lookup_alter_ne. Qed.

Lemma Forall_following (P : ref → Prop) child cs :
  Forall P cs → Forall P (following child cs).
Proof.
  induction 1 as [|y l Hy Hl IH]; simpl; [constructor|].
  destruct (decide (y = child)); done.
Qed.

Lemma child_added_eq self child h tr s c :
  h !! self = Some s → proxy_is_active s = true →
  h !! child = Some c → isinstance_Tag (class_of c) = true →
  child ≠ self → child ∈ children s →
  Forall (λ x, is_Some (h !! x)) (children s) →
  let tr1 := tr ++ added_prelude c self child in
  let h1 := fill_id self (added_heap c child h) in
  let a := anchor h (children s) child in
  child_added self child (World h tr) =
  match proxy_render tr1 child with
  | None => Raise NotImplementedError (World h1 tr1)
  | Some markup =>
      _notify_modified self
        (record (id_value self s) "added" (VStr markup) (id_of h <$> a))
        (World (fill_anchor a h1) (tr1 ++ [ProxyRender child markup]))
  end.
Proof.
  intros Hs Hact Hc Htag Hne Hin Hall tr1 h1 a.
  assert (Hst : steady h h1).
  { eapply steady_trans; [apply steady_added_heap|apply steady_fill_id]. }
  unfold child_added.
  rewrite (ToolkitObject_child_added_eq _ _ _ _ _ _ _ Hs Hact Hc Htag).
  fold tr1.
  pose proof (lookup_added_heap _ _ _ Hc) as Hc1.
  destruct (steady_lookup _ _ _ _ (steady_added_heap c child h) Hs)
    as (s1 & Hs1 & _ & _ & _ & Hid1 & Hact1).
  rewrite (bind_lookup_obj _ _ _ _ _ Hc1). simpl. rewrite Htag.
  rewrite (bind_lookup_obj _ _ _ _ _ Hs1), (Hact1 Hact).
  rewrite (bind_getattr_id _ _ _ _ _ Hs1), Hid1. fold h1.
  assert (Hc2 : h1 !! child = Some (activate_obj c))
    by (unfold h1; by rewrite lookup_fill_id_ne).
  unfold render. mnorm.
  rewrite (prepare_noop_eq _ _ _ _ _ Hc2) by done.
  unfold call_proxy_render. mnorm.
  destruct (proxy_render tr1 child) as [markup|]; [|done].
  mnorm.
  destruct (steady_lookup _ _ _ _ Hst Hs) as (s2 & Hs2 & _ & _ & Hcs & _).
  rewrite (bind_lookup_obj _ _ _ _ _ Hs2). rewrite Hcs.
  destruct (list_index_following _ _ Hin) as (i & Hi & Hd).
  unfold index. rewrite Hi. mnorm. rewrite Hd.
  unfold bind at 1. rewrite while_before_eq.
  2:{ eapply Forall_impl; [apply Forall_following, Hall|].
      intros x. apply (steady_is_Some _ _ _ Hst). }
  unfold a, anchor. rewrite (steady_first_tag _ _ _ Hst).
  unfold record.
  destruct (first_tag h (following child (children s))); simpl; [|done].
  by rewrite (steady_id_of _ _ _ Hst).
Qed.

End ChildAdded.

Section Hooks.
Context {proxy : ProxyTag}.

Lemma child_moved_eq self child h tr s c :
  h !! self = Some s → proxy_is_active s = true →
  h !! child = Some c → isinstance_Tag (class_of c) = true →
  child ∈ children s →
  Forall (λ x, is_Some (h !! x)) (children s) →
  let ok := proxy_child_moved tr self child in
  let tr1 := tr ++ [ProxyChildMoved self child ok] in
  let a := anchor h (children s) child in
  child_moved self child (World h tr) =
  if ok then
    _notify_modified self
      (record (id_value self s) "moved" (id_value child c) (id_of h <$> a))
      (World (fill_anchor a (fill_id child (fill_id self h))) tr1)
  else Ok tt (World h tr1).
Proof.
  intros Hs Hact Hc Htag Hin Hall ok tr1 a.
  unfold child_moved, Object_child_moved. mnorm.
  rewrite (bind_lookup_obj _ _ _ _ _ Hc), Htag.
  rewrite (bind_lookup_obj _ _ _ _ _ Hs), Hact.
  unfold call_proxy_child_moved. mnorm. fold ok. fold tr1.
  destruct ok; [|done].
  set (h1 := fill_id self h). set (h2 := fill_id child h1).
  assert (Hst1 : steady h h1) by apply steady_fill_id.
  assert (Hst2 : steady h h2).
  { eapply steady_trans; [exact Hst1|apply steady_fill_id]. }
  rewrite (bind_getattr_id _ _ _ _ _ Hs). fold h1.
  destruct (steady_lookup _ _ _ _ Hst1 Hc) as (c1 & Hc1 & _ & _ & _ & Hid & _).
  rewrite (bind_getattr_id _ _ _ _ _ Hc1), Hid. fold h2.
  destruct (steady_lookup _ _ _ _ Hst2 Hs) as (s2 & Hs2 & _ & _ & Hcs & _).
  rewrite (bind_lookup_obj _ _ _ _ _ Hs2), Hcs.
  destruct (list_index_following _ _ Hin) as (i & Hi & Hd).
  unfold index. rewrite Hi. mnorm. rewrite Hd.
  unfold bind at 1. rewrite while_before_eq.
  2:{ eapply Forall_impl; [apply Forall_following, Hall|].
      intros x. apply (steady_is_Some _ _ _ Hst2). }
  unfold a, anchor. rewrite (steady_first_tag _ _ _ Hst2).
  unfold record.
  destruct (first_tag h (following child (children s))); simpl; [|done].
  by rewrite (steady_id_of _ _ _ Hst2).
Qed.

Lemma child_removed_eq self child h tr s c :
  h !! self = Some s → proxy_is_active s = true →
  h !! child = Some c → isinstance_Tag (class_of c) = true →
  child_removed self child (World h tr) =
  _notify_modified self
    (record (id_value self s) "removed" (id_value child c) None)
    (World (fill_id child (fill_id self h))
           (tr ++ [ProxyChildRemoved self child])).
Proof.
  intros Hs Hact Hc Htag.
  unfold child_removed, ToolkitObject_child_removed, isinstance_ToolkitObject. mnorm.
  rewrite (bind_lookup_obj _ _ _ _ _ Hc), Htag. mnorm.
  rewrite (bind_lookup_obj _ _ _ _ _ Hs), Hact. mnorm.
  rewrite (bind_lookup_obj _ _ _ _ _ Hc), Htag.
  rewrite (bind_lookup_obj _ _ _ _ _ Hs), Hact.
  rewrite (bind_getattr_id _ _ _ _ _ Hs).
  destruct (steady_lookup _ _ _ _ (steady_fill_id self h) Hc)
    as (c1 & Hc1 & _ & _ & _ & Hid & _).
  by rewrite (bind_getattr_id _ _ _ _ _ Hc1), Hid.
Qed.

(** A hook of an inactive parent does nothing, but that [child_added]
    initializes a tag added under an initialized parent; a hook for a child
    that is no [Tag] does nothing at all. *)
Lemma hooks_inactive self child w s c :
  heap w !! self = Some s → proxy_is_active s = false →
  heap w !! child = Some c →
  child_added self child w =
    (if isinstance_Tag (class_of c) && is_initialized s
        && negb (is_initialized c)
     then Ok tt (World (initialize_tree child (heap w))
                   (trace w ++ [Initialize child]))
     else Ok tt w) ∧
  child_moved self child w = Ok tt w ∧
  child_removed self child w = Ok tt w.
Proof.
  destruct w as [h tr]. simpl. intros Hs Hact Hc. split.
  - unfold child_added.
    destruct (isinstance_Tag (class_of c)) eqn:Htag; simpl.
    + unfold bind at 1.
      rewrite (ToolkitObject_child_added_inactive _ _ _ _ _ _ Hs Hact Hc Htag).
      destruct (is_initialized s && negb (is_initialized c)).
      * rewrite (bind_lookup_obj _ _ _ _ _ (lookup_initialize_tree _ _ _ Hc)).
        simpl. rewrite Htag.
        assert (∃ s1, initialize_tree child h !! self = Some s1 ∧
                      proxy_is_active s1 = false) as (s1 & Hs1 & Ha1).
        { unfold initialize_tree.
          rewrite (lookup_mark _ _ _ _ s) by (done || by intros []).
          eexists. split; [done|]. by destruct (bool_decide _). }
        by rewrite (bind_lookup_obj _ _ _ _ _ Hs1), Ha1.
      * rewrite (bind_lookup_obj _ _ _ _ _ Hc), Htag.
        by rewrite (bind_lookup_obj _ _ _ _ _ Hs), Hact.
    + unfold ToolkitObject_child_added, isinstance_ToolkitObject. mnorm.
      rewrite (bind_lookup_obj _ _ _ _ _ Hc), Htag. mnorm.
      by rewrite (bind_lookup_obj _ _ _ _ _ Hc), Htag.
  - unfold child_moved, child_removed, Object_child_moved,
      ToolkitObject_child_removed, isinstance_ToolkitObject.
    destruct (isinstance_Tag (class_of c)) eqn:Htag;
      repeat split; mnorm;
      repeat first
        [ rewrite (bind_lookup_obj _ _ _ _ _ Hc)
        | rewrite (bind_lookup_obj _ _ _ _ _ Hs)
        | rewrite Hact
        | rewrite Htag
        | progress mnorm ];
      done.
Qed.

Lemma hooks_non_tag self child w c :
  heap w !! child = Some c → isinstance_Tag (class_of c) = false →
  child_added self child w = Ok tt w ∧
  child_moved self child w = Ok tt w ∧
  child_removed self child w = Ok tt w.
Proof.
  destruct w as [h tr]. simpl. intros Hc Htag.
  unfold child_added, child_moved, child_removed, Object_child_moved,
    ToolkitObject_child_added, ToolkitObject_child_removed,
    isinstance_ToolkitObject.
  repeat split; mnorm;
    repeat first
      [ rewrite (bind_lookup_obj _ _ _ _ _ Hc)
      | rewrite Htag
      | progress mnorm ];
    done.
Qed.

Lemma update_proxy_eq self change h tr s n v :
  h !! self = Some s → proxy_is_active s = true →
  change !! "type" = Some (VStr "update") →
  change !! "name" = Some (VStr n) →
  change !! "value" = Some v →
  _update_proxy self change (World h tr) =
  _notify_modified self
    {[ "id" := id_value self s; "type" := VStr "update";
       "name" := VStr n; "value" := v ]}
    (World (fill_id self h)
           (tr ++ [if has_setter self n then ProxySet self n v
                   else ProxySetAttribute self n v])).
Proof.
  intros Hs Hact Ht Hn Hv. unfold _update_proxy, getitem.
  rewrite Ht, Hn, Hv. mnorm. rewrite bool_decide_eq_true_2 by done.
  rewrite (bind_lookup_obj _ _ _ _ _ Hs), Hact. mnorm.
  destruct (has_setter self n); mnorm;
    by rewrite (bind_getattr_id _ _ _ _ _ Hs).
Qed.

End Hooks.


Section Assignment.
Context {proxy : ProxyTag}.

Lemma update_proxy_inactive self change h tr s t :
  h !! self = Some s → proxy_is_active s = false →
  change !! "type" = Some t →
  _update_proxy self change (World h tr) = Ok tt (World h tr).
Proof.
  intros Hs Hact Ht. unfold _update_proxy, getitem. rewrite Ht. mnorm.
  destruct (bool_decide (t = VStr "update")); [|done].
  by rewrite (bind_lookup_obj _ _ _ _ _ Hs), Hact.
Qed.

Lemma setattr_eq self name v h tr s :
  h !! self = Some s →
  setattr self name v (World h tr) =
  match slots s !! name with
  | Some old =>
      if bool_decide (old = v) then Ok tt (World h tr)
      else if observed (class_of s) name && proxy_is_active s then
        _notify_modified self
          {[ "id" := id_value self (set_slot name v s); "type" := VStr "update";
             "name" := VStr name; "value" := v ]}
          (World (fill_id self (alter (set_slot name v) self h))
                 (tr ++ [if has_setter self name then ProxySet self name v
                         else ProxySetAttribute self name v]))
      else Ok tt (World (alter (set_slot name v) self h) tr)
  | None => Ok tt (World (alter (set_slot name v) self h) tr)
  end.
Proof.
  intros Hs. unfold setattr. rewrite (bind_lookup_obj _ _ _ _ _ Hs).
  assert (Hs1 : alter (set_slot name v) self h !! self = Some (set_slot name v s))
    by (by rewrite lookup_alter_eq, Hs).
  destruct (slots s !! name) as [old|] eqn:Hold.
  - destruct (bool_decide (old = v)); [done|].
    rewrite (bind_modify_obj _ _ _ _ _ _ Hs). unfold when.
    destruct (observed (class_of s) name); simpl; [|done].
    destruct (proxy_is_active s) eqn:Hact.
    + by rewrite (update_proxy_eq _ _ _ _ _ name v Hs1).
    + by erewrite (update_proxy_inactive _ _ _ _ _ _ Hs1).
  - rewrite (bind_modify_obj _ _ _ _ _ _ Hs). unfold when.
    destruct (observed (class_of s) name); [|done].
    by erewrite update_proxy_guard.
Qed.

(** *** Changes of the heap that keep the parent chain of an object *)

Lemma parent_chain_alter_keep f x h r l root :
  (∀ o, parent (f o) = parent o) →
  parent_chain h r l root → parent_chain (alter f x h) r l root.
Proof.
  intros Hf. induction 1 as [r o Ho Hp|r o p l root Ho Hp Hc IH].
  - destruct (decide (x = r)) as [->|Hne].
    + eapply chain_root; [by rewrite lookup_alter_eq, Ho|]. by rewrite Hf.
    + eapply chain_root; [by rewrite lookup_alter_ne|done].
  - destruct (decide (x = r)) as [->|Hne].
    + eapply chain_step; [by rewrite lookup_alter_eq, Ho| |done]. by rewrite Hf.
    + eapply chain_step; [by rewrite lookup_alter_ne|done|done].
Qed.

Lemma parent_chain_alter_off f x h r l root :
  x ∉ l → x ≠ root →
  parent_chain h r l root → parent_chain (alter f x h) r l root.
Proof.
  intros Hx Hroot. induction 1 as [r o Ho Hp|r o p l root Ho Hp Hc IH].
  - eapply chain_root; [by rewrite lookup_alter_ne|done].
  - apply not_elem_of_cons in Hx as [Hne Hx].
    eapply chain_step; [by rewrite lookup_alter_ne|done|auto].
Qed.

Lemma parent_chain_has_parent h r l root x :
  parent_chain h r l root → x ∈ l → ∃ o, h !! x = Some o ∧ is_Some (parent o).
Proof.
  induction 1 as [|r o p l root Ho Hp Hc IH]; intros Hin.
  - by apply elem_of_nil in Hin.
  - apply elem_of_cons in Hin as [->|Hin]; eauto.
Qed.

Lemma parent_chain_root_lookup h r l root :
  parent_chain h r l root → ∃ o, h !! root = Some o ∧ parent o = None.
Proof. induction 1; eauto. Qed.

(** *** Classes and ids under changes of other fields *)

Lemma is_tag_alter f x h r :
  (∀ o, class_of (f o) = class_of o) → is_tag (alter f x h) r = is_tag h r.
Proof.
  intros Hf. unfold is_tag. destruct (decide (x = r)) as [->|Hne].
  - rewrite lookup_alter_eq. destruct (h !! r); simpl; [by rewrite Hf|done].
  - by rewrite lookup_alter_ne.
Qed.

Lemma id_of_alter f x h r :
  (∀ o, slots (f o) = slots o) → id_of (alter f x h) r = id_of h r.
Proof.
  intros Hf. unfold id_of, id_value. destruct (decide (x = r)) as [->|Hne].
  - rewrite lookup_alter_eq. destruct (h !! r); simpl; [by rewrite Hf|done].
  - by rewrite lookup_alter_ne.
Qed.

Lemma first_tag_alter f x h l :
  (∀ o, class_of (f o) = class_of o) → first_tag (alter f x h) l = first_tag h l.
Proof.
  intros Hf. induction l as [|y l IH]; simpl; [done|].
  by rewrite is_tag_alter, IH.
Qed.

Lemma is_Some_alter (f : obj → obj) x (h : gmap ref obj) r :
  is_Some (alter f x h !! r) ↔ is_Some (h !! r).
Proof.
  destruct (decide (x = r)) as [->|Hne].
  - rewrite lookup_alter_eq. by rewrite fmap_is_Some.
  - by rewrite lookup_alter_ne.
Qed.

(** *** The children list that an insertion builds *)


Lemma elem_of_place before child old x :
  x ∈ (place before [child] old).1 → x = child ∨ x ∈ old.
Proof.
  induction old as [|c old IH]; simpl.
  - intros Hx. by apply elem_of_nil in Hx.
  - destruct (place before [child] old) as [new added]; simpl in *.
    destruct (bool_decide (c ∈ [child])).
    { simpl. intros Hx. destruct (IH Hx); [by left|right; by right]. }
    destruct (bool_decide (before = Some c)); simpl; intros Hx.
    + apply elem_of_cons in Hx as [->|Hx]; [by left|].
      apply elem_of_cons in Hx as [->|Hx]; [right; by left|].
      destruct (IH Hx); [by left|right; by right].
    + apply elem_of_cons in Hx as [->|Hx]; [right; by left|].
      destruct (IH Hx); [by left|right; by right].
Qed.

Lemma place_added_elem before child old :
  (place before [child] old).2 = true → child ∈ (place before [child] old).1.
Proof.
  induction old as [|c old IH]; simpl; [done|].
  destruct (place before [child] old) as [new added]; simpl in *.
  destruct (bool_decide (c ∈ [child])); [done|].
  destruct (bool_decide (before = Some c)); simpl; intros Hx.
  - by left.
  - right. auto.
Qed.

Lemma elem_of_new_children before child old x :
  x ∈ new_children before [child] old → x = child ∨ x ∈ old.
Proof.
  unfold new_children. pose proof (elem_of_place before child old x) as H.
  destruct (place before [child] old) as [new added]; simpl in *.
  destruct added; [done|]. intros Hx.
  apply elem_of_app in Hx as [Hx|Hx]; [auto|].
  apply list_elem_of_singleton in Hx. by left.
Qed.

Lemma child_in_new_children before child old :
  child ∈ new_children before [child] old.
Proof.
  unfold new_children. pose proof (place_added_elem before child old) as H.
  destruct (place before [child] old) as [new added]; simpl in *.
  destruct added; [auto|]. apply elem_of_app. right. by left.
Qed.

End Assignment.

Section OperationEquations.
Context {proxy : ProxyTag}.

(** *** The operations, up to the hook they end in *)

Lemma insert_child_add_eq self before child h tr s c :
  h !! self = Some s → isinstance_Tag (class_of s) = true →
  h !! child = Some c → child ≠ self →
  parent c = None → child ∉ children s →
  insert_child self before child (World h tr) =
  child_added self child
    (World (alter (set_children (new_children before [child] (children s))) self
              (alter (set_parent_field (Some self)) child h)) tr).
Proof.
  intros Hs Htag Hc Hne Hp Hnin. unfold insert_child.
  rewrite bool_decide_eq_false_2 by done.
  rewrite (bind_lookup_obj _ _ _ _ _ Hs), (bind_lookup_obj _ _ _ _ _ Hc).
  rewrite Hp. rewrite bool_decide_eq_false_2 by done. mnorm.
  rewrite (bind_modify_obj _ _ _ _ _ _ Hc). mnorm.
  erewrite bind_modify_obj by (by rewrite lookup_alter_ne).
  rewrite bool_decide_eq_false_2 by done.
  unfold call_child_added.
  erewrite bind_lookup_obj by (by rewrite lookup_alter_eq, lookup_alter_ne, Hs).
  simpl. by rewrite Htag.
Qed.

Lemma insert_child_move_eq self before child h tr s c :
  h !! self = Some s → isinstance_Tag (class_of s) = true →
  h !! child = Some c → child ≠ self →
  parent c = Some self → child ∈ children s →
  insert_child self before child (World h tr) =
  child_moved self child
    (World (alter (set_children (new_children before [child] (children s))) self h)
           tr).
Proof.
  intros Hs Htag Hc Hne Hp Hin. unfold insert_child.
  rewrite bool_decide_eq_false_2 by done.
  rewrite (bind_lookup_obj _ _ _ _ _ Hs), (bind_lookup_obj _ _ _ _ _ Hc).
  rewrite Hp. rewrite bool_decide_eq_true_2 by done. mnorm.
  rewrite (bind_modify_obj _ _ _ _ _ _ Hs).
  rewrite bool_decide_eq_true_2 by done.
  unfold call_child_moved.
  erewrite bind_lookup_obj by (by rewrite lookup_alter_eq, Hs).
  simpl. by rewrite Htag.
Qed.

Lemma remove_child_eq self child h tr s c cs :
  h !! self = Some s → isinstance_Tag (class_of s) = true →
  h !! child = Some c → child ≠ self →
  parent c = Some self → list_remove child (children s) = Some cs →
  remove_child child (World h tr) =
  child_removed self child
    (World (alter (set_children cs) self
              (alter (set_parent_field None) child h)) tr).
Proof.
  intros Hs Htag Hc Hne Hp Hrm. unfold remove_child.
  rewrite (bind_lookup_obj _ _ _ _ _ Hc), Hp.
  rewrite (bind_modify_obj _ _ _ _ _ _ Hc).
  assert (Hs1 : alter (set_parent_field None) child h !! self = Some s)
    by (by rewrite lookup_alter_ne).
  unfold detach. mnorm. rewrite (bind_lookup_obj _ _ _ _ _ Hs1), Hrm.
  rewrite (bind_modify_obj _ _ _ _ _ _ Hs1).
  unfold call_child_removed.
  erewrite bind_lookup_obj by (by rewrite lookup_alter_eq, Hs1).
  simpl. by rewrite Htag.
Qed.

Lemma list_remove_spec x l cs :
  list_remove x l = Some cs → NoDup l →
  (x ∉ cs) ∧ (∀ y, y ∈ cs ↔ (y ∈ l ∧ y ≠ x)) ∧ NoDup cs.
Proof.
  revert cs. induction l as [|y l IH]; simpl; intros cs Hrm Hnd; [done|].
  apply NoDup_cons in Hnd as [Hy Hnd].
  destruct (decide (y = x)) as [->|Hne].
  - simplify_eq. split; [done|]. split; [|done].
    intros y. rewrite elem_of_cons. split.
    + intros Hz. split; [by right|]. by intros ->.
    + intros [[->|Hz] Hzx]; done.
  - destruct (list_remove x l) as [cs'|] eqn:E; simplify_eq/=.
    destruct (IH _ eq_refl Hnd) as (H1 & H2 & H3).
    split; [|split].
    + rewrite elem_of_cons. intros [->|Hx]; done.
    + intros z. rewrite !elem_of_cons, H2. naive_solver.
    + apply NoDup_cons. split; [|done]. rewrite H2. naive_solver.
Qed.

Lemma list_remove_elem x l : x ∈ l → is_Some (list_remove x l).
Proof.
  induction l as [|y l IH]; intros Hin; [by apply elem_of_nil in Hin|].
  simpl. destruct (decide (y = x)); [eauto|].
  apply elem_of_cons in Hin as [->|Hin]; [done|].
  destruct (IH Hin) as [cs ->]. simpl. eauto.
Qed.

End OperationEquations.

Section Delivery.
Context {proxy : ProxyTag}.

(** *** Where the record of a hook ends up *)

Lemma steady_root_class h h' root r :
  steady h h' → h !! root = Some r →
  ∃ r', h' !! root = Some r' ∧ class_of r' = class_of r.
Proof.
  intros Hst Hr. destruct (steady_lookup _ _ _ _ Hst Hr) as (r' & ? & ? & _).
  eauto.
Qed.

Lemma notify_modified_steady self change h h' tr l root r :
  steady h h' → parent_chain h self l root → h !! root = Some r →
  _notify_modified self change (World h' tr) =
  Ok tt (World h' (tr ++ delivery r root change)).
Proof.
  intros Hst Hc Hr.
  destruct (steady_root_class _ _ _ _ Hst Hr) as (r' & Hr' & Hcls).
  rewrite (notify_modified_eq _ _ _ _ _ _ _ (steady_parent_chain _ _ _ _ _ Hst Hc) Hr').
  unfold delivery. by rewrite Hcls.
Qed.

Lemma parent_chain_not_below h self l root child c :
  parent_chain h self l root → h !! child = Some c →
  parent c = Some self → child ∉ l.
Proof.
  intros Hch Hc Hp Hin. apply list_elem_of_split in Hin as (l1 & l2 & ->).
  pose proof (parent_chain_suffix _ _ _ _ _ _ Hch) as Hs.
  inversion Hs as [|? o p ? ? Ho Hpo Hrest]; simplify_eq.
  destruct (parent_chain_det _ _ _ _ _ _ Hch Hrest) as [Heq _].
  apply (f_equal length) in Heq. rewrite length_app in Heq. simpl in Heq. lia.
Qed.

Lemma parent_chain_not_detached h self l root child c :
  parent_chain h self l root → h !! child = Some c →
  parent c = None → child ∉ l.
Proof.
  intros Hch Hc Hp Hin.
  destruct (parent_chain_has_parent _ _ _ _ _ Hch Hin) as (o & Ho & [p Hpo]).
  congruence.
Qed.

End Delivery.

Section Outcomes.
Context {proxy : ProxyTag}.

(** *** What a hook delivers, whether it returns or raises *)

Lemma delivered_app tr1 tr2 :
  delivered (tr1 ++ tr2) = delivered tr1 ++ delivered tr2.
Proof. apply omap_app. Qed.

Lemma delivered_added_prelude c self child :
  delivered (added_prelude c self child) = [].
Proof. unfold added_prelude. by destruct (is_initialized c), (proxy_is_active c). Qed.

Lemma new_records_app h tr h' recs tr' :
  delivered tr' = delivered tr ++ recs →
  new_records (World h tr) (World h' tr') = recs.
Proof.
  intros H. unfold new_records. simpl. rewrite H. by rewrite drop_app_length.
Qed.

Lemma record_before id type v b : record id type v b !! "before" = b.
Proof.
  unfold record, with_before. destruct b as [x|]; [apply lookup_insert_eq|done].
Qed.

Lemma first_tag_spec h l x :
  first_tag h l = Some x → x ∈ l ∧ is_tag h x = true.
Proof.
  induction l as [|y l IH]; simpl; [done|].
  destruct (is_tag h y) eqn:E.
  - intros [= ->]. split; [by left|done].
  - intros H. destruct (IH H). split; [by right|done].
Qed.

Lemma first_tag_all_tags h l :
  Forall (λ x, is_tag h x = true) l → first_tag h l = head l.
Proof. destruct 1 as [|x l Hx _]; simpl; [done|]. by rewrite Hx. Qed.

(** The outcome of the relay after a hook has built its record. *)
Lemma notify_modified_records self change h tr tr0 :
  delivered tr = delivered tr0 →
  ∃ tr', world_of (_notify_modified self change (World h tr)) = World h tr' ∧
         (delivered tr' = delivered tr0 ∨
          ∃ root, delivered tr' = delivered tr0 ++ [(root, change)]).
Proof.
  intros Hd. destruct (notify_modified_outcome self change h tr) as (tr' & Hw & Htr).
  exists tr'. split; [done|]. destruct Htr as [->|[root ->]]; [by left|].
  right. exists root. by rewrite delivered_app, Hd.
Qed.

Lemma child_added_outcome self child h tr s c :
  h !! self = Some s → proxy_is_active s = true →
  h !! child = Some c → isinstance_Tag (class_of c) = true →
  child ≠ self → child ∈ children s →
  Forall (λ x, is_Some (h !! x)) (children s) →
  ∃ h' tr',
    world_of (child_added self child (World h tr)) = World h' tr' ∧
    steady h h' ∧
    (delivered tr' = delivered tr ∨
     ∃ root markup,
       delivered tr' = delivered tr ++
         [(root, record (id_value self s) "added" (VStr markup)
                   (id_of h <$> anchor h (children s) child))]).
Proof.
  intros Hs Hact Hc Htag Hne Hin Hall.
  rewrite (child_added_eq _ _ _ _ _ _ Hs Hact Hc Htag Hne Hin Hall).
  assert (Hst1 : steady h (fill_id self (added_heap c child h))).
  { eapply steady_trans; [apply steady_added_heap|apply steady_fill_id]. }
  destruct (proxy_render _ child) as [markup|].
  - edestruct (notify_modified_records self) as (tr' & Hw & Htr); last first.
    { eexists _, tr'. split; [exact Hw|]. split.
      - eapply steady_trans; [exact Hst1|apply steady_fill_anchor].
      - destruct Htr as [Htr|[root Htr]]; [by left|].
        right. exists root, markup. exact Htr. }
    rewrite !delivered_app, delivered_added_prelude. simpl. by rewrite !app_nil_r.
  - eexists _, _. split; [done|]. split; [done|]. left.
    by rewrite delivered_app, delivered_added_prelude, app_nil_r.
Qed.

Lemma child_moved_outcome self child h tr s c :
  h !! self = Some s → proxy_is_active s = true →
  h !! child = Some c → isinstance_Tag (class_of c) = true →
  child ∈ children s →
  Forall (λ x, is_Some (h !! x)) (children s) →
  ∃ h' tr',
    world_of (child_moved self child (World h tr)) = World h' tr' ∧
    steady h h' ∧
    (delivered tr' = delivered tr ∨
     ∃ root,
       delivered tr' = delivered tr ++
         [(root, record (id_value self s) "moved" (id_value child c)
                   (id_of h <$> anchor h (children s) child))]).
Proof.
  intros Hs Hact Hc Htag Hin Hall.
  rewrite (child_moved_eq _ _ _ _ _ _ Hs Hact Hc Htag Hin Hall).
  destruct (proxy_child_moved tr self child).
  - edestruct (notify_modified_records self) as (tr' & Hw & Htr); last first.
    { eexists _, tr'. split; [exact Hw|]. split.
      - eapply steady_trans; [apply steady_fill_id|].
        eapply steady_trans; [apply steady_fill_id|apply steady_fill_anchor].
      - destruct Htr as [Htr|[root Htr]]; [by left|].
        right. exists root. exact Htr. }
    rewrite delivered_app. simpl. by rewrite app_nil_r.
  - eexists _, _. split; [done|]. split; [apply steady_refl|]. left.
    rewrite delivered_app. simpl. by rewrite app_nil_r.
Qed.

Lemma child_removed_outcome self child h tr s c :
  h !! self = Some s → proxy_is_active s = true →
  h !! child = Some c → isinstance_Tag (class_of c) = true →
  ∃ h' tr',
    world_of (child_removed self child (World h tr)) = World h' tr' ∧
    steady h h' ∧
    (delivered tr' = delivered tr ∨
     ∃ root,
       delivered tr' = delivered tr ++
         [(root, record (id_value self s) "removed" (id_value child c) None)]).
Proof.
  intros Hs Hact Hc Htag.
  rewrite (child_removed_eq _ _ _ _ _ _ Hs Hact Hc Htag).
  edestruct (notify_modified_records self) as (tr' & Hw & Htr); last first.
  { eexists _, tr'. split; [exact Hw|]. split.
    - eapply steady_trans; apply steady_fill_id.
    - destruct Htr as [Htr|[root Htr]]; [by left|].
      right. exists root. exact Htr. }
  rewrite delivered_app. simpl. by rewrite app_nil_r.
Qed.

End Outcomes.


Section Prepare.
Context {proxy : ProxyTag}.

(** *** Runs that return *)

Lemma bind_Ok_inv {A B} (m : M A) (k : A → M B) w b w' :
  bind m k w = Ok b w' → ∃ a w1, m w = Ok a w1 ∧ k a w1 = Ok b w'.
Proof. unfold bind. destruct (m w) as [a w1|]; [eauto|done]. Qed.

Lemma lookup_obj_Ok_inv r w o w' :
  lookup_obj r w = Ok o w' → w' = w ∧ heap w !! r = Some o.
Proof.
  unfold lookup_obj. destruct (heap w !! r); [|done]. by intros [= -> ->].
Qed.

Lemma notify_modified_Ok_heap self change w w' :
  _notify_modified self change w = Ok tt w' → heap w' = heap w.
Proof.
  destruct w as [h tr]. intros H.
  destruct (notify_modified_outcome self change h tr) as (tr' & Hw & _).
  rewrite H in Hw. simpl in Hw. by subst.
Qed.

(** The slot of an attribute of an object. *)
Lemma slots_fill_id_obj r o k v :
  slots o !! k = Some v → slots (fill_id_obj r o) !! k = Some v.
Proof.
  intros H. unfold fill_id_obj. destruct (slots o !! "id") eqn:E; [done|].
  simpl. rewrite lookup_insert_ne; [done|]. intros <-. congruence.
Qed.

Lemma setattr_Ok_slots self k v w w' :
  setattr self k v w = Ok tt w' →
  ∃ s, heap w !! self = Some s ∧
  ∃ s', heap w' !! self = Some s' ∧
          slots s' !! k = Some v ∧
          is_initialized s' = is_initialized s ∧
          proxy_is_active s' = proxy_is_active s ∧
          ∀ k' v', k' ≠ k → slots s !! k' = Some v' → slots s' !! k' = Some v'.
Proof.
  destruct w as [h tr]. intros H.
  destruct (h !! self) as [s|] eqn:Hs.
  2:{ unfold setattr, bind, lookup_obj in H. simpl in H. by rewrite Hs in H. }
  rewrite (setattr_eq _ _ _ _ _ _ Hs) in H. exists s. simpl.
  split; [done|].
  assert (Hset : ∃ s', alter (set_slot k v) self h !! self = Some s' ∧
            slots s' !! k = Some v ∧
            is_initialized s' = is_initialized s ∧
            proxy_is_active s' = proxy_is_active s ∧
            ∀ k' v', k' ≠ k → slots s !! k' = Some v' → slots s' !! k' = Some v').
  { exists (set_slot k v s). rewrite lookup_alter_eq, Hs. simpl.
    repeat split; [apply lookup_insert_eq|].
    intros k' v' Hne Hk'. by rewrite lookup_insert_ne. }
  destruct (slots s !! k) as [old|] eqn:Hold.
  - destruct (bool_decide (old = v)) eqn:Hd.
    + apply bool_decide_eq_true in Hd as ->. injection H as <-. exists s.
      simpl. repeat split; auto.
    + destruct (observed (class_of s) k && proxy_is_active s).
      * apply notify_modified_Ok_heap in H. simpl in H. rewrite H.
        destruct Hset as (s' & Hs' & Hk & Hi & Ha & Hother).
        exists (fill_id_obj self s'). unfold fill_id.
        rewrite lookup_alter_eq, Hs'. simpl.
        split; [done|]. split; [by apply slots_fill_id_obj|].
        split; [unfold fill_id_obj; by destruct (slots s' !! "id")|].
        split; [unfold fill_id_obj; by destruct (slots s' !! "id")|].
        intros k' v' Hne Hk'. apply slots_fill_id_obj. eauto.
      * simplify_eq. simpl. exact Hset.
  - simplify_eq. simpl. exact Hset.
Qed.

Lemma Atom_setattr_eq self name v h tr s :
  h !! self = Some s →
  Atom_setattr self name v (World h tr) =
  if bool_decide (slots s !! name = Some v) then Ok tt (World h tr)
  else
    match member_of (class_of s) name with
    | None => Raise AttributeError (World h tr)
    | Some m =>
        match validate m v with
        | inl e => Raise e (World h tr)
        | inr v' => setattr self name v' (World h tr)
        end
    end.
Proof.
  intros Hs. unfold Atom_setattr. rewrite (bind_lookup_obj _ _ _ _ _ Hs).
  destruct (bool_decide _); [done|].
  destruct (member_of _ _) as [m|]; [|done]. by destruct (validate m v).
Qed.

Lemma bind_of_Ok {A B} (m : M A) (k : A → M B) w a w' :
  m w = Ok a w' → bind m k w = k a w'.
Proof. intros H. unfold bind. by rewrite H. Qed.

Lemma set_slot_same k v o : slots o !! k = Some v → set_slot k v o = o.
Proof.
  intros H. destruct o as [cl sl p cs i a]. unfold set_slot. simpl in *.
  by rewrite insert_id.
Qed.

Lemma alter_insert_at (f : obj → obj) x (h : gmap ref obj) o :
  h !! x = Some o → alter f x h = <[x := f o]> h.
Proof.
  intros H. apply map_eq. intros r. destruct (decide (x = r)) as [->|Hne].
  - by rewrite lookup_alter_eq, lookup_insert_eq, H.
  - by rewrite lookup_alter_ne, lookup_insert_ne.
Qed.

Lemma setattr_inactive_eq self k v h tr s :
  h !! self = Some s → proxy_is_active s = false →
  setattr self k v (World h tr) = Ok tt (World (<[self := set_slot k v s]> h) tr).
Proof.
  intros Hs Hact. rewrite (setattr_eq _ _ _ _ _ _ Hs), Hact, andb_false_r.
  rewrite (alter_insert_at _ _ _ _ Hs).
  destruct (slots s !! k) as [old|] eqn:Hold; [|done].
  destruct (bool_decide (old = v)) eqn:Hd; [|done].
  apply bool_decide_eq_true in Hd as ->.
  by rewrite (set_slot_same _ _ _ Hold), insert_id.
Qed.

Lemma Atom_setattr_inactive_eq self name v h tr s :
  h !! self = Some s → proxy_is_active s = false →
  Atom_setattr self name v (World h tr) =
  if bool_decide (slots s !! name = Some v) then Ok tt (World h tr)
  else
    match member_of (class_of s) name with
    | None => Raise AttributeError (World h tr)
    | Some m =>
        match validate m v with
        | inl e => Raise e (World h tr)
        | inr v' => Ok tt (World (<[self := set_slot name v' s]> h) tr)
        end
    end.
Proof.
  intros Hs Hact. rewrite (Atom_setattr_eq _ _ _ _ _ _ Hs).
  destruct (bool_decide _); [done|].
  destruct (member_of _ _) as [m|]; [|done].
  destruct (validate m v) as [e|v']; [done|].
  by apply setattr_inactive_eq.
Qed.

Lemma setattr_Ok_class self k v w w' s :
  heap w !! self = Some s → setattr self k v w = Ok tt w' →
  ∃ s', heap w' !! self = Some s' ∧ class_of s' = class_of s.
Proof.
  destruct w as [h tr]. simpl. intros Hs H.
  rewrite (setattr_eq _ _ _ _ _ _ Hs) in H.
  assert (Hset : ∃ s', alter (set_slot k v) self h !! self = Some s' ∧
                       class_of s' = class_of s).
  { exists (set_slot k v s). by rewrite lookup_alter_eq, Hs. }
  destruct (slots s !! k) as [old|].
  - destruct (bool_decide (old = v)); [injection H as <-; eauto|].
    destruct (observed (class_of s) k && proxy_is_active s).
    + apply notify_modified_Ok_heap in H. simpl in H. rewrite H.
      destruct Hset as (s' & Hs' & Hcl).
      exists (fill_id_obj self s'). unfold fill_id.
      rewrite lookup_alter_eq, Hs'. split; [done|].
      rewrite <- Hcl. unfold fill_id_obj. by destruct (slots s' !! "id").
    + simplify_eq. exact Hset.
  - simplify_eq. exact Hset.
Qed.

(** An assignment that returns: the attribute is settled, the flags and
    the class are as before, and the other attributes keep their values. *)
Lemma Atom_setattr_Ok self k v w w' :
  Atom_setattr self k v w = Ok tt w' →
  ∃ s, heap w !! self = Some s ∧
  ∃ s', heap w' !! self = Some s' ∧
          settled s' (k, v) ∧ class_of s' = class_of s ∧
          is_initialized s' = is_initialized s ∧
          proxy_is_active s' = proxy_is_active s ∧
          ∀ k' v', k' ≠ k → slots s !! k' = Some v' → slots s' !! k' = Some v'.
Proof.
  destruct w as [h tr]. intros H.
  destruct (h !! self) as [s|] eqn:Hs.
  2:{ unfold Atom_setattr, bind, lookup_obj in H. simpl in H.
      by rewrite Hs in H. }
  rewrite (Atom_setattr_eq _ _ _ _ _ _ Hs) in H. exists s.
  split; [done|].
  destruct (bool_decide (slots s !! k = Some v)) eqn:Hd.
  - apply bool_decide_eq_true in Hd. injection H as <-. exists s.
    repeat split; auto. by left.
  - destruct (member_of (class_of s) k) as [m|] eqn:Hm; [|done].
    destruct (validate m v) as [e|v1] eqn:Hv; [done|].
    destruct (setattr_Ok_class self k v1 (World h tr) w' s Hs H)
      as (s1 & Hs1 & Hcl).
    destruct (setattr_Ok_slots _ _ _ _ _ H)
      as (t & Ht & t1 & Ht1 & Hk & Hi & Ha & Hother).
    simpl in Ht. rewrite Hs in Ht. injection Ht as <-.
    rewrite Hs1 in Ht1. injection Ht1 as <-.
    exists s1. repeat split; auto.
    right. exists m, v1. simpl. by rewrite Hcl.
Qed.

Lemma settled_keeps s s' k kv :
  kv.1 ≠ k → class_of s' = class_of s →
  (∀ k' v', k' ≠ k → slots s !! k' = Some v' → slots s' !! k' = Some v') →
  settled s kv → settled s' kv.
Proof.
  intros Hne Hcl Hother [H|(m & v' & Hm & Hv & H)].
  - left. by apply Hother.
  - right. exists m, v'. rewrite Hcl. split; [done|]. split; [done|].
    by apply Hother.
Qed.

Lemma for_each_Atom_setattr_keeps self kwargs kv w w' s :
  kv.1 ∉ kwargs.*1 →
  for_each kwargs (λ kv, Atom_setattr self kv.1 kv.2) w = Ok tt w' →
  heap w !! self = Some s → settled s kv →
  ∃ s', heap w' !! self = Some s' ∧ settled s' kv.
Proof.
  revert w s. induction kwargs as [|[k2 v2] kwargs IH]; intros w s Hk H Hs Hkv.
  - simpl in H. injection H as <-. eauto.
  - simpl in Hk. apply not_elem_of_cons in Hk as [Hne Hk].
    simpl in H. apply bind_Ok_inv in H as ([] & w1 & H1 & H2).
    destruct (Atom_setattr_Ok _ _ _ _ _ H1)
      as (t & Ht & t1 & Ht1 & _ & Hcl & _ & _ & Hother).
    simpl in Ht. simplify_eq. eapply (IH w1 t1); eauto.
    by eapply settled_keeps.
Qed.

Lemma for_each_Atom_setattr_Ok self kwargs w w' :
  NoDup kwargs.*1 →
  for_each kwargs (λ kv, Atom_setattr self kv.1 kv.2) w = Ok tt w' →
  ∀ kv, kv ∈ kwargs →
        ∃ s', heap w' !! self = Some s' ∧ settled s' kv.
Proof.
  revert w. induction kwargs as [|[k v] kwargs IH]; intros w Hnd H kv Hin.
  - by apply elem_of_nil in Hin.
  - simpl in Hnd. apply NoDup_cons in Hnd as [Hk Hnd].
    simpl in H. apply bind_Ok_inv in H as ([] & w1 & H1 & H2).
    apply elem_of_cons in Hin as [->|Hin]; [|by eapply IH].
    destruct (Atom_setattr_Ok _ _ _ _ _ H1)
      as (s & Hs & s1 & Hs1 & Hkv & _).
    by eapply (for_each_Atom_setattr_keeps _ _ (k, v)).
Qed.

Lemma Atom_setattr_settled self kv h tr s :
  h !! self = Some s → settled s kv →
  Atom_setattr self kv.1 kv.2 (World h tr) = Ok tt (World h tr).
Proof.
  intros Hs Hkv. rewrite (Atom_setattr_eq _ _ _ _ _ _ Hs).
  destruct (bool_decide (slots s !! kv.1 = Some kv.2)) eqn:Hd; [done|].
  apply bool_decide_eq_false in Hd.
  destruct Hkv as [H|(m & v' & Hm & Hv & H)]; [done|].
  rewrite Hm, Hv, (setattr_eq _ _ _ _ _ _ Hs), H.
  by rewrite bool_decide_eq_true_2.
Qed.

Lemma for_each_Atom_setattr_settled self kwargs h tr s :
  h !! self = Some s →
  (∀ kv, kv ∈ kwargs → settled s kv) →
  for_each kwargs (λ kv, Atom_setattr self kv.1 kv.2) (World h tr)
  = Ok tt (World h tr).
Proof.
  intros Hs. induction kwargs as [|kv kwargs IH]; intros Hall; [done|].
  simpl. unfold bind.
  rewrite (Atom_setattr_settled _ _ _ _ _ Hs) by (apply Hall; by left).
  apply IH. intros kv' Hin. apply Hall. by right.
Qed.

(** [prepare] on a tag that is initialized and active, with keyword
    arguments that repeat the values the attributes hold, does nothing. *)
Lemma prepare_settled self kwargs w s :
  heap w !! self = Some s →
  is_initialized s = true → proxy_is_active s = true →
  (∀ kv, kv ∈ kwargs → settled s kv) →
  prepare self kwargs w = Ok tt w.
Proof.
  destruct w as [h tr]. simpl. intros Hs Hi Ha Hall. unfold prepare.
  unfold bind at 1. rewrite (for_each_Atom_setattr_settled _ _ _ _ _ Hs Hall).
  rewrite (bind_lookup_obj _ _ _ _ _ Hs), Hi. unfold when, negb. mnorm.
  by rewrite (bind_lookup_obj _ _ _ _ _ Hs), Ha.
Qed.

Lemma prepare_Ok self kwargs w w' :
  NoDup kwargs.*1 → prepare self kwargs w = Ok tt w' →
  ∃ s', heap w' !! self = Some s' ∧
        is_initialized s' = true ∧ proxy_is_active s' = true ∧
        ∀ kv, kv ∈ kwargs → settled s' kv.
Proof.
  intros Hnd H. unfold prepare in H.
  apply bind_Ok_inv in H as ([] & w1 & H1 & H).
  pose proof (for_each_Atom_setattr_Ok _ _ _ _ Hnd H1) as Hslots.
  apply bind_Ok_inv in H as (s1 & w1' & Hl & H).
  apply lookup_obj_Ok_inv in Hl as [-> Hs1].
  destruct w1 as [h1 tr1]. simpl in *.
  assert (Hslots1 : ∀ kv, kv ∈ kwargs → settled s1 kv).
  { intros kv Hin. destruct (Hslots kv Hin) as (s' & Hs' & Hk). congruence. }
  clear Hslots H1.
  set (s2 := if is_initialized s1 then s1 else set_is_initialized true s1).
  assert (H2 : ∃ h2 tr2, h2 !! self = Some s2 ∧
            (do s <- lookup_obj self;
             when (negb (proxy_is_active s)) (activate_proxy self))
              (World h2 tr2) = Ok tt w').
  { unfold when, negb in H. unfold s2.
    destruct (is_initialized s1).
    - rewrite bind_ret in H. eauto.
    - rewrite (bind_initialize _ _ _ _ _ Hs1) in H.
      eexists _, _. split; [|exact H]. by apply lookup_initialize_tree. }
  destruct H2 as (h2 & tr2 & Hs2 & H2).
  rewrite (bind_lookup_obj _ _ _ _ _ Hs2) in H2.
  assert (Hi2 : is_initialized s2 = true).
  { unfold s2. by destruct (is_initialized s1) eqn:E. }
  assert (Hsl2 : ∀ kv, settled s2 kv ↔ settled s1 kv).
  { unfold s2. by destruct (is_initialized s1). }
  unfold when, negb in H2.
  destruct (proxy_is_active s2) eqn:Ha2.
  - injection H2 as <-. exists s2. simpl.
    repeat split; auto. intros kv Hin. apply Hsl2. auto.
  - pose proof (bind_activate_proxy self ret h2 tr2 s2 Hs2) as Hact.
    unfold bind, ret in Hact. rewrite H2 in Hact. injection Hact as ->.
    exists (set_proxy_is_active true s2). simpl.
    rewrite (lookup_activate_tree _ _ _ Hs2).
    repeat split; auto. intros kv Hin.
    apply (proj2 (Hsl2 kv)). auto.
Qed.

End Prepare.

Section ChildrenLists.
Context {proxy : ProxyTag}.

(** *** The children list after an insertion *)

Lemma place_spec before child old :
  NoDup old →
  NoDup (place before [child] old).1 ∧
  (∀ x, x ∈ (place before [child] old).1 ↔
        ((x ∈ old ∧ x ≠ child) ∨
         (x = child ∧ (place before [child] old).2 = true))) ∧
  ((place before [child] old).2 = true → ∃ b, before = Some b ∧ b ∈ old).
Proof.
  induction old as [|c old IH]; intros Hnd.
  - simpl. split; [constructor|]. split; [|done].
    intros x. rewrite elem_of_nil. naive_solver.
  - apply NoDup_cons in Hnd as [Hc Hnd]. destruct (IH Hnd) as (IH1 & IH2 & IH3).
    simpl. destruct (place before [child] old) as [new added]. simpl in *.
    destruct (decide (c = child)) as [->|Hne].
    + rewrite bool_decide_eq_true_2 by (by left). simpl.
      split; [done|]. split.
      * intros x. rewrite IH2, elem_of_cons. naive_solver.
      * intros Ha. destruct (IH3 Ha) as (b & ? & ?). exists b. split; [done|].
        by right.
    + rewrite bool_decide_eq_false_2
        by (rewrite list_elem_of_singleton; congruence).
      assert (Hcnew : c ∉ new).
      { rewrite IH2. intros [[? _]|[? _]]; done. }
      destruct (bool_decide (before = Some c)) eqn:Hb; simpl.
      * apply bool_decide_eq_true in Hb.
        assert (Hadded : added = false).
        { destruct added; [|done]. destruct (IH3 eq_refl) as (b & ? & ?).
          congruence. }
        split; [|split].
        -- apply NoDup_cons. split.
           ++ rewrite elem_of_cons, IH2. rewrite Hadded. naive_solver.
           ++ by apply NoDup_cons.
        -- intros x. rewrite !elem_of_cons, IH2. rewrite Hadded. naive_solver.
        -- intros _. exists c. split; [done|]. by left.
      * split; [|split].
        -- by apply NoDup_cons.
        -- intros x. rewrite !elem_of_cons, IH2. naive_solver.
        -- intros Ha. destruct (IH3 Ha) as (b & ? & ?). exists b.
           split; [done|]. by right.
Qed.

Lemma NoDup_new_children before child old :
  NoDup old → NoDup (new_children before [child] old).
Proof.
  intros Hnd. destruct (place_spec before child old Hnd) as (H1 & H2 & _).
  unfold new_children. destruct (place before [child] old) as [new added].
  simpl in *. destruct added; [done|].
  apply NoDup_app. split; [done|]. split.
  - intros x Hx Hx'. apply list_elem_of_singleton in Hx' as ->.
    apply H2 in Hx as [[_ ?]|[_ ?]]; done.
  - apply NoDup_singleton.
Qed.

Lemma elem_of_new_children_iff before child old x :
  x ∈ new_children before [child] old ↔ (x = child ∨ x ∈ old).
Proof.
  split; [apply elem_of_new_children|]. intros [->|Hx].
  - apply child_in_new_children.
  - destruct (decide (x = child)) as [->|Hne]; [apply child_in_new_children|].
    unfold new_children.
    assert (Hp : x ∈ (place before [child] old).1).
    { clear -Hx Hne. induction old as [|c old IH]; [by apply elem_of_nil in Hx|].
      simpl. destruct (place before [child] old) as [new added]. simpl in *.
      apply elem_of_cons in Hx as [->|Hx].
      - rewrite bool_decide_eq_false_2
          by (rewrite list_elem_of_singleton; congruence).
        destruct (bool_decide (before = Some c)); simpl.
        + right. by left.
        + by left.
      - specialize (IH Hx). destruct (bool_decide (c ∈ [child])); [done|].
        destruct (bool_decide (before = Some c)); simpl.
        + right. by right.
        + by right. }
    destruct (place before [child] old) as [new added]. simpl in *.
    destruct added; [done|]. apply elem_of_app. by left.
Qed.

Lemma following_notin child cs : child ∉ cs → following child cs = [].
Proof.
  induction cs as [|x cs IH]; simpl; [done|]. intros Hnin.
  apply not_elem_of_cons in Hnin as [Hne Hnin].
  destruct (decide (x = child)); [congruence|auto].
Qed.

Lemma elem_of_following child cs x : x ∈ following child cs → x ∈ cs.
Proof.
  induction cs as [|y cs IH]; simpl; [done|].
  destruct (decide (y = child)); intros Hx; right; auto.
Qed.

Lemma anchor_all_tags h cs child :
  Forall (λ x, is_tag h x = true) cs →
  anchor h cs child = next_sibling cs child.
Proof.
  intros Hall. unfold anchor, next_sibling. apply first_tag_all_tags.
  by apply Forall_following.
Qed.

End ChildrenLists.

Section Invariant.
Context {proxy : ProxyTag}.

(** *** The invariant of a run of operations *)

Lemma tags_only_spec pool self h :
  tags_only pool self h = true ↔ pool_inv pool self h.
Proof.
  unfold tags_only, pool_inv. destruct (h !! self) as [s|] eqn:Hs.
  2:{ split; [done|]. by intros (s & ? & _). }
  rewrite !andb_true_iff, !bool_decide_eq_true, !forallb_forall.
  split.
  - intros (((((Htag & Hact) & Hnd) & Hself) & Hcs) & Hpool).
    exists s. repeat split; try done.
    + intros c Hc. apply list_elem_of_In in Hc. apply Hcs in Hc.
      by apply bool_decide_eq_true in Hc.
    + intros x Hx. apply list_elem_of_In in Hx. apply Hpool in Hx.
      unfold pool_member in Hx. destruct (h !! x) as [o|]; [|done].
      apply andb_true_iff in Hx as [? Hp]. apply bool_decide_eq_true in Hp.
      eauto.
  - intros (s' & [= <-] & Htag & Hact & Hnd & Hself & Hcs & Hpool).
    repeat split; try done.
    + intros c Hc. apply bool_decide_eq_true, Hcs. by apply list_elem_of_In.
    + intros x Hx. apply list_elem_of_In in Hx.
      destruct (Hpool x Hx) as (o & Ho & Hto & Hp). unfold pool_member.
      rewrite Ho, Hto. simpl. by apply bool_decide_eq_true.
Qed.

Lemma pool_inv_steady pool self h h' :
  steady h h' →
  pool_inv pool self h → pool_inv pool self h'.
Proof.
  intros Hst (s & Hs & Htag & Hact & Hnd & Hself & Hcs & Hpool).
  destruct (steady_lookup _ _ _ _ Hst Hs)
    as (s' & Hs' & Hcls & _ & Hch & _ & Hflag).
  exists s'. rewrite Hcls, Hch, (Hflag Hact). repeat split; try done.
  intros x Hx. destruct (Hpool x Hx) as (o & Ho & Hto & Hp).
  destruct (steady_lookup _ _ _ _ Hst Ho) as (o' & Ho' & Hc' & Hp' & _).
  exists o'. rewrite Hc', Hp'. done.
Qed.

Lemma pool_inv_relink pool self child h s c cs2 :
  pool_inv pool self h → h !! self = Some s →
  child ∈ pool → h !! child = Some c →
  NoDup cs2 → (∀ x, x ∈ cs2 → x ∈ pool) →
  (∀ x, x ≠ child → (x ∈ cs2 ↔ x ∈ children s)) →
  pool_inv pool self
    (alter (set_children cs2) self
       (alter (set_parent_field
                 (if bool_decide (child ∈ cs2) then Some self else None))
              child h)).
Proof.
  intros (s0 & Hs0 & Htag & Hact & Hnd & Hself & Hcs & Hpool) Hs Hin Hc
    Hnd2 Hcs2 Hiff.
  simplify_eq.
  assert (Hne : child ≠ self) by (intros ->; done).
  exists (set_children cs2 s0). rewrite lookup_alter_eq, lookup_alter_ne, Hs0 by done.
  simpl. repeat split; try done.
  intros x Hx. assert (x ≠ self) by (intros ->; done).
  rewrite lookup_alter_ne by done.
  destruct (decide (x = child)) as [->|Hxc].
  - rewrite lookup_alter_eq, Hc. simpl. eexists. split; [done|]. split; [|done].
    destruct (Hpool child Hin) as (o & Ho & Hto & _). by simplify_eq.
  - rewrite lookup_alter_ne by done.
    destruct (Hpool x Hx) as (o & Ho & Hto & Hp). exists o.
    split; [done|]. split; [done|]. rewrite Hp.
    by rewrite (bool_decide_ext _ _ (Hiff x Hxc)).
Qed.

Lemma pool_inv_is_tag pool self h x :
  pool_inv pool self h → x ∈ pool → is_tag h x = true.
Proof.
  intros (s & _ & _ & _ & _ & _ & _ & Hpool) Hx.
  destruct (Hpool x Hx) as (o & Ho & Hto & _). unfold is_tag. by rewrite Ho.
Qed.

Lemma anchored_nothing self child h tr h' tr' s' :
  h' !! self = Some s' → delivered tr' = delivered tr →
  anchored self child (World h tr) (World h' tr').
Proof.
  intros Hs Hd. exists s'. split; [done|].
  assert (Hn : new_records (World h tr) (World h' tr') = []).
  { apply new_records_app. by rewrite app_nil_r. }
  rewrite Hn. simpl. split; [by rewrite app_nil_r|].
  intros rc Hrc. by apply elem_of_nil in Hrc.
Qed.

Lemma anchored_one self child h tr h' tr' s' root i t v nxt :
  h' !! self = Some s' →
  delivered tr' = delivered tr ++ [(root, record i t v (id_of h' <$> nxt))] →
  nxt = next_sibling (children s') child →
  anchored self child (World h tr) (World h' tr').
Proof.
  intros Hs Hd ->. exists s'. split; [done|].
  rewrite (new_records_app _ _ _ _ _ Hd). simpl. split; [done|].
  intros rc Hrc. apply list_elem_of_singleton in Hrc as ->. simpl.
  rewrite record_before. split; [done|]. apply fmap_None.
Qed.

End Invariant.

Section Runs.
Context {proxy : ProxyTag}.

Lemma pool_inv_children_allocated pool self h s :
  pool_inv pool self h → h !! self = Some s →
  Forall (λ x, is_Some (h !! x)) (children s) ∧
  Forall (λ x, is_tag h x = true) (children s).
Proof.
  intros Hinv Hs. pose proof Hinv as (s0 & Hs0 & _ & _ & _ & _ & Hcs & Hpool).
  simplify_eq. split; apply Forall_forall; intros x Hx.
  - destruct (Hpool x (Hcs x Hx)) as (o & Ho & _). eauto.
  - eapply pool_inv_is_tag; eauto.
Qed.

Lemma fmap_id_of_steady h h' (o : option ref) :
  steady h h' → id_of h <$> o = id_of h' <$> o.
Proof.
  intros Hst. destruct o as [x|]; simpl; [|done].
  by rewrite (steady_id_of _ _ _ Hst).
Qed.

(** One operation from a state of the invariant: the records it delivers
    are anchored, and the invariant holds again, whether the operation
    returns or raises. *)
Lemma apply_op_step pool self o w :
  pool_inv pool self (heap w) → affected o ∈ pool →
  anchored self (affected o) w (world_of (apply_op self o w)) ∧
  pool_inv pool self (heap (world_of (apply_op self o w))).
Proof.
  destruct w as [h tr]. simpl. intros Hinv Hin.
  pose proof Hinv as (s & Hs & Htag & Hact & Hnd & Hself & Hcs & Hpool).
  destruct (Hpool _ Hin) as (c & Hc & Hctag & Hp).
  assert (Hne : affected o ≠ self) by (intros Heq; by rewrite Heq in Hin).
  destruct o as [before child|child]; simpl in *.
  - set (cs := new_children before [child] (children s)).
    assert (Hchild : child ∈ cs) by apply child_in_new_children.
    assert (Hinv2 : pool_inv pool self
              (alter (set_children cs) self
                 (alter (set_parent_field (Some self)) child h))).
    { pose proof (pool_inv_relink pool self child h s c cs Hinv Hs Hin Hc) as H.
      rewrite bool_decide_eq_true_2 in H by done. apply H.
      - by apply NoDup_new_children.
      - intros x Hx. apply elem_of_new_children in Hx as [->|Hx]; auto.
      - intros x Hx. unfold cs. rewrite elem_of_new_children_iff. naive_solver. }
    destruct (decide (child ∈ children s)) as [Hold|Hold].
    + rewrite bool_decide_eq_true_2 in Hp by done.
      rewrite (insert_child_move_eq _ _ _ _ _ _ _ Hs Htag Hc Hne Hp Hold).
      fold cs.
      assert (Hid : alter (set_parent_field (Some self)) child h = h).
      { apply alter_id. intros x Hx. rewrite Hc in Hx. injection Hx as <-.
        clear -Hp. destruct c. simpl in *. by subst. }
      rewrite Hid in Hinv2.
      set (h2 := alter (set_children cs) self h) in *.
      assert (Hs2 : h2 !! self = Some (set_children cs s))
        by (unfold h2; by rewrite lookup_alter_eq, Hs).
      assert (Hc2 : h2 !! child = Some c)
        by (unfold h2; by rewrite lookup_alter_ne).
      destruct (pool_inv_children_allocated _ _ _ _ Hinv2 Hs2) as [Hall Htags].
      destruct (child_moved_outcome _ _ _ tr _ _ Hs2 Hact Hc2 Hctag Hchild Hall)
        as (h' & tr' & Hw & Hst & Hd).
      rewrite Hw. simpl.
      destruct (steady_lookup _ _ _ _ Hst Hs2) as (s' & Hs' & _ & _ & Hch & _).
      split; [|by eapply pool_inv_steady].
      destruct Hd as [Hd|(root & Hd)].
      * by eapply anchored_nothing.
      * rewrite (fmap_id_of_steady _ _ _ Hst) in Hd.
        eapply anchored_one; [done|exact Hd|].
        rewrite Hch. by apply anchor_all_tags.
    + rewrite bool_decide_eq_false_2 in Hp by done.
      rewrite (insert_child_add_eq _ _ _ _ _ _ _ Hs Htag Hc Hne Hp Hold).
      fold cs.
      set (h2 := alter (set_children cs) self
                   (alter (set_parent_field (Some self)) child h)) in *.
      assert (Hs2 : h2 !! self = Some (set_children cs s))
        by (unfold h2; by rewrite lookup_alter_eq, lookup_alter_ne, Hs).
      assert (Hc2 : h2 !! child = Some (set_parent_field (Some self) c))
        by (unfold h2; by rewrite lookup_alter_ne, lookup_alter_eq, Hc).
      destruct (pool_inv_children_allocated _ _ _ _ Hinv2 Hs2) as [Hall Htags].
      destruct (child_added_outcome _ _ _ tr _ _ Hs2 Hact Hc2 Hctag Hne Hchild Hall)
        as (h' & tr' & Hw & Hst & Hd).
      rewrite Hw. simpl.
      destruct (steady_lookup _ _ _ _ Hst Hs2) as (s' & Hs' & _ & _ & Hch & _).
      split; [|by eapply pool_inv_steady].
      destruct Hd as [Hd|(root & markup & Hd)].
      * by eapply anchored_nothing.
      * rewrite (fmap_id_of_steady _ _ _ Hst) in Hd.
        eapply anchored_one; [done|exact Hd|].
        rewrite Hch. by apply anchor_all_tags.
  - destruct (decide (child ∈ children s)) as [Hold|Hold].
    + rewrite bool_decide_eq_true_2 in Hp by done.
      destruct (list_remove_elem _ _ Hold) as [cs Hrm].
      destruct (list_remove_spec _ _ _ Hrm Hnd) as (Hnin & Hiff & Hnd2).
      rewrite (remove_child_eq _ _ _ _ _ _ _ Hs Htag Hc Hne Hp Hrm).
      assert (Hinv2 : pool_inv pool self
                (alter (set_children cs) self
                   (alter (set_parent_field None) child h))).
      { pose proof (pool_inv_relink pool self child h s c cs Hinv Hs Hin Hc) as H.
        rewrite bool_decide_eq_false_2 in H by done. apply H.
        - done.
        - intros x Hx. apply Hiff in Hx as [Hx _]. auto.
        - intros x Hx. rewrite Hiff. naive_solver. }
      set (h2 := alter (set_children cs) self
                   (alter (set_parent_field None) child h)) in *.
      assert (Hs2 : h2 !! self = Some (set_children cs s))
        by (unfold h2; by rewrite lookup_alter_eq, lookup_alter_ne, Hs).
      assert (Hc2 : h2 !! child = Some (set_parent_field None c))
        by (unfold h2; by rewrite lookup_alter_ne, lookup_alter_eq, Hc).
      destruct (child_removed_outcome _ _ _ tr _ _ Hs2 Hact Hc2 Hctag)
        as (h' & tr' & Hw & Hst & Hd).
      rewrite Hw. simpl.
      destruct (steady_lookup _ _ _ _ Hst Hs2) as (s' & Hs' & _ & _ & Hch & _).
      split; [|by eapply pool_inv_steady].
      destruct Hd as [Hd|(root & Hd)].
      * by eapply anchored_nothing.
      * change (@None value) with (id_of h' <$> @None ref) in Hd.
        eapply anchored_one; [done|exact Hd|].
        rewrite Hch. unfold next_sibling. simpl.
        by rewrite following_notin.
    + rewrite bool_decide_eq_false_2 in Hp by done.
      unfold remove_child. rewrite (bind_lookup_obj _ _ _ _ _ Hc), Hp. simpl.
      split; [by eapply anchored_nothing|done].
Qed.

Lemma run_ops_inv pool self ops w w' :
  pool_inv pool self (heap w) → Forall (λ o, affected o ∈ pool) ops →
  run_ops self ops w = Ok tt w' → pool_inv pool self (heap w').
Proof.
  intros Hinv Hall. revert w Hinv.
  induction Hall as [|o ops Ho Hall IH]; intros w Hinv H.
  - injection H as <-. done.
  - unfold run_ops in H. simpl in H.
    apply bind_Ok_inv in H as ([] & w1 & H1 & H2).
    destruct (apply_op_step pool self o w Hinv Ho) as [_ Hinv1].
    rewrite H1 in Hinv1. simpl in Hinv1. by apply (IH w1).
Qed.

End Runs.


(** * The claims *)

Section Claims.
Context {proxy : ProxyTag}.

(** C1, amended. Adding a tag to an active parent tag hands over exactly
    one record: its ['id'] is the id of the parent (not of the child), its
    ['type'] is ['added'], its ['name'] is ['children'], its ['value'] is
    the markup the child's proxy renders, and its ['before'], present
    exactly when a tag follows the child, is the id of the nearest such
    tag.  The root receives the record when it is an [Html]. *)
Theorem insert_child_emits_one_added self before child w s c l root r markup :
  heap w !! self = Some s → isinstance_Tag (class_of s) = true →
  proxy_is_active s = true →
  heap w !! child = Some c → isinstance_Tag (class_of c) = true →
  child ≠ self → parent c = None → child ∉ children s →
  Forall (λ x, is_Some (heap w !! x)) (children s) →
  proxy_render (trace w ++ added_prelude c self child) child = Some markup →
  parent_chain (heap w) self l root → child ≠ root →
  heap w !! root = Some r →
  let cs := new_children before [child] (children s) in
  ∃ h', insert_child self before child w =
        Ok tt (World h'
                 (trace w ++ added_prelude c self child
                  ++ [ProxyRender child markup]
                  ++ delivery r root
                       (record (id_value self s) "added" (VStr markup)
                          (id_of (heap w) <$> anchor (heap w) cs child))))
        ∧ children <$> h' !! self = Some cs.
Proof.
  destruct w as [h tr]. simpl.
  intros Hs Htag Hact Hc Hctag Hne Hp Hnin Hall Hrender Hch Hroot Hr.
  rewrite (insert_child_add_eq _ _ _ _ _ _ _ Hs Htag Hc Hne Hp Hnin).
  set (cs := new_children before [child] (children s)).
  set (h2 := alter (set_children cs) self (alter (set_parent_field (Some self)) child h)).
  assert (Hs2 : h2 !! self = Some (set_children cs s)).
  { unfold h2. by rewrite lookup_alter_eq, lookup_alter_ne, Hs. }
  assert (Hc2 : h2 !! child = Some (set_parent_field (Some self) c)).
  { unfold h2. by rewrite lookup_alter_ne, lookup_alter_eq, Hc. }
  assert (Hall2 : Forall (λ x, is_Some (h2 !! x)) cs).
  { apply Forall_forall. intros x Hx. unfold h2. rewrite !is_Some_alter.
    apply elem_of_new_children in Hx as [->|Hx]; [eauto|].
    by apply (proj1 (Forall_forall _ _) Hall). }
  rewrite (child_added_eq _ _ _ _ _ _ Hs2 Hact Hc2 Hctag Hne
             (child_in_new_children _ _ _) Hall2).
  change (added_prelude (set_parent_field (Some self) c) self child)
    with (added_prelude c self child).
  rewrite Hrender.
  set (a := anchor h2 (children (set_children cs s)) child).
  set (h3 := fill_anchor a
               (fill_id self
                  (added_heap (set_parent_field (Some self) c) child h2))).
  assert (Hst : steady h2 h3).
  { eapply steady_trans; [apply steady_added_heap|].
    eapply steady_trans; [apply steady_fill_id|apply steady_fill_anchor]. }
  assert (Hch2 : parent_chain h2 self l root).
  { unfold h2. apply parent_chain_alter_keep; [done|].
    apply parent_chain_alter_off; [|done|done].
    eapply parent_chain_not_detached; eauto. }
  assert (Hr2 : ∃ r2, h2 !! root = Some r2 ∧ class_of r2 = class_of r).
  { unfold h2. destruct (decide (self = root)) as [->|Hsr].
    - rewrite lookup_alter_eq, lookup_alter_ne, Hr by done. eauto.
    - rewrite !lookup_alter_ne by done. eauto. }
  destruct Hr2 as (r2 & Hr2 & Hcls).
  rewrite (notify_modified_steady _ _ _ _ _ _ _ _ Hst Hch2 Hr2).
  exists h3. split.
  - unfold delivery. rewrite Hcls. rewrite <- !app_assoc.
    do 5 f_equal. unfold a, anchor, h2. simpl.
    rewrite !first_tag_alter by done.
    destruct (first_tag h (following child cs)); simpl; [|done].
    by rewrite !id_of_alter.
  - destruct (steady_lookup _ _ _ _ Hst Hs2) as (s3 & Hs3 & _ & _ & Hcs3 & _).
    rewrite Hs3. simpl. by rewrite Hcs3.
Qed.

(** C2. Take an active tag whose children are all tags, and any sequence
    of insertions, moves and removals of tags among its children.  After
    the sequence has run, the next operation delivers only records whose
    ['before'] is the id of the sibling right after the affected child in
    the children list of that moment, and which have no ['before'] exactly
    when no sibling follows; a removed child has left the list and its
    record has none. *)
Theorem before_is_the_following_sibling pool self ops o w0 w :
  tags_only pool self (heap w0) = true →
  Forall (λ o, affected o ∈ pool) (ops ++ [o]) →
  run_ops self ops w0 = Ok tt w →
  anchored self (affected o) w (world_of (apply_op self o w)).
Proof.
  intros Hinv Hall Hrun. apply tags_only_spec in Hinv.
  apply Forall_app in Hall as [Hops Ho].
  rewrite Forall_singleton in Ho.
  pose proof (run_ops_inv _ _ _ _ _ Hinv Hops Hrun) as Hinv'.
  by destruct (apply_op_step pool self o w Hinv' Ho).
Qed.

(** C3, amended. On an active tag an assignment to an observed attribute
    that holds a value already hands over exactly one record of type
    ['update'], with the name and the value the member stores (the value
    assigned, or the coerced one), after the proxy was called: [set_<name>]
    where the proxy has it, [set_attribute(name, value)] otherwise.  The
    root receives the record when it is an [Html].  Three assignments make
    no record and call no proxy: one of the value the attribute holds, one
    of a value the member refuses, which raises and stores nothing, and the
    first assignment to an attribute that holds no value yet, which atom
    reports as ['create'] (C10). *)
Theorem setattr_emits_one_update self name m v w s l root r :
  heap w !! self = Some s → proxy_is_active s = true →
  observed (class_of s) name = true →
  member_of (class_of s) name = Some m →
  parent_chain (heap w) self l root → heap w !! root = Some r →
  Atom_setattr self name v w =
  if bool_decide (slots s !! name = Some v) then Ok tt w
  else
    match validate m v, slots s !! name with
    | inl e, _ => Raise e w
    | inr v', None =>
        Ok tt (World (alter (set_slot name v') self (heap w)) (trace w))
    | inr v', Some old =>
        if bool_decide (old = v') then Ok tt w
        else
          Ok tt (World (fill_id self (alter (set_slot name v') self (heap w)))
                   (trace w
                    ++ [if has_setter self name then ProxySet self name v'
                        else ProxySetAttribute self name v']
                    ++ delivery r root
                         {[ "id" := id_value self (set_slot name v' s);
                            "type" := VStr "update"; "name" := VStr name;
                            "value" := v' ]}))
    end.
Proof.
  destruct w as [h tr]. simpl. intros Hs Hact Hobs Hm Hc Hr.
  rewrite (Atom_setattr_eq _ _ _ _ _ _ Hs), Hm.
  destruct (bool_decide (slots s !! name = Some v)); [done|].
  destruct (validate m v) as [e|v']; [done|].
  rewrite (setattr_eq _ _ _ _ _ _ Hs).
  destruct (slots s !! name) as [old|]; [|done].
  destruct (bool_decide (old = v')); [done|].
  rewrite Hobs, Hact. simpl.
  assert (Hc' : parent_chain (fill_id self (alter (set_slot name v') self h))
                  self l root).
  { unfold fill_id. apply parent_chain_alter_keep.
    - intros o. unfold fill_id_obj. by destruct (slots o !! "id").
    - by apply parent_chain_alter_keep. }
  assert (Hr' : ∃ r', fill_id self (alter (set_slot name v') self h) !! root
                      = Some r' ∧ class_of r' = class_of r).
  { unfold fill_id. destruct (decide (self = root)) as [->|Hsr].
    - rewrite !lookup_alter_eq, Hr. simpl. eexists. split; [done|].
      unfold fill_id_obj. by destruct (slots _ !! "id").
    - rewrite !lookup_alter_ne by done. eauto. }
  destruct Hr' as (r' & Hr' & Hcls).
  rewrite (notify_modified_eq _ _ _ _ _ _ _ Hc' Hr').
  unfold delivery. rewrite Hcls. by rewrite <- app_assoc.
Qed.

(** C4. On a tag whose proxy is not active no mutation delivers a record
    or calls a proxy, and the heap holds what was assigned or the new
    children list.  An assignment stores the value the member returns
    for it and leaves the trace as it was (a value the member refuses
    raises and stores nothing); the move and the removal of a child return
    with the trace as it was; the insertion of a child adds nothing to the
    trace but, under a parent that is initialized, the initialization of a
    child that was not. *)
Theorem inactive_tag_is_silent self w s :
  heap w !! self = Some s → isinstance_Tag (class_of s) = true →
  proxy_is_active s = false →
  (∀ name m v,
      member_of (class_of s) name = Some m →
      Atom_setattr self name v w =
      if bool_decide (slots s !! name = Some v) then Ok tt w
      else
        match validate m v with
        | inl e => Raise e w
        | inr v' =>
            Ok tt (World (<[self := set_slot name v' s]> (heap w)) (trace w))
        end)
  ∧ (∀ before child c,
      heap w !! child = Some c → child ≠ self →
      (parent c = None ∧ child ∉ children s) ∨
      (parent c = Some self ∧ child ∈ children s) →
      ∃ h' evs,
        insert_child self before child w = Ok tt (World h' (trace w ++ evs)) ∧
        Forall (λ e, ∃ x, e = Initialize x) evs ∧
        (evs = [] ∨ (is_initialized s = true ∧ is_initialized c = false)) ∧
        delivered (trace w ++ evs) = delivered (trace w) ∧
        children <$> h' !! self
          = Some (new_children before [child] (children s)) ∧
        child ∈ new_children before [child] (children s))
  ∧ (∀ child c cs,
      heap w !! child = Some c → child ≠ self →
      parent c = Some self → list_remove child (children s) = Some cs →
      ∃ h',
        remove_child child w = Ok tt (World h' (trace w)) ∧
        children <$> h' !! self = Some cs).
Proof.
  destruct w as [h tr]. simpl. intros Hs Htag Hact.
  split; [|split].
  - intros name m v Hm.
    rewrite (Atom_setattr_inactive_eq _ _ _ _ _ _ Hs Hact). by rewrite Hm.
  - intros before child c Hc Hne [[Hp Hnin]|[Hp Hin]].
    + rewrite (insert_child_add_eq _ _ _ _ _ _ _ Hs Htag Hc Hne Hp Hnin).
      set (cs := new_children before [child] (children s)).
      set (h2 := alter (set_children cs) self
                   (alter (set_parent_field (Some self)) child h)).
      assert (Hs2 : h2 !! self = Some (set_children cs s))
        by (unfold h2; by rewrite lookup_alter_eq, lookup_alter_ne, Hs).
      assert (Hc2 : h2 !! child = Some (set_parent_field (Some self) c))
        by (unfold h2; by rewrite lookup_alter_ne, lookup_alter_eq, Hc).
      rewrite (proj1 (hooks_inactive self child (World h2 tr) _ _
                        Hs2 Hact Hc2)).
      simpl.
      destruct (isinstance_Tag (class_of c) && is_initialized s
                && negb (is_initialized c)) eqn:Hcond.
      * exists (initialize_tree child h2), [Initialize child].
        split; [done|]. split; [repeat constructor; eauto|].
        split.
        { right. apply andb_true_iff in Hcond as [Hcond Hi].
          apply andb_true_iff in Hcond as [_ Hsi].
          by apply negb_true_iff in Hi. }
        split; [by rewrite delivered_app, app_nil_r|].
        split; [|apply child_in_new_children].
        unfold initialize_tree.
        rewrite (lookup_mark _ _ _ _ (set_children cs s))
          by (done || by intros []).
        by destruct (bool_decide _).
      * exists h2, []. rewrite !app_nil_r.
        split; [done|]. split; [constructor|]. split; [by left|].
        split; [done|]. rewrite Hs2.
        split; [done|apply child_in_new_children].
    + rewrite (insert_child_move_eq _ _ _ _ _ _ _ Hs Htag Hc Hne Hp Hin).
      set (cs := new_children before [child] (children s)).
      set (h2 := alter (set_children cs) self h).
      assert (Hs2 : h2 !! self = Some (set_children cs s))
        by (unfold h2; by rewrite lookup_alter_eq, Hs).
      assert (Hc2 : h2 !! child = Some c)
        by (unfold h2; by rewrite lookup_alter_ne, Hc).
      rewrite (proj1 (proj2 (hooks_inactive self child (World h2 tr) _ _
                               Hs2 Hact Hc2))).
      exists h2, []. rewrite !app_nil_r.
      split; [done|]. split; [constructor|]. split; [by left|].
      split; [done|]. rewrite Hs2.
      split; [done|apply child_in_new_children].
  - intros child c cs Hc Hne Hp Hrm.
    rewrite (remove_child_eq _ _ _ _ _ _ _ Hs Htag Hc Hne Hp Hrm).
    eexists. split.
    + refine (proj2 (proj2 (hooks_inactive self child (World _ tr)
                (set_children cs s) (set_parent_field None c) _ Hact _)));
        simpl.
      * by rewrite lookup_alter_eq, lookup_alter_ne, Hs.
      * by rewrite lookup_alter_ne, lookup_alter_eq, Hc.
    + by rewrite lookup_alter_eq, lookup_alter_ne, Hs.
Qed.

(** C5, amended. Moving a tag among the children of an active parent tag
    asks the parent's proxy to move it.  When the proxy answers false,
    nothing else happens: no record, and the children stay in their new
    order.  When it answers true, exactly one record is handed over: its
    ['id'] is the id of the parent (not of the child), its ['type'] is
    ['moved'], its ['name'] is ['children'], its ['value'] is the id of the
    child, and its ['before'] is the id of the nearest tag that follows the
    child at its new place, when there is one. *)
Theorem insert_child_move_record self before child w s c l root r :
  heap w !! self = Some s → isinstance_Tag (class_of s) = true →
  proxy_is_active s = true →
  heap w !! child = Some c → isinstance_Tag (class_of c) = true →
  child ≠ self → parent c = Some self → child ∈ children s →
  Forall (λ x, is_Some (heap w !! x)) (children s) →
  parent_chain (heap w) self l root → heap w !! root = Some r →
  let cs := new_children before [child] (children s) in
  let ok := proxy_child_moved (trace w) self child in
  ∃ h', insert_child self before child w =
        Ok tt (World h'
                 (trace w ++ [ProxyChildMoved self child ok]
                  ++ if ok then
                       delivery r root
                         (record (id_value self s) "moved" (id_value child c)
                            (id_of (heap w) <$> anchor (heap w) cs child))
                     else []))
        ∧ children <$> h' !! self = Some cs.
Proof.
  destruct w as [h tr]. simpl.
  intros Hs Htag Hact Hc Hctag Hne Hp Hin Hall Hch Hr.
  rewrite (insert_child_move_eq _ _ _ _ _ _ _ Hs Htag Hc Hne Hp Hin).
  set (cs := new_children before [child] (children s)).
  set (h2 := alter (set_children cs) self h).
  assert (Hs2 : h2 !! self = Some (set_children cs s)).
  { unfold h2. by rewrite lookup_alter_eq, Hs. }
  assert (Hc2 : h2 !! child = Some c).
  { unfold h2. by rewrite lookup_alter_ne. }
  assert (Hall2 : Forall (λ x, is_Some (h2 !! x)) cs).
  { apply Forall_forall. intros x Hx. unfold h2. rewrite is_Some_alter.
    apply elem_of_new_children in Hx as [->|Hx]; [eauto|].
    by apply (proj1 (Forall_forall _ _) Hall). }
  rewrite (child_moved_eq _ _ _ _ _ _ Hs2 Hact Hc2 Hctag
             (child_in_new_children _ _ _) Hall2).
  destruct (proxy_child_moved tr self child).
  2:{ exists h2. by rewrite Hs2. }
  set (a := anchor h2 (children (set_children cs s)) child).
  set (h3 := fill_anchor a (fill_id child (fill_id self h2))).
  assert (Hst : steady h2 h3).
  { eapply steady_trans; [apply steady_fill_id|].
    eapply steady_trans; [apply steady_fill_id|apply steady_fill_anchor]. }
  assert (Hch2 : parent_chain h2 self l root).
  { unfold h2. by apply parent_chain_alter_keep. }
  assert (Hr2 : ∃ r2, h2 !! root = Some r2 ∧ class_of r2 = class_of r).
  { unfold h2. destruct (decide (self = root)) as [->|Hsr].
    - rewrite lookup_alter_eq, Hr. eauto.
    - rewrite lookup_alter_ne by done. eauto. }
  destruct Hr2 as (r2 & Hr2 & Hcls).
  rewrite (notify_modified_steady _ _ _ _ _ _ _ _ Hst Hch2 Hr2).
  exists h3. split.
  - unfold delivery. rewrite Hcls. rewrite <- !app_assoc.
    do 4 f_equal. unfold a, anchor, h2. simpl.
    rewrite !first_tag_alter by done.
    destruct (first_tag h (following child cs)); simpl; [|done].
    by rewrite !id_of_alter.
  - destruct (steady_lookup _ _ _ _ Hst Hs2) as (s3 & Hs3 & _ & _ & Hcs3 & _).
    rewrite Hs3. simpl. by rewrite Hcs3.
Qed.

(** C6, amended. Removing a tag from an active parent tag first takes it
    out of the parent's children and clears its parent, and then runs the
    hook, which hands over exactly one record: its ['id'] is the id of the
    parent (not of the child), its ['type'] is ['removed'], its ['name'] is
    ['children'], its ['value'] is the id of the child, and it has no
    ['before']. *)
Theorem remove_child_emits_one_removed self child w s c cs l root r :
  heap w !! self = Some s → isinstance_Tag (class_of s) = true →
  proxy_is_active s = true →
  heap w !! child = Some c → isinstance_Tag (class_of c) = true →
  child ≠ self → parent c = Some self →
  list_remove child (children s) = Some cs →
  parent_chain (heap w) self l root → heap w !! root = Some r →
  let change : dict :=
    {[ "id" := id_value self s; "type" := VStr "removed";
       "name" := VStr "children"; "value" := id_value child c ]} in
  ∃ hd h',
    remove_child child w = child_removed self child (World hd (trace w))
    ∧ children <$> hd !! self = Some cs
    ∧ parent <$> hd !! child = Some None
    ∧ child_removed self child (World hd (trace w)) =
      Ok tt (World h' (trace w ++ [ProxyChildRemoved self child]
                       ++ delivery r root change))
    ∧ change !! "before" = None
    ∧ children <$> h' !! self = Some cs.
Proof.
  destruct w as [h tr]. simpl.
  intros Hs Htag Hact Hc Hctag Hne Hp Hrm Hch Hr.
  set (hd := alter (set_children cs) self (alter (set_parent_field None) child h)).
  assert (Hs2 : hd !! self = Some (set_children cs s)).
  { unfold hd. by rewrite lookup_alter_eq, lookup_alter_ne, Hs. }
  assert (Hc2 : hd !! child = Some (set_parent_field None c)).
  { unfold hd. by rewrite lookup_alter_ne, lookup_alter_eq, Hc. }
  set (h3 := fill_id child (fill_id self hd)).
  assert (Hst : steady hd h3).
  { eapply steady_trans; apply steady_fill_id. }
  assert (Hch2 : parent_chain hd self l root).
  { unfold hd. apply parent_chain_alter_keep; [done|].
    apply parent_chain_alter_off; [| |done].
    - eapply parent_chain_not_below; eauto.
    - intros ->. destruct (parent_chain_root_lookup _ _ _ _ Hch) as (o & Ho & Hpo).
      congruence. }
  assert (Hr2 : ∃ r2, hd !! root = Some r2 ∧ class_of r2 = class_of r).
  { unfold hd. destruct (decide (self = root)) as [->|Hsr].
    - rewrite lookup_alter_eq, lookup_alter_ne, Hr by done. eauto.
    - rewrite lookup_alter_ne by done.
      destruct (decide (child = root)) as [->|Hcr].
      + rewrite lookup_alter_eq, Hr. eauto.
      + rewrite lookup_alter_ne by done. eauto. }
  destruct Hr2 as (r2 & Hr2 & Hcls).
  exists hd, h3. split; [|split; [|split; [|split; [|split]]]].
  - by apply (remove_child_eq _ _ _ _ s c).
  - by rewrite Hs2.
  - by rewrite Hc2.
  - rewrite (child_removed_eq _ _ _ _ _ _ Hs2 Hact Hc2 Hctag).
    fold h3. rewrite (notify_modified_steady _ _ _ _ _ _ _ _ Hst Hch2 Hr2).
    unfold delivery. rewrite Hcls. by rewrite <- app_assoc.
  - done.
  - destruct (steady_lookup _ _ _ _ Hst Hs2) as (s3 & Hs3 & _ & _ & Hcs3 & _).
    rewrite Hs3. simpl. by rewrite Hcs3.
Qed.

(** C7. A child that is no [Tag] is invisible.  The three hooks return at
    once for it, on any parent, active or not, and leave the world as it
    was; inserting, moving or removing it on a parent tag delivers no
    record.  And the ['before'] of a record that [child_added] or
    [child_moved] delivers for a tag is the id of a sibling that follows it
    and is a [Tag], never of another object. *)
Theorem non_tag_children_are_transparent :
  (∀ self child w c,
      heap w !! child = Some c → isinstance_Tag (class_of c) = false →
      child_added self child w = Ok tt w ∧
      child_moved self child w = Ok tt w ∧
      child_removed self child w = Ok tt w)
  ∧ (∀ self before child w s c,
      heap w !! self = Some s → isinstance_Tag (class_of s) = true →
      heap w !! child = Some c → isinstance_Tag (class_of c) = false →
      child ≠ self →
      (parent c = None ∧ child ∉ children s) ∨
      (parent c = Some self ∧ child ∈ children s) →
      new_records w (world_of (insert_child self before child w)) = [] ∧
      (parent c = Some self →
       new_records w (world_of (remove_child child w)) = []))
  ∧ (∀ self child w s c rc b,
      heap w !! self = Some s → proxy_is_active s = true →
      heap w !! child = Some c → isinstance_Tag (class_of c) = true →
      child ≠ self → child ∈ children s →
      Forall (λ x, is_Some (heap w !! x)) (children s) →
      rc ∈ new_records w (world_of (child_added self child w)) ∨
      rc ∈ new_records w (world_of (child_moved self child w)) →
      rc.2 !! "before" = Some b →
      ∃ x, x ∈ following child (children s) ∧ is_tag (heap w) x = true ∧
           b = id_of (heap w) x).
Proof.
  split; [|split].
  - intros self child w c. apply hooks_non_tag.
  - intros self before child [h tr] s c. simpl.
    intros Hs Htag Hc Hctag Hne Hcase. split.
    + destruct Hcase as [[Hp Hnin]|[Hp Hin]].
      * rewrite (insert_child_add_eq _ _ _ _ _ _ _ Hs Htag Hc Hne Hp Hnin).
        rewrite (proj1 (hooks_non_tag self child (World _ tr)
                   (set_parent_field (Some self) c)
                   ltac:(simpl; by rewrite lookup_alter_ne, lookup_alter_eq, Hc)
                   Hctag)).
        unfold new_records. simpl. apply drop_all.
      * rewrite (insert_child_move_eq _ _ _ _ _ _ _ Hs Htag Hc Hne Hp Hin).
        rewrite (proj1 (proj2 (hooks_non_tag self child (World _ tr) c
                   ltac:(simpl; by rewrite lookup_alter_ne, Hc) Hctag))).
        unfold new_records. simpl. apply drop_all.
    + intros Hp.
      assert (Hin : child ∈ children s).
      { destruct Hcase as [[? ?]|[? ?]]; [congruence|done]. }
      destruct (list_remove_elem _ _ Hin) as [cs Hrm].
      rewrite (remove_child_eq _ _ _ _ _ _ _ Hs Htag Hc Hne Hp Hrm).
      rewrite (proj2 (proj2 (hooks_non_tag self child (World _ tr)
                 (set_parent_field None c)
                 ltac:(simpl; by rewrite lookup_alter_ne, lookup_alter_eq, Hc)
                 Hctag))).
      unfold new_records. simpl. apply drop_all.
  - intros self child [h tr] s c rc b. simpl.
    intros Hs Hact Hc Hctag Hne Hin Hall Hrc Hb.
    assert (Hrec : ∃ i t v,
      rc.2 = record i t v (id_of h <$> anchor h (children s) child)).
    { destruct Hrc as [Hrc|Hrc].
      - destruct (child_added_outcome _ _ _ tr _ _ Hs Hact Hc Hctag Hne Hin Hall)
          as (h' & tr' & Hw & _ & [Hd|(root & markup & Hd)]);
          rewrite Hw in Hrc.
        + rewrite (new_records_app _ _ _ [] _) in Hrc
            by (by rewrite app_nil_r).
          by apply elem_of_nil in Hrc.
        + rewrite (new_records_app _ _ _ _ _ Hd) in Hrc.
          apply list_elem_of_singleton in Hrc as ->. simpl. eauto.
      - destruct (child_moved_outcome _ _ _ tr _ _ Hs Hact Hc Hctag Hin Hall)
          as (h' & tr' & Hw & _ & [Hd|(root & Hd)]);
          rewrite Hw in Hrc.
        + rewrite (new_records_app _ _ _ [] _) in Hrc
            by (by rewrite app_nil_r).
          by apply elem_of_nil in Hrc.
        + rewrite (new_records_app _ _ _ _ _ Hd) in Hrc.
          apply list_elem_of_singleton in Hrc as ->. simpl. eauto. }
    destruct Hrec as (i & t & v & Hrec). rewrite Hrec, record_before in Hb.
    unfold anchor in Hb.
    destruct (first_tag h (following child (children s))) as [x|] eqn:Hx;
      [|done].
    simpl in Hb. destruct (first_tag_spec _ _ _ Hx). exists x.
    repeat split; [done|done|congruence].
Qed.

(** C8. [prepare] is idempotent.  On a tag that is initialized and active,
    with keyword arguments that repeat the values the attributes hold (or
    with none), [prepare] returns with the world as it is: no attribute
    changes, the tag is neither initialized nor activated again, no proxy
    is called and no record is delivered.  This is the state after any call
    of [prepare] that returned, so the same call once more does nothing. *)
Theorem prepare_is_idempotent self kwargs :
  (∀ w s,
      heap w !! self = Some s →
      is_initialized s = true → proxy_is_active s = true →
      (∀ k v, (k, v) ∈ kwargs → slots s !! k = Some v) →
      prepare self kwargs w = Ok tt w)
  ∧ (∀ w0 w,
      NoDup kwargs.*1 → prepare self kwargs w0 = Ok tt w →
      (∃ s, heap w !! self = Some s ∧
            is_initialized s = true ∧ proxy_is_active s = true)
      ∧ prepare self kwargs w = Ok tt w).
Proof.
  split.
  - intros w s Hs Hi Ha Hall. apply (prepare_settled _ _ _ s); try done.
    intros [k v] Hin. left. by apply Hall.
  - intros w0 w Hnd H.
    destruct (prepare_Ok _ _ _ _ Hnd H) as (s & Hs & Hi & Ha & Hk).
    split; [eauto|]. by apply (prepare_settled _ _ _ s).
Qed.

(** C9. A change record handed to [_notify_modified] reaches the root of
    the tag's tree unchanged exactly when that root is an [Html]; under any
    other root it is dropped, the call returns and the world is the one
    before. *)
Theorem notify_modified_reaches_html_root self change w l root r :
  parent_chain (heap w) self l root → heap w !! root = Some r →
  _notify_modified self change w =
  Ok tt (World (heap w)
           (trace w ++ if isinstance_Html (class_of r)
                       then [Modified root change] else [])).
Proof. destruct w as [h tr]. apply notify_modified_eq. Qed.

(** C10. An observer call whose change is not of type ['update'] (the
    ['create'] change of a first value, for one) leaves [_update_proxy] at
    its guard: the proxy is not called and no record is made, whether the
    proxy is active or not; the world is the one before. *)
Theorem update_proxy_ignores_other_types self change t w :
  change !! "type" = Some t → t ≠ VStr "update" →
  _update_proxy self change w = Ok tt w.
Proof. apply update_proxy_guard. Qed.

End Claims.


(** ** The claims on the example document *)

(** Scenario 2: [C] inserted between [A] and [B] on the active document. *)
Example scenario_insert_between :
  delivered (trace (world_of
    (@insert_child example_proxy 1 (Some 4) 5 tags_world)))
  = [(1, {[ "id" := VStr "D"; "type" := VStr "added";
            "name" := VStr "children"; "value" := VStr "<5>";
            "before" := VStr "B" ]})].
Proof. vm_compute. reflexivity. Qed.

(** Scenario 5: [text] set on the active [B]. *)
Example scenario_set_text :
  delivered (trace (world_of
    (@setattr example_proxy 4 "text" (VStr "hello") example_world)))
  = [(1, {[ "id" := VStr "B"; "type" := VStr "update";
            "name" := VStr "text"; "value" := VStr "hello" ]})].
Proof. vm_compute. reflexivity. Qed.

(** The first value of an attribute reaches the observer as a ['create']
    change (C10): no record. *)
Example first_value_is_silent :
  trace (world_of (@setattr example_proxy 4 "alt" (VStr "x") example_world))
  = [].
Proof. vm_compute. reflexivity. Qed.

(** A record made under a root that is no [Html] goes nowhere. *)
Example record_without_document :
  @setattr example_proxy 7 "text" (VStr "hello") example_world
  = Ok tt (World (alter (set_slot "text" (VStr "hello")) 7 example_heap)
             [ProxySet 7 "text" (VStr "hello")]).
Proof. vm_compute. reflexivity. Qed.

(** With a proxy that leaves [render] as html.py:30-32 has it, [render]
    raises and the added child is announced to nobody. *)
Example render_not_implemented :
  ∃ w, @insert_child base_proxy 1 None 5 example_world
       = Raise NotImplementedError w ∧ delivered (trace w) = [].
Proof. eexists. split; vm_compute; reflexivity. Qed.

Lemma example_chain_1 : parent_chain example_heap 1 [] 1.
Proof. eapply chain_root; reflexivity. Qed.

Lemma example_chain_4 : parent_chain example_heap 4 [4] 1.
Proof. eapply chain_step; [reflexivity|reflexivity|apply example_chain_1]. Qed.

Lemma example_children_allocated :
  Forall (λ x, is_Some (example_heap !! x)) [2; 3; 4].
Proof. repeat constructor; by eexists. Qed.

Lemma update_proxy_ignores_other_types_witness :
  @_update_proxy example_proxy 4
    {[ "type" := VStr "create"; "object" := VRef 4; "name" := VStr "text";
       "value" := VStr "hello" ]} example_world
  = Ok tt example_world.
Proof.
  apply (@update_proxy_ignores_other_types example_proxy 4 _
           (VStr "create") example_world); [reflexivity|discriminate].
Defined.

Lemma notify_modified_reaches_html_root_witness :
  _notify_modified 4 {[ "id" := VStr "B" ]} example_world
  = Ok tt (World example_heap [Modified 1 {[ "id" := VStr "B" ]}]).
Proof.
  apply (notify_modified_reaches_html_root 4
           {[ "id" := VStr "B" ]} example_world [4] 1
           (example_obj Html "D" None [2; 3; 4] true));
    [apply example_chain_4|reflexivity].
Defined.

(** C3 as stated: every assignment of a new value to an observed attribute
    of an active tag would make one record.  [alt] is observed and the
    active [B] holds no value of it: its first value makes no record and
    calls no proxy. *)
Lemma first_assignment_makes_no_record :
  observed Blockquote "alt" = true ∧
  proxy_is_active <$> example_heap !! 4 = Some true ∧
  (example_heap !! 4 ≫= λ o, slots o !! "alt") = None ∧
  @Atom_setattr example_proxy 4 "alt" (VStr "x") example_world
  = Ok tt (World (alter (set_slot "alt" (VStr "x")) 4 example_heap) []) ∧
  delivered (trace (world_of
    (@Atom_setattr example_proxy 4 "alt" (VStr "x") example_world))) = [].
Proof. repeat split; vm_compute; reflexivity. Qed.

Lemma example_chain_switch : parent_chain switch_heap 2 [2] 1.
Proof.
  eapply chain_step; [reflexivity|reflexivity|].
  eapply chain_root; reflexivity.
Qed.

(** [text] of the active [B], a value that [text] refuses, and a value
    that [clickable] coerces. *)
Lemma setattr_emits_one_update_witness :
  trace (world_of (@Atom_setattr example_proxy 4 "text" (VStr "hello")
                     example_world))
  = [ProxySet 4 "text" (VStr "hello");
     Modified 1 {[ "id" := VStr "B"; "type" := VStr "update";
                   "name" := VStr "text"; "value" := VStr "hello" ]}]
  ∧ @Atom_setattr example_proxy 4 "text" VNone example_world
    = Raise TypeError example_world
  ∧ trace (world_of (@Atom_setattr example_proxy 2 "clickable" (VStr "yes")
                       switch_world))
    = [ProxySetAttribute 2 "clickable" (VBool true);
       Modified 1 {[ "id" := VStr "S"; "type" := VStr "update";
                     "name" := VStr "clickable"; "value" := VBool true ]}].
Proof.
  split; [|split].
  - rewrite (@setattr_emits_one_update example_proxy 4 "text" Str
               (VStr "hello") example_world
               (example_obj Blockquote "B" (Some 1) [] true) [4] 1
               (example_obj Html "D" None [2; 3; 4] true));
      [reflexivity|reflexivity|reflexivity|reflexivity|reflexivity
      |apply example_chain_4|reflexivity].
  - rewrite (@setattr_emits_one_update example_proxy 4 "text" Str
               VNone example_world
               (example_obj Blockquote "B" (Some 1) [] true) [4] 1
               (example_obj Html "D" None [2; 3; 4] true));
      [reflexivity|reflexivity|reflexivity|reflexivity|reflexivity
      |apply example_chain_4|reflexivity].
  - rewrite (@setattr_emits_one_update example_proxy 2 "clickable"
               Coerced_bool (VStr "yes") switch_world
               (Obj (Tag [] []) {[ "id" := VStr "S";
                                   "clickable" := VBool false ]}
                  (Some 1) [] true true) [2] 1
               (example_obj Html "D" None [2] true));
      [reflexivity|reflexivity|reflexivity|reflexivity|reflexivity
      |apply example_chain_switch|reflexivity].
Defined.

(** C1 as stated: the ['id'] of the record for the added [C] would be the
    id of [C]; it is the id of the parent [D]. *)
Lemma added_record_carries_parent_id :
  ∃ change,
    delivered (trace (world_of
      (@insert_child example_proxy 1 (Some 4) 5 example_world)))
      = [(1, change)] ∧
    change !! "type" = Some (VStr "added") ∧
    change !! "id" = Some (VStr "D") ∧
    id_of example_heap 5 = VStr "C" ∧
    change !! "id" ≠ Some (id_of example_heap 5).
Proof.
  eexists. split; [vm_compute; reflexivity|].
  split; [reflexivity|]. split; [reflexivity|]. split; [reflexivity|].
  vm_compute. discriminate.
Qed.

Lemma insert_child_emits_one_added_witness :
  ∃ h', @insert_child example_proxy 1 (Some 4) 5 example_world
        = Ok tt (World h'
                   [Initialize 5; ActivateProxy 5; ProxyChildAdded 1 5;
                    ProxyRender 5 "<5>";
                    Modified 1 {[ "id" := VStr "D"; "type" := VStr "added";
                                  "name" := VStr "children";
                                  "value" := VStr "<5>";
                                  "before" := VStr "B" ]}])
        ∧ children <$> h' !! 1 = Some [2; 3; 5; 4].
Proof.
  apply (@insert_child_emits_one_added example_proxy 1 (Some 4) 5
           example_world (example_obj Html "D" None [2; 3; 4] true)
           (example_obj (Tag [] []) "C" None [] false) [] 1
           (example_obj Html "D" None [2; 3; 4] true) "<5>");
    try reflexivity; try discriminate.
  - rewrite list_elem_of_In. simpl. lia.
  - apply example_children_allocated.
  - apply example_chain_1.
Defined.

(** C5 as stated: the ['id'] of the record for the moved [A] would be the
    id of [A]; it is the id of the parent [D] (the id of [A] is the
    ['value']). *)
Lemma moved_record_carries_parent_id :
  ∃ change,
    delivered (trace (world_of
      (@insert_child example_proxy 1 None 2 example_world)))
      = [(1, change)] ∧
    change !! "type" = Some (VStr "moved") ∧
    change !! "id" = Some (VStr "D") ∧
    id_of example_heap 2 = VStr "A" ∧
    change !! "id" ≠ Some (id_of example_heap 2).
Proof.
  eexists. split; [vm_compute; reflexivity|].
  split; [reflexivity|]. split; [reflexivity|]. split; [reflexivity|].
  vm_compute. discriminate.
Qed.

(** Scenario 3: [A] moved to the end; the move succeeds. *)
Lemma insert_child_move_record_witness :
  ∃ h', @insert_child example_proxy 1 None 2 example_world
        = Ok tt (World h'
                   [ProxyChildMoved 1 2 true;
                    Modified 1 {[ "id" := VStr "D"; "type" := VStr "moved";
                                  "name" := VStr "children";
                                  "value" := VStr "A" ]}])
        ∧ children <$> h' !! 1 = Some [3; 4; 2].
Proof.
  apply (@insert_child_move_record example_proxy 1 None 2
           example_world (example_obj Html "D" None [2; 3; 4] true)
           (example_obj (Tag [] []) "A" (Some 1) [] true) [] 1
           (example_obj Html "D" None [2; 3; 4] true));
    try reflexivity; try discriminate.
  - rewrite list_elem_of_In. simpl. lia.
  - apply example_children_allocated.
  - apply example_chain_1.
Defined.

(** The proxy refuses to move [B]: the children are reordered and nobody
    is told. *)
Example refused_move_is_silent :
  ∃ h', @insert_child example_proxy 1 (Some 2) 4 example_world
        = Ok tt (World h' [ProxyChildMoved 1 4 false])
        ∧ children <$> h' !! 1 = Some [4; 2; 3].
Proof. eexists. split; vm_compute; reflexivity. Qed.

(** C6 as stated: the ['id'] of the record for the removed [A] would be the
    id of [A]; it is the id of the parent [D]. *)
Lemma removed_record_carries_parent_id :
  ∃ change,
    delivered (trace (world_of (remove_child 2 example_world)))
      = [(1, change)] ∧
    change !! "type" = Some (VStr "removed") ∧
    change !! "id" = Some (VStr "D") ∧
    id_of example_heap 2 = VStr "A" ∧
    change !! "id" ≠ Some (id_of example_heap 2).
Proof.
  eexists. split; [vm_compute; reflexivity|].
  split; [reflexivity|]. split; [reflexivity|]. split; [reflexivity|].
  vm_compute. discriminate.
Qed.

(** Scenario 4: [A] removed from the active document. *)
Lemma remove_child_emits_one_removed_witness :
  ∃ hd h',
    remove_child 2 example_world = child_removed 1 2 (World hd [])
    ∧ children <$> hd !! 1 = Some [3; 4]
    ∧ parent <$> hd !! 2 = Some None
    ∧ child_removed 1 2 (World hd []) =
      Ok tt (World h'
               [ProxyChildRemoved 1 2;
                Modified 1 {[ "id" := VStr "D"; "type" := VStr "removed";
                              "name" := VStr "children";
                              "value" := VStr "A" ]}])
    ∧ ({[ "id" := VStr "D"; "type" := VStr "removed";
          "name" := VStr "children"; "value" := VStr "A" ]} : dict)
        !! "before" = None
    ∧ children <$> h' !! 1 = Some [3; 4].
Proof.
  apply (remove_child_emits_one_removed 1 2
           example_world (example_obj Html "D" None [2; 3; 4] true)
           (example_obj (Tag [] []) "A" (Some 1) [] true) [3; 4] [] 1
           (example_obj Html "D" None [2; 3; 4] true));
    try reflexivity; try discriminate.
  apply example_chain_1.
Defined.

(** Scenario 6: the same mutations on the document before [prepare], and
    the insertion of [C] once the document is initialized. *)
Lemma inactive_tag_is_silent_witness :
  (@Atom_setattr example_proxy 4 "text" (VStr "hello") inactive_world
   = Ok tt (World (<[4 := set_slot "text" (VStr "hello")
                             (example_obj (Tag [] []) "B" (Some 1) [] false)]>
                     inactive_heap) [])
   ∧ @Atom_setattr example_proxy 4 "text" VNone inactive_world
     = Raise TypeError inactive_world)
  ∧ (∃ h', @insert_child example_proxy 1 (Some 4) 5 inactive_world
           = Ok tt (World h' [])
           ∧ children <$> h' !! 1 = Some [2; 5; 4])
  ∧ (∃ h', @insert_child example_proxy 1 (Some 4) 5 initialized_world
           = Ok tt (World h' [Initialize 5])
           ∧ children <$> h' !! 1 = Some [2; 5; 4])
  ∧ (∃ h', remove_child 2 inactive_world = Ok tt (World h' [])
           ∧ children <$> h' !! 1 = Some [4]).
Proof.
  split; [|split; [|split]].
  - split.
    + rewrite (proj1 (@inactive_tag_is_silent example_proxy 4 inactive_world
                 (example_obj (Tag [] []) "B" (Some 1) [] false)
                 eq_refl eq_refl eq_refl) "text" Str _ eq_refl).
      reflexivity.
    + rewrite (proj1 (@inactive_tag_is_silent example_proxy 4 inactive_world
                 (example_obj (Tag [] []) "B" (Some 1) [] false)
                 eq_refl eq_refl eq_refl) "text" Str _ eq_refl).
      reflexivity.
  - destruct (proj1 (proj2 (@inactive_tag_is_silent example_proxy 1
             inactive_world (example_obj Html "D" None [2; 4] false)
             eq_refl eq_refl eq_refl)) (Some 4) 5
             (example_obj (Tag [] []) "C" None [] false))
      as (h' & evs & H1 & _ & [->|[Hi _]] & _ & H2 & _).
    + reflexivity.
    + discriminate.
    + left. split; [reflexivity|]. rewrite list_elem_of_In. simpl. lia.
    + exists h'. split; [exact H1|exact H2].
    + discriminate Hi.
  - destruct (proj1 (proj2 (@inactive_tag_is_silent example_proxy 1
             initialized_world
             (Obj Html {[ "id" := VStr "D" ]} None [2; 4] true false)
             eq_refl eq_refl eq_refl)) (Some 4) 5
             (example_obj (Tag [] []) "C" None [] false))
      as (h' & evs & H1 & _ & _ & _ & H2 & _).
    + reflexivity.
    + discriminate.
    + left. split; [reflexivity|]. rewrite list_elem_of_In. simpl. lia.
    + exists h'. split; [|exact H2].
      rewrite H1. f_equal. f_equal.
      assert (Hw : world_of (@insert_child example_proxy 1 (Some 4) 5
                               initialized_world)
                   = World h' ([] ++ evs)) by (by rewrite H1).
      apply (f_equal trace) in Hw. vm_compute in Hw. by subst.
  - apply (proj2 (proj2 (@inactive_tag_is_silent example_proxy 1
             inactive_world (example_obj Html "D" None [2; 4] false)
             eq_refl eq_refl eq_refl)) 2
             (example_obj (Tag [] []) "A" (Some 1) [] false) [4]);
      [reflexivity|discriminate|reflexivity|reflexivity].
Defined.

(** The pattern node (object 3) of the example document: its hooks are
    silent, moving or removing it delivers nothing, and the record for [A]
    in front of it is anchored at [B]. *)
Lemma non_tag_children_are_transparent_witness :
  (@child_added example_proxy 1 3 example_world = Ok tt example_world ∧
   @child_moved example_proxy 1 3 example_world = Ok tt example_world ∧
   child_removed 1 3 example_world = Ok tt example_world)
  ∧ (new_records example_world
       (world_of (@insert_child example_proxy 1 None 3 example_world)) = []
     ∧ new_records example_world
         (world_of (remove_child 3 example_world)) = [])
  ∧ ∃ x, x ∈ following 2 [2; 3; 4] ∧ is_tag example_heap x = true ∧
         VStr "B" = id_of example_heap x.
Proof.
  pose proof (@non_tag_children_are_transparent example_proxy)
    as (Hhooks & Hops & Hanchor).
  split; [|split].
  - apply (Hhooks 1 3 example_world (Obj Object ∅ (Some 1) [] false false));
      reflexivity.
  - destruct (Hops 1 None 3 example_world
                (example_obj Html "D" None [2; 3; 4] true)
                (Obj Object ∅ (Some 1) [] false false)) as [H1 H2];
      try reflexivity; try discriminate.
    + right. split; [reflexivity|]. rewrite list_elem_of_In. simpl. lia.
    + split; [exact H1|]. by apply H2.
  - apply (Hanchor 1 2 example_world
             (example_obj Html "D" None [2; 3; 4] true)
             (example_obj (Tag [] []) "A" (Some 1) [] true)
             (1, {[ "id" := VStr "D"; "type" := VStr "added";
                    "name" := VStr "children"; "value" := VStr "<2>";
                    "before" := VStr "B" ]})
             (VStr "B"));
      try reflexivity; try discriminate.
    + rewrite list_elem_of_In. simpl. lia.
    + apply example_children_allocated.
    + left. vm_compute. left.
Defined.

(** [prepare(text='hi')] twice on the fresh tag [C]. *)
Lemma prepare_is_idempotent_witness :
  let w := world_of (@prepare example_proxy 5 [("text", VStr "hi")]
                       example_world) in
  trace w = [Initialize 5; ActivateProxy 5]
  ∧ @prepare example_proxy 5 [("text", VStr "hi")] w = Ok tt w.
Proof.
  split; [vm_compute; reflexivity|].
  apply (proj2 (@prepare_is_idempotent example_proxy 5 [("text", VStr "hi")])
           example_world).
  - repeat constructor. rewrite list_elem_of_In. simpl. tauto.
  - vm_compute. reflexivity.
Defined.

(** [C] is inserted between [A] and [B] and then moved to the end. *)
Example scenario_move_to_end :
  let w := world_of (@run_ops example_proxy 1 [Insert (Some 4) 5] tags_world) in
  new_records w (world_of (@apply_op example_proxy 1 (Insert None 5) w))
  = [(1, {[ "id" := VStr "D"; "type" := VStr "moved";
            "name" := VStr "children"; "value" := VStr "C" ]})].
Proof. vm_compute. reflexivity. Qed.

(** The record of that move has no ['before']: nothing follows [C]. *)
Lemma before_is_the_following_sibling_witness :
  anchored 1 5
    (world_of (@run_ops example_proxy 1 [Insert (Some 4) 5] tags_world))
    (world_of (@apply_op example_proxy 1 (Insert None 5)
       (world_of (@run_ops example_proxy 1 [Insert (Some 4) 5] tags_world)))).
Proof.
  apply (@before_is_the_following_sibling example_proxy [2; 4; 5] 1
           [Insert (Some 4) 5] (Insert None 5) tags_world).
  - vm_compute. reflexivity.
  - repeat constructor; rewrite list_elem_of_In; simpl; lia.
  - vm_compute. reflexivity.
Defined.

(** * Further properties of the code *)

Section Clip.
Context {A : Type}.
Implicit Types s : list A.

(** X1. [clip] returns a prefix of its argument.  For [n >= 0] it has the
    length [min(len(s), n)]; for a negative [n] it is [s] without its last
    [-n] elements (nothing is left when [s] is shorter). *)
Theorem clip_is_a_bounded_prefix s (n : Z) :
  clip s n `prefix_of` s ∧
  length (clip s n)
    = (if (0 <=? n)%Z then length s `min` Z.to_nat n
       else length s - Z.to_nat (- n)).
Proof.
  unfold clip, py_slice_to.
  destruct (Z.leb_spec (Z.of_nat (length s)) n) as [Hle|Hlt].
  - split; [done|].
    destruct (Z.leb_spec 0 n); [|lia].
    lia.
  - destruct (Z.leb_spec 0 n).
    + split; [apply prefix_take|]. rewrite length_take. lia.
    + split; [apply prefix_take|]. rewrite length_take. lia.
Qed.

(** X2. Clipping twice with bounds [n, m >= 0] is clipping once with the
    smaller bound; in particular [clip] with one bound is idempotent. *)
Theorem clip_clip s (n m : Z) :
  (0 ≤ n)%Z → (0 ≤ m)%Z →
  clip (clip s n) m = clip s (n `min` m)%Z.
Proof.
  intros Hn Hm. unfold clip, py_slice_to.
  rewrite !(proj2 (Z.leb_le 0 _)) by lia.
  destruct (Z.leb_spec (Z.of_nat (length s)) n) as [Hle|Hlt].
  - destruct (Z.leb_spec (Z.of_nat (length s)) m),
      (Z.leb_spec (Z.of_nat (length s)) (n `min` m)%Z);
      try lia; try done.
    f_equal. lia.
  - rewrite length_take.
    destruct (Z.leb_spec (Z.of_nat (Z.to_nat n `min` length s)) m),
      (Z.leb_spec (Z.of_nat (length s)) (n `min` m)%Z);
      try lia.
    + f_equal. lia.
    + rewrite take_take. f_equal. lia.
Qed.

End Clip.

(** With a negative bound [clip] is not idempotent: each call drops more. *)
Example clip_negative_bound :
  clip [1; 2; 3; 4; 5] (-2) = [1; 2; 3] ∧
  clip (clip [1; 2; 3; 4; 5] (-2)) (-2) = [1].
Proof. split; reflexivity. Qed.

Lemma clip_clip_witness :
  clip (clip [1; 2; 3; 4; 5] 3) 3 = clip [1; 2; 3; 4; 5] 3.
Proof. apply (clip_clip [1; 2; 3; 4; 5] 3 3); lia. Defined.

Section DefaultId.

Lemma to_hex_uint_not_Nil n : N.to_hex_uint n ≠ Hexadecimal.Nil.
Proof.
  destruct n as [|p]; [done|]. apply HexadecimalPos.Unsigned.to_uint_nonnil.
Qed.

Lemma int16_default_id r : int16 (_default_id r) = Some r.
Proof.
  unfold int16, _default_id.
  rewrite HexadecimalString.NilZero.usu by apply to_hex_uint_not_Nil.
  simpl. by rewrite HexadecimalN.Unsigned.of_to, Nat2N.id.
Qed.

(** X3. Two objects that are alive together and whose [id] was never
    assigned get different ids when their ids are read: each id is the
    hexadecimal print of the object's identity, reads back as that
    identity, and is kept by the object. *)
Theorem default_ids_of_live_objects_differ h tr r1 r2 o1 o2 :
  h !! r1 = Some o1 → h !! r2 = Some o2 → r1 ≠ r2 →
  slots o1 !! "id" = None → slots o2 !! "id" = None →
  ∃ s1 s2 h1 h2,
    getattr_id r1 (World h tr) = Ok (VStr s1) (World h1 tr) ∧
    getattr_id r2 (World h1 tr) = Ok (VStr s2) (World h2 tr) ∧
    int16 s1 = Some r1 ∧ int16 s2 = Some r2 ∧ s1 ≠ s2 ∧
    id_of h2 r1 = VStr s1 ∧ id_of h2 r2 = VStr s2.
Proof.
  intros H1 H2 Hne Hn1 Hn2.
  exists (_default_id r1), (_default_id r2), (fill_id r1 h),
    (fill_id r2 (fill_id r1 h)).
  assert (H2' : fill_id r1 h !! r2 = Some o2)
    by (by rewrite lookup_fill_id_ne).
  pose proof (bind_getattr_id r1 ret h tr o1 H1) as E1.
  pose proof (bind_getattr_id r2 ret (fill_id r1 h) tr o2 H2') as E2.
  unfold bind, ret in E1, E2. unfold id_value in E1, E2.
  rewrite Hn1 in E1. rewrite Hn2 in E2. simpl in E1, E2.
  split; [by destruct (getattr_id r1 (World h tr))|].
  split; [by destruct (getattr_id r2 (World (fill_id r1 h) tr))|].
  split; [apply int16_default_id|]. split; [apply int16_default_id|].
  split.
  { intros Heq. apply (f_equal int16) in Heq.
    rewrite !int16_default_id in Heq. by injection Heq. }
  assert (Hid : ∀ r o x, x !! r = Some o → slots o !! "id" = None →
                         id_of (fill_id r x) r = VStr (_default_id r)).
  { intros r o x Hr Hn. unfold id_of, fill_id.
    rewrite lookup_alter_eq, Hr. simpl.
    by rewrite fill_id_obj_id_value; unfold id_value; rewrite Hn. }
  split; [|by apply (Hid r2 o2)].
  rewrite (steady_id_of _ _ r1 (steady_fill_id r2 (fill_id r1 h))).
  by apply (Hid r1 o1).
Qed.

End DefaultId.

Section HooksFurther.
Context {proxy : ProxyTag}.

Lemma lookup_fill_id x h r :
  fill_id x h !! r = if decide (x = r) then fill_id_obj x <$> h !! r else h !! r.
Proof.
  unfold fill_id. destruct (decide (x = r)) as [->|Hne].
  - apply lookup_alter_eq.
  - by apply lookup_alter_ne.
Qed.

Lemma fill_id_obj_flags x o :
  is_initialized (fill_id_obj x o) = is_initialized o ∧
  proxy_is_active (fill_id_obj x o) = proxy_is_active o.
Proof. unfold fill_id_obj. by destruct (slots o !! "id"). Qed.

Lemma fill_id_keeps_flags x h r o :
  h !! r = Some o →
  ∃ o', fill_id x h !! r = Some o' ∧
        is_initialized o' = is_initialized o ∧
        proxy_is_active o' = proxy_is_active o.
Proof.
  intros Hr. rewrite lookup_fill_id, Hr. destruct (decide (x = r)); simpl.
  - eexists. split; [done|]. apply fill_id_obj_flags.
  - eauto.
Qed.

Lemma fill_anchor_keeps_flags a h r o :
  h !! r = Some o →
  ∃ o', fill_anchor a h !! r = Some o' ∧
        is_initialized o' = is_initialized o ∧
        proxy_is_active o' = proxy_is_active o.
Proof. destruct a; simpl; [apply fill_id_keeps_flags|eauto]. Qed.

Lemma list_index_notin cs child : child ∉ cs → list_index cs child = None.
Proof.
  induction cs as [|x cs IH]; simpl; [done|]. intros Hnin.
  apply not_elem_of_cons in Hnin as [Hne Hnin].
  destruct (decide (x = child)); [congruence|]. by rewrite IH.
Qed.

(** X4. The loop that looks for the anchor stops at the nearest tag: when it
    sets ['before'], every object it passed is no [Tag], the object it
    stopped at is one, and ['before'] is its id; when it leaves the record
    as it is, no object of the list is a [Tag]. *)
Theorem while_before_stops_at_the_nearest_tag rest change w :
  Forall (λ x, is_Some (heap w !! x)) rest →
  (∃ pre c post,
      rest = pre ++ c :: post ∧
      Forall (λ x, is_tag (heap w) x = false) pre ∧
      is_tag (heap w) c = true ∧
      while_before rest change w
        = Ok (<["before" := id_of (heap w) c]> change)
             (World (fill_id c (heap w)) (trace w)))
  ∨ (Forall (λ x, is_tag (heap w) x = false) rest ∧
     while_before rest change w = Ok change w).
Proof.
  destruct w as [h tr]. simpl.
  induction 1 as [|x rest [o Ho] Hall IH].
  - right. split; [constructor|done].
  - simpl. rewrite (bind_lookup_obj _ _ _ _ _ Ho).
    destruct (isinstance_Tag (class_of o)) eqn:Htag.
    + left. exists [], x, rest. split; [done|]. split; [constructor|].
      split; [unfold is_tag; by rewrite Ho|].
      rewrite (bind_getattr_id _ _ _ _ _ Ho). unfold id_of. by rewrite Ho.
    + assert (Hx : is_tag h x = false) by (unfold is_tag; by rewrite Ho).
      destruct IH as [(pre & c & post & -> & Hpre & Hc & Heq)|[Hnone Heq]].
      * left. exists (x :: pre), c, post. split; [done|].
        split; [by constructor|]. split; [done|exact Heq].
      * right. split; [by constructor|exact Heq].
Qed.

(** X5. After [child_added] has run for a tag on an active parent, the child
    is initialized and active, whether the hook returned or raised. *)
Theorem child_added_leaves_the_child_active self child w s c :
  heap w !! self = Some s → proxy_is_active s = true →
  heap w !! child = Some c → isinstance_Tag (class_of c) = true →
  child ≠ self → child ∈ children s →
  Forall (λ x, is_Some (heap w !! x)) (children s) →
  ∃ c', heap (world_of (child_added self child w)) !! child = Some c' ∧
        is_initialized c' = true ∧ proxy_is_active c' = true.
Proof.
  destruct w as [h tr]. simpl. intros Hs Hact Hc Htag Hne Hin Hall.
  rewrite (child_added_eq _ _ _ _ _ _ Hs Hact Hc Htag Hne Hin Hall).
  pose proof (lookup_added_heap _ _ _ Hc) as Hc1.
  destruct (fill_id_keeps_flags self _ _ _ Hc1) as (c1 & Hc1' & Hi1 & Ha1).
  simpl in Hi1, Ha1.
  destruct (proxy_render _ child) as [markup|]; simpl.
  - destruct (fill_anchor_keeps_flags
                (anchor h (children s) child) _ _ _ Hc1')
      as (c2 & Hc2 & Hi2 & Ha2).
    match goal with
    | |- context [_notify_modified self ?ch (World ?h2 ?tr2)] =>
        destruct (notify_modified_outcome self ch h2 tr2) as (tr' & -> & _)
    end.
    simpl. exists c2. split; [done|]. split; congruence.
  - exists c1. split; [done|]. split; congruence.
Qed.

(** X6. When the child's proxy does not implement [render], [child_added]
    raises [NotImplementedError] after the parent's proxy has been handed
    the child: the proxy calls are on the trace and no record is
    delivered. *)
Theorem child_added_without_render self child w s c :
  heap w !! self = Some s → proxy_is_active s = true →
  heap w !! child = Some c → isinstance_Tag (class_of c) = true →
  child ≠ self → child ∈ children s →
  Forall (λ x, is_Some (heap w !! x)) (children s) →
  proxy_render (trace w ++ added_prelude c self child) child = None →
  ∃ w', child_added self child w = Raise NotImplementedError w' ∧
        trace w' = trace w ++ added_prelude c self child ∧
        ProxyChildAdded self child ∈ trace w' ∧
        delivered (trace w') = delivered (trace w).
Proof.
  destruct w as [h tr]. simpl. intros Hs Hact Hc Htag Hne Hin Hall Hr.
  rewrite (child_added_eq _ _ _ _ _ _ Hs Hact Hc Htag Hne Hin Hall), Hr.
  eexists. split; [done|]. simpl. split; [done|]. split.
  - unfold added_prelude. rewrite !elem_of_app. right. right. right. by left.
  - by rewrite delivered_app, delivered_added_prelude, app_nil_r.
Qed.

(** X7. A hook called for a tag that is not among the children of the
    active parent fails at [children.index(child)]: [child_added] raises
    [ValueError] after the child was rendered, and [child_moved] raises it
    when the proxy has moved the child and returns normally when the proxy
    refused.  No record is delivered in either case. *)
Theorem hooks_for_a_stranger self child w s c :
  heap w !! self = Some s → proxy_is_active s = true →
  heap w !! child = Some c → isinstance_Tag (class_of c) = true →
  child ≠ self → child ∉ children s →
  (∀ markup,
      proxy_render (trace w ++ added_prelude c self child) child
        = Some markup →
      ∃ w', child_added self child w = Raise ValueError w' ∧
            trace w' = trace w ++ added_prelude c self child
                       ++ [ProxyRender child markup])
  ∧ (∃ h',
      child_moved self child w =
      if proxy_child_moved (trace w) self child
      then Raise ValueError
             (World h' (trace w ++ [ProxyChildMoved self child true]))
      else Ok tt (World (heap w)
                    (trace w ++ [ProxyChildMoved self child false]))).
Proof.
  destruct w as [h tr]. simpl. intros Hs Hact Hc Htag Hne Hnin.
  pose proof (list_index_notin _ _ Hnin) as Hidx. split.
  - intros markup Hr. unfold child_added.
    rewrite (ToolkitObject_child_added_eq _ _ _ _ _ _ _ Hs Hact Hc Htag).
    pose proof (lookup_added_heap _ _ _ Hc) as Hc1.
    destruct (steady_lookup _ _ _ _ (steady_added_heap c child h) Hs)
      as (s1 & Hs1 & _ & _ & Hcs1 & _ & Hact1).
    rewrite (bind_lookup_obj _ _ _ _ _ Hc1). simpl. rewrite Htag.
    rewrite (bind_lookup_obj _ _ _ _ _ Hs1), (Hact1 Hact).
    rewrite (bind_getattr_id _ _ _ _ _ Hs1).
    assert (Hc2 : fill_id self (added_heap c child h) !! child
                  = Some (activate_obj c))
      by (by rewrite lookup_fill_id_ne).
    unfold render. mnorm.
    rewrite (prepare_noop_eq _ _ _ _ _ Hc2) by done.
    unfold call_proxy_render. mnorm. rewrite Hr. mnorm.
    destruct (steady_lookup _ _ _ _
                (steady_fill_id self (added_heap c child h)) Hs1)
      as (s2 & Hs2 & _ & _ & Hcs & _).
    rewrite (bind_lookup_obj _ _ _ _ _ Hs2), Hcs, Hcs1.
    unfold index. rewrite Hidx. unfold bind at 1, raise.
    eexists. split; [done|]. simpl. by rewrite <- app_assoc.
  - unfold child_moved, Object_child_moved. mnorm.
    rewrite (bind_lookup_obj _ _ _ _ _ Hc), Htag.
    rewrite (bind_lookup_obj _ _ _ _ _ Hs), Hact.
    unfold call_proxy_child_moved. mnorm.
    destruct (proxy_child_moved tr self child); [|by exists h].
    rewrite (bind_getattr_id _ _ _ _ _ Hs).
    destruct (steady_lookup _ _ _ _ (steady_fill_id self h) Hc)
      as (c1 & Hc1 & _).
    rewrite (bind_getattr_id _ _ _ _ _ Hc1).
    assert (Hst : steady h (fill_id child (fill_id self h))).
    { eapply steady_trans; apply steady_fill_id. }
    destruct (steady_lookup _ _ _ _ Hst Hs) as (s2 & Hs2 & _ & _ & Hcs & _).
    rewrite (bind_lookup_obj _ _ _ _ _ Hs2), Hcs.
    unfold index. rewrite Hidx. unfold bind at 1, raise. eauto.
Qed.

End HooksFurther.

Section PrepareFurther.
Context {proxy : ProxyTag}.

Lemma apply_kwargs_flags kwargs o :
  class_of (apply_kwargs kwargs o) = class_of o ∧
  is_initialized (apply_kwargs kwargs o) = is_initialized o ∧
  proxy_is_active (apply_kwargs kwargs o) = proxy_is_active o.
Proof.
  revert o. induction kwargs as [|kv kwargs IH]; intros o; [done|].
  simpl. destruct (IH (set_slot kv.1 kv.2 o)) as (-> & -> & ->). done.
Qed.

(** Keyword arguments that the members of a class keep as they are. *)
Lemma for_each_Atom_setattr_inactive self kwargs h tr s :
  h !! self = Some s → proxy_is_active s = false →
  (∀ k v, (k, v) ∈ kwargs →
          ∃ m, member_of (class_of s) k = Some m ∧ validate m v = inr v) →
  for_each kwargs (λ kv, Atom_setattr self kv.1 kv.2) (World h tr)
  = Ok tt (World (<[self := apply_kwargs kwargs s]> h) tr).
Proof.
  revert h s. induction kwargs as [|[k v] kwargs IH]; intros h s Hs Hact Hok.
  - simpl. by rewrite insert_id.
  - simpl. unfold bind.
    rewrite (Atom_setattr_inactive_eq _ _ _ _ _ _ Hs Hact). simpl.
    destruct (Hok k v) as (m & Hm & Hv); [by left|].
    assert (Hstep : (if bool_decide (slots s !! k = Some v)
                     then Ok tt (World h tr)
                     else match member_of (class_of s) k with
                          | Some m =>
                              match validate m v with
                              | inl e => Raise e (World h tr)
                              | inr v' =>
                                  Ok tt (World (<[self := set_slot k v' s]> h)
                                           tr)
                              end
                          | None => Raise AttributeError (World h tr)
                          end)
                    = Ok tt (World (<[self := set_slot k v s]> h) tr)).
    { destruct (bool_decide (slots s !! k = Some v)) eqn:Hd.
      - apply bool_decide_eq_true in Hd.
        by rewrite (set_slot_same _ _ _ Hd), insert_id.
      - by rewrite Hm, Hv. }
    rewrite Hstep.
    rewrite (IH _ (set_slot k v s)); [|apply lookup_insert_eq|done|].
    + by rewrite insert_insert_eq.
    + intros k' v' Hin. apply Hok. by right.
Qed.

Lemma prepare_inactive_eq {B} self kwargs (k : unit → M B) h tr s :
  h !! self = Some s → proxy_is_active s = false →
  (∀ k v, (k, v) ∈ kwargs →
          ∃ m, member_of (class_of s) k = Some m ∧ validate m v = inr v) →
  let h1 := <[self := apply_kwargs kwargs s]> h in
  let h2 := if is_initialized s then h1 else initialize_tree self h1 in
  bind (prepare self kwargs) k (World h tr) =
  k tt (World (activate_tree self h2)
          (tr ++ (if is_initialized s then [] else [Initialize self])
              ++ [ActivateProxy self])).
Proof.
  intros Hs Hact Hok h1 h2. unfold prepare. rewrite !bind_assoc.
  rewrite (bind_of_Ok _ _ _ _ _
             (for_each_Atom_setattr_inactive _ kwargs _ tr _ Hs Hact Hok)).
  fold h1. mnorm.
  destruct (apply_kwargs_flags kwargs s) as (_ & Hi & Ha).
  set (s1 := apply_kwargs kwargs s) in *.
  assert (Hs1 : h1 !! self = Some s1) by apply lookup_insert_eq.
  rewrite (bind_lookup_obj _ _ _ _ _ Hs1). rewrite Hi.
  unfold when, negb, h2.
  destruct (is_initialized s) eqn:Hinit; mnorm.
  - rewrite (bind_lookup_obj _ _ _ _ _ Hs1), Ha, Hact.
    by rewrite (bind_activate_proxy _ _ _ _ _ Hs1).
  - rewrite (bind_initialize _ _ _ _ _ Hs1). mnorm.
    rewrite (bind_lookup_obj _ _ _ _ _ (lookup_initialize_tree _ _ _ Hs1)).
    simpl. rewrite Ha, Hact.
    rewrite (bind_activate_proxy _ _ _ _ _
               (lookup_initialize_tree _ _ _ Hs1)).
    by rewrite <- app_assoc.
Qed.

Lemma prepare_events (b : bool) self :
  Forall (λ e, ∃ x, e = Initialize x ∨ e = ActivateProxy x)
    ((if b then [] else [Initialize self]) ++ [ActivateProxy self]).
Proof. destruct b; repeat constructor; eauto. Qed.

Lemma delivered_prepare_events tr (b : bool) self :
  delivered (tr ++ (if b then [] else [Initialize self])
                ++ [ActivateProxy self]) = delivered tr.
Proof. rewrite delivered_app. destruct b; simpl; by rewrite app_nil_r. Qed.

(** X8. [prepare] on a tag whose proxy is not active stores the keyword
    arguments that the members accept as they are, without a call on a
    proxy and without a record.  Only then it initializes the tree that
    hangs on the tag, when the tag is not initialized, and activates the
    tag and every tag below it (every object that a way through tags leads
    to); nothing is delivered. *)
Theorem prepare_stores_before_it_activates self kwargs w s :
  heap w !! self = Some s → proxy_is_active s = false →
  (∀ k v, (k, v) ∈ kwargs →
          ∃ m, member_of (class_of s) k = Some m ∧ validate m v = inr v) →
  let h1 := <[self := apply_kwargs kwargs s]> (heap w) in
  let h2 := if is_initialized s then h1 else initialize_tree self h1 in
  ∃ evs,
    prepare self kwargs w
      = Ok tt (World (activate_tree self h2) (trace w ++ evs)) ∧
    Forall (λ e, ∃ x, e = Initialize x ∨ e = ActivateProxy x) evs ∧
    delivered (trace w ++ evs) = delivered (trace w) ∧
    ∀ l x o, tree_path h2 self l x → NoDup (self :: l) → h2 !! x = Some o →
             activate_tree self h2 !! x = Some (set_proxy_is_active true o).
Proof.
  destruct w as [h tr]. simpl. intros Hs Hact Hok.
  exists ((if is_initialized s then [] else [Initialize self])
          ++ [ActivateProxy self]).
  split; [|split; [|split]].
  - pose proof (prepare_inactive_eq self kwargs ret h tr s Hs Hact Hok) as H.
    unfold bind in H. simpl in H.
    destruct (prepare self kwargs (World h tr)); exact H.
  - apply prepare_events.
  - apply delivered_prepare_events.
  - intros l x o Hp Hnd Ho. apply activate_tree_active; [|done].
    by eapply tree_complete.
Qed.

(** X9. [render] on a tag whose proxy is not active prepares it, the tree
    below it included, and then asks the proxy for the markup: it returns
    what the proxy renders and delivers no record.  Where the proxy does
    not implement [render] it raises [NotImplementedError], and the tag is
    left prepared.  On a tag that is initialized and active, [render()]
    only asks the proxy. *)
Theorem render_prepares_then_asks_the_proxy self w s :
  heap w !! self = Some s →
  (proxy_is_active s = false →
   ∀ kwargs,
     (∀ k v, (k, v) ∈ kwargs →
             ∃ m, member_of (class_of s) k = Some m ∧ validate m v = inr v) →
     let h1 := <[self := apply_kwargs kwargs s]> (heap w) in
     let h2 := if is_initialized s then h1 else initialize_tree self h1 in
     let h' := activate_tree self h2 in
     ∃ evs,
       Forall (λ e, ∃ x, e = Initialize x ∨ e = ActivateProxy x) evs ∧
       render self kwargs w =
       match proxy_render (trace w ++ evs) self with
       | Some markup =>
           Ok markup (World h' ((trace w ++ evs) ++ [ProxyRender self markup]))
       | None => Raise NotImplementedError (World h' (trace w ++ evs))
       end)
  ∧ (is_initialized s = true → proxy_is_active s = true →
     render self [] w =
     match proxy_render (trace w) self with
     | Some markup =>
         Ok markup (World (heap w) (trace w ++ [ProxyRender self markup]))
     | None => Raise NotImplementedError w
     end).
Proof.
  destruct w as [h tr]. simpl. intros Hs. split.
  - intros Hact kwargs Hok.
    exists ((if is_initialized s then [] else [Initialize self])
            ++ [ActivateProxy self]).
    split; [apply prepare_events|].
    unfold render.
    rewrite (prepare_inactive_eq _ _ _ _ _ _ Hs Hact Hok).
    unfold call_proxy_render. mnorm.
    destruct (proxy_render _ self); [by mnorm|done].
  - intros Hi Ha. unfold render.
    rewrite (prepare_noop_eq _ _ _ _ _ Hs Hi Ha).
    unfold call_proxy_render. mnorm.
    destruct (proxy_render tr self); [by mnorm|done].
Qed.

End PrepareFurther.

Section AssignmentFurther.
Context {proxy : ProxyTag}.






End AssignmentFurther.

Section DefaultName.
Context {proxy : ProxyTag}.





End DefaultName.

Section RunsFurther.
Context {proxy : ProxyTag}.

Lemma record_is_children_record i t v b :
  t ∈ ["added"; "moved"; "removed"] → children_record i (record i t v b).
Proof.
  intros Ht. unfold children_record, record, with_before.
  destruct b as [x|]; (split; [|split; [|exists t; split; [|done]]]);
    by simplify_map_eq.
Qed.

(** The records one operation delivers from a state of the invariant. *)
Lemma apply_op_records pool self o w :
  pool_inv pool self (heap w) → affected o ∈ pool →
  ∃ recs,
    delivered (trace (world_of (apply_op self o w)))
      = delivered (trace w) ++ recs ∧
    length recs ≤ 1 ∧
    Forall (λ rc, children_record (id_of (heap w) self) rc.2) recs ∧
    id_of (heap (world_of (apply_op self o w))) self = id_of (heap w) self.
Proof.
  destruct w as [h tr]. simpl. intros Hinv Hin.
  pose proof Hinv as (s & Hs & Htag & Hact & Hnd & Hself & Hcs & Hpool).
  destruct (Hpool _ Hin) as (c & Hc & Hctag & Hp).
  assert (Hne : affected o ≠ self) by (intros Heq; by rewrite Heq in Hin).
  assert (Hid : id_of h self = id_value self s)
    by (unfold id_of; by rewrite Hs).
  assert (Hnone : ∀ h' tr', delivered tr' = delivered tr →
            id_of h' self = id_of h self →
            ∃ recs, delivered tr' = delivered tr ++ recs ∧ length recs ≤ 1 ∧
              Forall (λ rc, children_record (id_of h self) rc.2) recs ∧
              id_of h' self = id_of h self).
  { intros h' tr' Hd Hi. exists []. rewrite app_nil_r. simpl.
    repeat split; [done|lia|constructor|done]. }
  assert (Hone : ∀ h' tr' root t v b,
            delivered tr' = delivered tr
                            ++ [(root, record (id_value self s) t v b)] →
            t ∈ ["added"; "moved"; "removed"] →
            id_of h' self = id_of h self →
            ∃ recs, delivered tr' = delivered tr ++ recs ∧ length recs ≤ 1 ∧
              Forall (λ rc, children_record (id_of h self) rc.2) recs ∧
              id_of h' self = id_of h self).
  { intros h' tr' root t v b Hd Ht Hi. eexists. split; [exact Hd|].
    split; [simpl; lia|]. split; [|done].
    apply Forall_singleton. simpl. rewrite Hid.
    by apply record_is_children_record. }
  destruct o as [before child|child]; simpl in *.
  - set (cs := new_children before [child] (children s)).
    assert (Hchild : child ∈ cs) by apply child_in_new_children.
    assert (Hinv2 : pool_inv pool self
              (alter (set_children cs) self
                 (alter (set_parent_field (Some self)) child h))).
    { pose proof (pool_inv_relink pool self child h s c cs Hinv Hs Hin Hc) as H.
      rewrite bool_decide_eq_true_2 in H by done. apply H.
      - by apply NoDup_new_children.
      - intros x Hx. apply elem_of_new_children in Hx as [->|Hx]; auto.
      - intros x Hx. unfold cs. rewrite elem_of_new_children_iff. naive_solver. }
    destruct (decide (child ∈ children s)) as [Hold|Hold].
    + rewrite bool_decide_eq_true_2 in Hp by done.
      rewrite (insert_child_move_eq _ _ _ _ _ _ _ Hs Htag Hc Hne Hp Hold).
      fold cs.
      assert (Hsame : alter (set_parent_field (Some self)) child h = h).
      { apply alter_id. intros x Hx. rewrite Hc in Hx. injection Hx as <-.
        clear -Hp. destruct c. simpl in *. by subst. }
      rewrite Hsame in Hinv2.
      set (h2 := alter (set_children cs) self h) in *.
      assert (Hs2 : h2 !! self = Some (set_children cs s))
        by (unfold h2; by rewrite lookup_alter_eq, Hs).
      assert (Hc2 : h2 !! child = Some c)
        by (unfold h2; by rewrite lookup_alter_ne).
      destruct (pool_inv_children_allocated _ _ _ _ Hinv2 Hs2) as [Hall Htags].
      destruct (child_moved_outcome _ _ _ tr _ _ Hs2 Hact Hc2 Hctag Hchild Hall)
        as (h' & tr' & Hw & Hst & Hd).
      rewrite Hw. simpl.
      assert (Hi : id_of h' self = id_of h self).
      { rewrite (steady_id_of _ _ _ Hst). unfold h2. by apply id_of_alter. }
      destruct Hd as [Hd|(root & Hd)]; [by apply Hnone|].
      eapply Hone; [exact Hd| |done]. set_solver.
    + rewrite bool_decide_eq_false_2 in Hp by done.
      rewrite (insert_child_add_eq _ _ _ _ _ _ _ Hs Htag Hc Hne Hp Hold).
      fold cs.
      set (h2 := alter (set_children cs) self
                   (alter (set_parent_field (Some self)) child h)) in *.
      assert (Hs2 : h2 !! self = Some (set_children cs s))
        by (unfold h2; by rewrite lookup_alter_eq, lookup_alter_ne, Hs).
      assert (Hc2 : h2 !! child = Some (set_parent_field (Some self) c))
        by (unfold h2; by rewrite lookup_alter_ne, lookup_alter_eq, Hc).
      destruct (pool_inv_children_allocated _ _ _ _ Hinv2 Hs2) as [Hall Htags].
      destruct (child_added_outcome _ _ _ tr _ _ Hs2 Hact Hc2 Hctag Hne Hchild Hall)
        as (h' & tr' & Hw & Hst & Hd).
      rewrite Hw. simpl.
      assert (Hi : id_of h' self = id_of h self).
      { rewrite (steady_id_of _ _ _ Hst). unfold h2.
        rewrite id_of_alter by done. by apply id_of_alter. }
      destruct Hd as [Hd|(root & markup & Hd)]; [by apply Hnone|].
      eapply Hone; [exact Hd| |done]. set_solver.
  - destruct (decide (child ∈ children s)) as [Hold|Hold].
    + rewrite bool_decide_eq_true_2 in Hp by done.
      destruct (list_remove_elem _ _ Hold) as [cs Hrm].
      rewrite (remove_child_eq _ _ _ _ _ _ _ Hs Htag Hc Hne Hp Hrm).
      set (h2 := alter (set_children cs) self
                   (alter (set_parent_field None) child h)) in *.
      assert (Hs2 : h2 !! self = Some (set_children cs s))
        by (unfold h2; by rewrite lookup_alter_eq, lookup_alter_ne, Hs).
      assert (Hc2 : h2 !! child = Some (set_parent_field None c))
        by (unfold h2; by rewrite lookup_alter_ne, lookup_alter_eq, Hc).
      destruct (child_removed_outcome _ _ _ tr _ _ Hs2 Hact Hc2 Hctag)
        as (h' & tr' & Hw & Hst & Hd).
      rewrite Hw. simpl.
      assert (Hi : id_of h' self = id_of h self).
      { rewrite (steady_id_of _ _ _ Hst). unfold h2.
        rewrite id_of_alter by done. by apply id_of_alter. }
      destruct Hd as [Hd|(root & Hd)]; [by apply Hnone|].
      eapply Hone; [exact Hd| |done]. set_solver.
    + rewrite bool_decide_eq_false_2 in Hp by done.
      unfold remove_child. rewrite (bind_lookup_obj _ _ _ _ _ Hc), Hp. simpl.
      by apply Hnone.
Qed.

(** X14. A run of insertions, moves and removals of tags among the children
    of an active tag whose children are all tags delivers at most one
    record for each operation, whether the run returns or stops at an
    operation that raises.  Every one of these records carries the id of
    that tag, the name ['children'] and one of the types ['added'],
    ['moved'] and ['removed']. *)
Theorem run_delivers_children_records pool self ops w :
  tags_only pool self (heap w) = true →
  Forall (λ o, affected o ∈ pool) ops →
  ∃ recs,
    delivered (trace (world_of (run_ops self ops w)))
      = delivered (trace w) ++ recs ∧
    length recs ≤ length ops ∧
    Forall (λ rc, children_record (id_of (heap w) self) rc.2) recs.
Proof.
  intros Hinv Hall. apply tags_only_spec in Hinv. revert w Hinv.
  induction Hall as [|o ops Ho Hall IH]; intros w Hinv.
  - exists []. simpl. rewrite app_nil_r. repeat split; [done|constructor].
  - destruct (apply_op_records pool self o w Hinv Ho)
      as (recs1 & Hd1 & Hl1 & Hf1 & Hi1).
    destruct (apply_op_step pool self o w Hinv Ho) as [_ Hinv1].
    unfold run_ops. simpl. unfold bind.
    destruct (apply_op self o w) as [[] w1|e w1]; simpl in *.
    + destruct (IH w1 Hinv1) as (recs2 & Hd2 & Hl2 & Hf2).
      exists (recs1 ++ recs2). unfold run_ops in Hd2.
      rewrite Hd2, Hd1, app_assoc. split; [done|].
      rewrite length_app. split; [lia|].
      apply Forall_app. split; [done|]. by rewrite <- Hi1.
    + exists recs1. split; [done|]. split; [lia|done].
Qed.

Lemma following_app_cons child (pre rest : list ref) :
  child ∉ pre → following child (pre ++ child :: rest) = rest.
Proof.
  induction pre as [|x pre IH]; intros Hn; simpl.
  - by rewrite decide_True.
  - rewrite decide_False by set_solver. apply IH. set_solver.
Qed.

Lemma place_before_sibling b child old :
  NoDup old → b ∈ old → b ≠ child →
  ∃ pre post, place (Some b) [child] old = (pre ++ child :: b :: post, true)
              ∧ child ∉ pre.
Proof.
  intros Hnd Hb Hne. induction old as [|c old IH]; [by apply elem_of_nil in Hb|].
  apply NoDup_cons in Hnd as [Hc Hnd]. simpl.
  destruct (decide (c = child)) as [->|Hcc].
  - apply elem_of_cons in Hb as [Hb|Hb]; [done|].
    destruct (IH Hnd Hb) as (pre & post & -> & Hpre).
    rewrite bool_decide_eq_true_2 by set_solver. eauto.
  - destruct (decide (c = b)) as [->|Hcb].
    + destruct (place (Some b) [child] old) as [new added].
      rewrite bool_decide_eq_false_2 by set_solver.
      rewrite bool_decide_eq_true_2 by done.
      exists [], new. split; [done|]. apply not_elem_of_nil.
    + apply elem_of_cons in Hb as [Hb|Hb]; [done|].
      destruct (IH Hnd Hb) as (pre & post & -> & Hpre).
      rewrite bool_decide_eq_false_2 by set_solver.
      rewrite bool_decide_eq_false_2 by congruence.
      exists (c :: pre), post. split; [done|]. set_solver.
Qed.

Lemma next_sibling_new_children b child old :
  NoDup old → b ∈ old → b ≠ child →
  next_sibling (new_children (Some b) [child] old) child = Some b.
Proof.
  intros Hnd Hb Hne.
  destruct (place_before_sibling b child old Hnd Hb Hne)
    as (pre & post & Hpl & Hpre).
  unfold next_sibling, new_children. rewrite Hpl.
  by rewrite following_app_cons.
Qed.

(** X15. Inserting a tag in front of a sibling [b], whether the tag is new
    to the parent or one of its children already, puts it right before [b]
    in the children list, and the record delivered, if one is, names [b]:
    its ['before'] is the id of the sibling that was asked for.  This holds
    for an active tag whose children are all tags. *)
Theorem insertion_names_the_requested_sibling pool self b child w s :
  tags_only pool self (heap w) = true → child ∈ pool →
  heap w !! self = Some s → b ∈ children s → b ≠ child →
  ∃ recs s',
    delivered (trace (world_of (insert_child self (Some b) child w)))
      = delivered (trace w) ++ recs ∧
    length recs ≤ 1 ∧
    Forall (λ rc, rc.2 !! "before" = Some (id_of (heap w) b)) recs ∧
    heap (world_of (insert_child self (Some b) child w)) !! self = Some s' ∧
    next_sibling (children s') child = Some b.
Proof.
  destruct w as [h tr]. simpl. intros Hinv Hin Hs0 Hb Hbc.
  apply tags_only_spec in Hinv.
  pose proof Hinv as (s1 & Hs & Htag & Hact & Hnd & Hself & Hcs & Hpool).
  rewrite Hs0 in Hs. injection Hs as <-.
  rename Hs0 into Hs.
  destruct (Hpool _ Hin) as (c & Hc & Hctag & Hp).
  assert (Hne : child ≠ self) by (intros Heq; by rewrite Heq in Hin).
  set (cs := new_children (Some b) [child] (children s)).
  assert (Hnext : next_sibling cs child = Some b)
    by (by apply next_sibling_new_children).
  assert (Hchild : child ∈ cs) by apply child_in_new_children.
  assert (Hinv2 : pool_inv pool self
            (alter (set_children cs) self
               (alter (set_parent_field (Some self)) child h))).
  { pose proof (pool_inv_relink pool self child h s c cs Hinv Hs Hin Hc) as H.
    rewrite bool_decide_eq_true_2 in H by done. apply H.
    - by apply NoDup_new_children.
    - intros x Hx. apply elem_of_new_children in Hx as [->|Hx]; auto.
    - intros x Hx. unfold cs. rewrite elem_of_new_children_iff. naive_solver. }
  assert (Hfin : ∀ h2 h' tr' t v,
            h2 !! self = Some (set_children cs s) →
            Forall (λ x, is_tag h2 x = true) cs →
            id_of h2 b = id_of h b →
            steady h2 h' →
            delivered tr' = delivered tr ∨
            (∃ root, delivered tr' = delivered tr ++
               [(root, record (id_value self (set_children cs s)) t v
                         (id_of h2 <$> anchor h2 cs child))]) →
            ∃ recs s',
              delivered tr' = delivered tr ++ recs ∧ length recs ≤ 1 ∧
              Forall (λ rc, rc.2 !! "before" = Some (id_of h b)) recs ∧
              h' !! self = Some s' ∧ next_sibling (children s') child = Some b).
  { intros h2 h' tr' t v Hs2 Htags Hidb Hst Hd.
    destruct (steady_lookup _ _ _ _ Hst Hs2) as (s' & Hs' & _ & _ & Hch & _).
    simpl in Hch.
    destruct Hd as [Hd|(root & Hd)].
    - exists [], s'. rewrite app_nil_r, Hch. simpl.
      repeat split; [done|lia|constructor|done|done].
    - eexists _, s'. split; [exact Hd|]. rewrite Hch. simpl.
      split; [lia|]. split; [|done].
      apply Forall_singleton. simpl. rewrite record_before.
      rewrite (anchor_all_tags _ _ _ Htags), Hnext. simpl. by rewrite Hidb. }
  destruct (decide (child ∈ children s)) as [Hold|Hold].
  - rewrite bool_decide_eq_true_2 in Hp by done.
    rewrite (insert_child_move_eq _ _ _ _ _ _ _ Hs Htag Hc Hne Hp Hold).
    fold cs.
    assert (Hsame : alter (set_parent_field (Some self)) child h = h).
    { apply alter_id. intros x Hx. rewrite Hc in Hx. injection Hx as <-.
      clear -Hp. destruct c. simpl in *. by subst. }
    rewrite Hsame in Hinv2.
    set (h2 := alter (set_children cs) self h) in *.
    assert (Hs2 : h2 !! self = Some (set_children cs s))
      by (unfold h2; by rewrite lookup_alter_eq, Hs).
    assert (Hc2 : h2 !! child = Some c)
      by (unfold h2; by rewrite lookup_alter_ne).
    destruct (pool_inv_children_allocated _ _ _ _ Hinv2 Hs2) as [Hall Htags].
    destruct (child_moved_outcome _ _ _ tr _ _ Hs2 Hact Hc2 Hctag Hchild Hall)
      as (h' & tr' & Hw & Hst & Hd).
    rewrite Hw. simpl.
    assert (Hidb : id_of h2 b = id_of h b)
      by (unfold h2; by apply id_of_alter).
    destruct Hd as [Hd|(root & Hd)].
    + apply (Hfin h2 h' tr' "moved" VNone Hs2 Htags Hidb Hst). by left.
    + apply (Hfin h2 h' tr' "moved" (id_value child c) Hs2 Htags Hidb Hst).
      right. exists root. exact Hd.
  - rewrite bool_decide_eq_false_2 in Hp by done.
    rewrite (insert_child_add_eq _ _ _ _ _ _ _ Hs Htag Hc Hne Hp Hold).
    fold cs.
    set (h2 := alter (set_children cs) self
                 (alter (set_parent_field (Some self)) child h)) in *.
    assert (Hs2 : h2 !! self = Some (set_children cs s))
      by (unfold h2; by rewrite lookup_alter_eq, lookup_alter_ne, Hs).
    assert (Hc2 : h2 !! child = Some (set_parent_field (Some self) c))
      by (unfold h2; by rewrite lookup_alter_ne, lookup_alter_eq, Hc).
    destruct (pool_inv_children_allocated _ _ _ _ Hinv2 Hs2) as [Hall Htags].
    destruct (child_added_outcome _ _ _ tr _ _ Hs2 Hact Hc2 Hctag Hne Hchild Hall)
      as (h' & tr' & Hw & Hst & Hd).
    rewrite Hw. simpl.
    assert (Hidb : id_of h2 b = id_of h b).
    { unfold h2. rewrite id_of_alter by done. by apply id_of_alter. }
    destruct Hd as [Hd|(root & markup & Hd)].
    + apply (Hfin h2 h' tr' "added" VNone Hs2 Htags Hidb Hst). by left.
    + apply (Hfin h2 h' tr' "added" (VStr markup) Hs2 Htags Hidb Hst).
      right. exists root. exact Hd.
Qed.

End RunsFurther.


(** ** The further properties on the example documents *)

(** Two fresh objects, 10 and 26: their ids are ['a'] and ['1a']. *)
Lemma default_ids_of_live_objects_differ_witness :
  let fresh := Obj (Tag [] []) ∅ None [] false false in
  let h : gmap ref obj := {[ 10 := fresh; 26 := fresh ]} in
  ∃ s1 s2 h1 h2,
    getattr_id 10 (World h []) = Ok (VStr s1) (World h1 []) ∧
    getattr_id 26 (World h1 []) = Ok (VStr s2) (World h2 []) ∧
    int16 s1 = Some 10 ∧ int16 s2 = Some 26 ∧ s1 ≠ s2 ∧
    id_of h2 10 = VStr s1 ∧ id_of h2 26 = VStr s2.
Proof.
  intros fresh h.
  apply (default_ids_of_live_objects_differ h [] 10 26 fresh fresh);
    [reflexivity|reflexivity|discriminate|reflexivity|reflexivity].
Defined.

Lemma while_before_stops_at_the_nearest_tag_witness :
  (∃ pre c post,
      [3; 4] = pre ++ c :: post ∧
      Forall (λ x, is_tag example_heap x = false) pre ∧
      is_tag example_heap c = true ∧
      while_before [3; 4] ∅ example_world
        = Ok (<["before" := id_of example_heap c]> ∅)
             (World (fill_id c example_heap) []))
  ∨ (Forall (λ x, is_tag example_heap x = false) [3; 4] ∧
     while_before [3; 4] ∅ example_world = Ok ∅ example_world).
Proof.
  apply (while_before_stops_at_the_nearest_tag [3; 4] ∅ example_world).
  repeat constructor; by eexists.
Defined.

Lemma adopted_children_allocated :
  Forall (λ x, is_Some (adopted_heap !! x)) [2; 3; 4; 5].
Proof. repeat constructor; by eexists. Qed.

Lemma child_added_leaves_the_child_active_witness :
  ∃ c', heap (world_of (@child_added example_proxy 1 5 adopted_world)) !! 5
        = Some c' ∧
        is_initialized c' = true ∧ proxy_is_active c' = true.
Proof.
  apply (@child_added_leaves_the_child_active example_proxy 1 5 adopted_world
           (example_obj Html "D" None [2; 3; 4; 5] true)
           (example_obj (Tag [] []) "C" (Some 1) [] false));
    try reflexivity; try discriminate.
  - rewrite list_elem_of_In. simpl. lia.
  - apply adopted_children_allocated.
Defined.

Lemma child_added_without_render_witness :
  ∃ w', @child_added base_proxy 1 5 adopted_world
        = Raise NotImplementedError w' ∧
        trace w' = [Initialize 5; ActivateProxy 5; ProxyChildAdded 1 5] ∧
        ProxyChildAdded 1 5 ∈ trace w' ∧
        delivered (trace w') = [].
Proof.
  apply (@child_added_without_render base_proxy 1 5 adopted_world
           (example_obj Html "D" None [2; 3; 4; 5] true)
           (example_obj (Tag [] []) "C" (Some 1) [] false));
    try reflexivity; try discriminate.
  - rewrite list_elem_of_In. simpl. lia.
  - apply adopted_children_allocated.
Defined.

Lemma hooks_for_a_stranger_witness :
  (∃ w', @child_added example_proxy 1 5 example_world = Raise ValueError w' ∧
         trace w' = [Initialize 5; ActivateProxy 5; ProxyChildAdded 1 5;
                     ProxyRender 5 "<5>"])
  ∧ (∃ h', @child_moved example_proxy 1 5 example_world
           = Raise ValueError (World h' [ProxyChildMoved 1 5 true])).
Proof.
  destruct (@hooks_for_a_stranger example_proxy 1 5 example_world
              (example_obj Html "D" None [2; 3; 4] true)
              (example_obj (Tag [] []) "C" None [] false))
    as [Hadded Hmoved]; try reflexivity; try discriminate.
  - rewrite list_elem_of_In. simpl. lia.
  - split; [exact (Hadded "<5>" eq_refl)|exact Hmoved].
Defined.

(** [prepare] of the document before anything is active: [D] holds the
    text, and [A] and [B] below it are active afterwards; the fresh [C] is
    not part of the tree. *)
Lemma prepare_stores_before_it_activates_witness :
  ∃ h' evs,
    @prepare example_proxy 1 [("text", VStr "doc")] inactive_world
      = Ok tt (World h' evs) ∧
    Forall (λ e, ∃ x, e = Initialize x ∨ e = ActivateProxy x) evs ∧
    (h' !! 1 ≫= λ o, slots o !! "text") = Some (VStr "doc") ∧
    proxy_is_active <$> h' !! 2 = Some true ∧
    proxy_is_active <$> h' !! 4 = Some true ∧
    proxy_is_active <$> h' !! 5 = Some false.
Proof.
  destruct (@prepare_stores_before_it_activates example_proxy 1
              [("text", VStr "doc")] inactive_world
              (example_obj Html "D" None [2; 4] false) eq_refl eq_refl)
    as (evs & H & Hev & _ & _).
  { intros k v Hin. apply list_elem_of_singleton in Hin.
    injection Hin as -> ->. exists Str. split; reflexivity. }
  eexists _, evs. split; [exact H|]. split; [exact Hev|].
  repeat split; vm_compute; reflexivity.
Defined.

(** Once the document is prepared, a new text of [B] is delivered. *)
Example prepare_activates_the_document :
  delivered (trace (world_of
    (@Atom_setattr example_proxy 4 "text" (VStr "hello")
       (world_of (@prepare example_proxy 1 [] inactive_world)))))
  = [(1, {[ "id" := VStr "B"; "type" := VStr "update";
            "name" := VStr "text"; "value" := VStr "hello" ]})].
Proof. vm_compute. reflexivity. Qed.

Lemma render_prepares_then_asks_the_proxy_witness :
  (∃ h' evs,
     Forall (λ e, ∃ x, e = Initialize x ∨ e = ActivateProxy x) evs ∧
     @render example_proxy 1 [] inactive_world
     = Ok "<1>" (World h' (evs ++ [ProxyRender 1 "<1>"])) ∧
     proxy_is_active <$> h' !! 4 = Some true)
  ∧ (∃ h' evs,
       @render base_proxy 5 [] inactive_world
       = Raise NotImplementedError (World h' evs) ∧
       proxy_is_active <$> h' !! 5 = Some true)
  ∧ @render example_proxy 4 [] example_world
    = Ok "<4>" (World example_heap [ProxyRender 4 "<4>"]).
Proof.
  split; [|split].
  - destruct (proj1 (@render_prepares_then_asks_the_proxy example_proxy 1
                       inactive_world (example_obj Html "D" None [2; 4] false)
                       eq_refl) eq_refl [])
      as (evs & Hev & H).
    { intros k v Hin. by apply elem_of_nil in Hin. }
    eexists _, evs. split; [exact Hev|]. split; [exact H|].
    vm_compute. reflexivity.
  - destruct (proj1 (@render_prepares_then_asks_the_proxy base_proxy 5
                       inactive_world
                       (example_obj (Tag [] []) "C" None [] false)
                       eq_refl) eq_refl [])
      as (evs & Hev & H).
    { intros k v Hin. by apply elem_of_nil in Hin. }
    eexists _, _. split; [exact H|]. vm_compute. reflexivity.
  - rewrite (proj2 (@render_prepares_then_asks_the_proxy example_proxy 4
                      example_world
                      (example_obj Blockquote "B" (Some 1) [] true)
                      eq_refl) eq_refl eq_refl).
    vm_compute. reflexivity.
Defined.





Lemma run_delivers_children_records_witness :
  ∃ recs,
    delivered (trace (world_of (@run_ops example_proxy 1
                 [Insert (Some 4) 5; Remove 2; Insert None 5] tags_world)))
      = delivered (trace tags_world) ++ recs ∧
    length recs ≤ 3 ∧
    Forall (λ rc, children_record (id_of (heap tags_world) 1) rc.2) recs.
Proof.
  apply (@run_delivers_children_records example_proxy [2; 4; 5] 1
           [Insert (Some 4) 5; Remove 2; Insert None 5] tags_world).
  - vm_compute. reflexivity.
  - repeat constructor; rewrite list_elem_of_In; simpl; lia.
Defined.

Lemma insertion_names_the_requested_sibling_witness :
  ∃ recs s',
    delivered (trace (world_of (@insert_child example_proxy 1 (Some 4) 5
                                  tags_world)))
      = delivered (trace tags_world) ++ recs ∧
    length recs ≤ 1 ∧
    Forall (λ rc, rc.2 !! "before" = Some (id_of (heap tags_world) 4)) recs ∧
    heap (world_of (@insert_child example_proxy 1 (Some 4) 5 tags_world)) !! 1
      = Some s' ∧
    next_sibling (children s') 5 = Some 4.
Proof.
  apply (@insertion_names_the_requested_sibling example_proxy [2; 4; 5] 1 4 5
           tags_world (example_obj Html "D" None [2; 4] true)).
  - vm_compute. reflexivity.
  - rewrite list_elem_of_In. simpl. lia.
  - reflexivity.
  - rewrite list_elem_of_In. simpl. lia.
  - discriminate.
Defined.
